(** * Robot vacuum cleaner simulation core: a shallow embedding

    The development follows the Python sources module by module:
    [environment.py], [pathplanning.py], [robot.py] and [slam.py]. The
    embedding comes first, the proofs about it second.

    Conventions of the embedding.
    - Python [int] is [Z]; grid coordinates are pairs [(x, y)] of [Z].
    - Python [float] is idealised as a real number ([R]); rounding is not
      modelled.  Path costs of the A* planner, which are sums of [1.0] and
      [1.414], are kept exactly, in thousandths, as integers.
    - A two-dimensional numpy array is a shape together with a total
      indexing function; the sources index an array only after a bounds
      check.
    - Mutable objects are threaded explicitly: every method takes the
      object's state and returns the new state next to its result.
    - Draws from [np.random] are read from an explicit stream of samples.
    - A [while] loop takes a bound on the number of its passes (fuel); that
      enough fuel exists is proved wherever a result is claimed. *)

From Stdlib Require Import ZArith List Bool Lia Reals Lra Psatz.
From stdpp Require Import base gmap list.
Import ListNotations.

Open Scope Z_scope.

Definition Cell : Type := (Z * Z)%type.

(** ** Python numbers *)

Module Python.

(** The floor of a real number. *)
Definition floor (f : R) : Z := Int_part f.

(** [int(f)] on a float: the fractional part is dropped, that is, the value
    is rounded towards zero. *)
Definition int (f : R) : Z :=
  if Rle_dec 0%R f then Int_part f else - Int_part (- f)%R.

(** [a % b] on floats with [b > 0]: the remainder of the floor division. *)
Definition fmod (a b : R) : R := (a - b * IZR (floor (a / b)))%R.

Inductive exception : Type := ZeroDivisionError | IndexError.

(** What a call can do: return, raise, or still be running when the fuel
    granted to its [while] loops runs out. *)
Inductive outcome (A : Type) : Type :=
| Returns (a : A)
| Raises (e : exception)
| OutOfFuel.
Arguments Returns {A} a.
Arguments Raises {A} e.
Arguments OutOfFuel {A}.

End Python.

(** ** numpy arrays and Python ranges *)

Module Numpy.

(** A 2-D array of shape [(nrows, ncols)]; [at2 a y x] is [a[y, x]]. *)
Record ndarray (A : Type) : Type := mk_ndarray {
  nrows : Z;
  ncols : Z;
  at2 : Z -> Z -> A
}.
Arguments mk_ndarray {A} _ _ _.
Arguments nrows {A} _.
Arguments ncols {A} _.
Arguments at2 {A} _ _ _.

(** [np.zeros((h, w))] and friends: a constant array. *)
Definition full {A} (h w : Z) (v : A) : ndarray A := mk_ndarray h w (fun _ _ => v).

(** [a[y, x] = v]. *)
Definition set2 {A} (a : ndarray A) (y x : Z) (v : A) : ndarray A :=
  mk_ndarray (nrows a) (ncols a)
    (fun y' x' => if (y' =? y) && (x' =? x) then v else at2 a y' x').

(** A negative index counts from the end of the axis. *)
Definition norm_index (n i : Z) : Z := if i <? 0 then n + i else i.

(** [a[r, :] = v]. *)
Definition set_row {A} (a : ndarray A) (r : Z) (v : A) : ndarray A :=
  mk_ndarray (nrows a) (ncols a)
    (fun y x => if y =? norm_index (nrows a) r then v else at2 a y x).

(** [a[:, c] = v]. *)
Definition set_col {A} (a : ndarray A) (c : Z) (v : A) : ndarray A :=
  mk_ndarray (nrows a) (ncols a)
    (fun y x => if x =? norm_index (ncols a) c then v else at2 a y x).

(** [a == v], elementwise. *)
Definition eq_scalar (a : ndarray Z) (v : Z) : ndarray bool :=
  mk_ndarray (nrows a) (ncols a) (fun y x => at2 a y x =? v).

(** [range(n)]. *)
Definition range (n : Z) : list Z := map Z.of_nat (seq 0 (Z.to_nat n)).

(** [range(n - 1, -1, -1)]. *)
Definition range_down (n : Z) : list Z :=
  map (fun k => n - 1 - Z.of_nat k) (seq 0 (Z.to_nat n)).

(** [0 <= i < n]. *)
Definition in_range (i n : Z) : bool := (0 <=? i) && (i <? n).

(** The index pairs [(y, x)] of an array in row-major order. *)
Definition indices {A} (a : ndarray A) : list (Z * Z) :=
  flat_map (fun y => map (fun x => (y, x)) (range (ncols a))) (range (nrows a)).

(** [np.sum(a)] on a boolean array: the number of [True] entries. *)
Definition sum_bool (a : ndarray bool) : Z :=
  Z.of_nat (length (List.filter (fun '(y, x) => at2 a y x) (indices a))).

(** [np.array(rows)] for a list of rows of equal length. *)
Definition of_rows {A} (default : A) (rows : list (list A)) : ndarray A :=
  mk_ndarray (Z.of_nat (length rows)) (Z.of_nat (length (hd [] rows)))
             (fun y x => nth (Z.to_nat x) (nth (Z.to_nat y) rows []) default).

End Numpy.


(** ** environment.py *)

Module Environment.
Import Numpy.

Inductive CellType : Type := FREE | OBSTACLE | CLIFF | DOCK | DIRTY.

Definition value (c : CellType) : Z :=
  match c with FREE => 0 | OBSTACLE => 1 | CLIFF => 2 | DOCK => 3 | DIRTY => 4 end.

(** [CellType(v)]; [None] stands for the [ValueError] of an unknown code. *)
Definition CellType_of (v : Z) : option CellType :=
  if v =? 0 then Some FREE
  else if v =? 1 then Some OBSTACLE
  else if v =? 2 then Some CLIFF
  else if v =? 3 then Some DOCK
  else if v =? 4 then Some DIRTY
  else None.

(** [EnvironmentGenerator.create_empty_room]. *)
Definition create_empty_room (width height : Z) : ndarray Z :=
  let env := full height width 0 in
  let env := set_row env 0 (value OBSTACLE) in
  let env := set_row env (-1) (value OBSTACLE) in
  let env := set_col env 0 (value OBSTACLE) in
  let env := set_col env (-1) (value OBSTACLE) in
  env.

Record Environment : Type := mk_env {
  env : ndarray Z;
  original_env : ndarray Z;
  height : Z;
  width : Z;
  tick_rate : R;
  dock_position : option Cell;
  dirt_map : ndarray bool;
  sim_time : R
}.

(** [_initialize_dirt]: all free cells start dirty. *)
Definition _initialize_dirt (e : Environment) : Environment :=
  mk_env (env e) (original_env e) (height e) (width e) (tick_rate e)
         (dock_position e) (eq_scalar (env e) (value FREE)) (sim_time e).

(** [np.argwhere(a == v)]: the matching indices [(y, x)] in row-major order. *)
Definition argwhere_eq (a : ndarray Z) (v : Z) : list (Z * Z) :=
  flat_map (fun y => flat_map (fun x => if at2 a y x =? v then [(y, x)] else [])
                              (range (ncols a)))
           (range (nrows a)).

(** [Environment.__init__(env_array, tick_rate)]. *)
Definition init (env_array : ndarray Z) (tick_rate : R) : Environment :=
  let dock := match argwhere_eq env_array (value DOCK) with
              | (y, x) :: _ => Some (x, y)
              | [] => None
              end in
  _initialize_dirt
    (mk_env env_array env_array (nrows env_array) (ncols env_array) tick_rate
            dock (full (nrows env_array) (ncols env_array) false) 0%R).

(** [clean_cell(x, y)]. *)
Definition clean_cell (e : Environment) (x y : Z) : Environment :=
  if in_range x (width e) && in_range y (height e) then
    mk_env (env e) (original_env e) (height e) (width e) (tick_rate e)
           (dock_position e) (set2 (dirt_map e) y x false) (sim_time e)
  else e.

(** [is_dirty(x, y)]. *)
Definition is_dirty (e : Environment) (x y : Z) : bool :=
  if in_range x (width e) && in_range y (height e) then at2 (dirt_map e) y x
  else false.

(** [get_cell_type(x, y)]; [None] is the [ValueError] raised by
    [CellType(...)] on a cell code outside the enumeration. *)
Definition get_cell_type (e : Environment) (x y : Z) : option CellType :=
  if in_range x (width e) && in_range y (height e) then CellType_of (at2 (env e) y x)
  else Some OBSTACLE.

(** [Environment.is_valid_position(x, y)], with the same convention. *)
Definition is_valid_position (e : Environment) (x y : Z) : option bool :=
  if negb (in_range x (width e) && in_range y (height e)) then Some false
  else match CellType_of (at2 (env e) y x) with
       | Some FREE | Some DOCK | Some DIRTY => Some true
       | Some _ => Some false
       | None => None
       end.

(** The position [(x, y)] lies outside [0, W) x [0, H). *)
Definition out_of_bounds (e : Environment) (x y : Z) : Prop :=
  ~ (0 <= x < width e /\ 0 <= y < height e).

(** [get_cleaning_percentage()]. *)
Definition get_cleaning_percentage (e : Environment) : R :=
  let total_cleanable := sum_bool (eq_scalar (original_env e) (value FREE)) in
  if total_cleanable =? 0 then 100%R
  else
    let cleaned := total_cleanable - sum_bool (dirt_map e) in
    (IZR cleaned / IZR total_cleanable * 100)%R.

(** [reset()]. *)
Definition reset (e : Environment) : Environment :=
  let e := mk_env (original_env e) (original_env e) (height e) (width e)
                  (tick_rate e) (dock_position e) (dirt_map e) (sim_time e) in
  let e := _initialize_dirt e in
  mk_env (env e) (original_env e) (height e) (width e) (tick_rate e)
         (dock_position e) (dirt_map e) 0%R.

(** [step(delta_time)]; [None] is the default argument. *)
Definition step (e : Environment) (delta_time : option R) : Environment :=
  let delta_time := match delta_time with None => tick_rate e | Some d => d end in
  mk_env (env e) (original_env e) (height e) (width e) (tick_rate e)
         (dock_position e) (dirt_map e) (sim_time e + delta_time)%R.

(** The environments that method calls produce from a constructed one. *)
Inductive evolved (env_array : ndarray Z) (rate : R) : Environment -> Prop :=
| evolved_init : evolved env_array rate (init env_array rate)
| evolved_clean e x y :
    evolved env_array rate e -> evolved env_array rate (clean_cell e x y)
| evolved_step e d : evolved env_array rate e -> evolved env_array rate (step e d)
| evolved_reset e : evolved env_array rate e -> evolved env_array rate (reset e).

(** What every such environment keeps of the map it was constructed on. *)
Record kept (env_array : ndarray Z) (rate : R) (e : Environment) : Prop := mk_kept {
  kept_env : env e = env_array;
  kept_original : original_env e = env_array;
  kept_height : height e = nrows env_array;
  kept_width : width e = ncols env_array;
  kept_rate : tick_rate e = rate;
  kept_dock : dock_position e = dock_position (init env_array rate);
  kept_shape : nrows (dirt_map e) = nrows env_array /\
               ncols (dirt_map e) = ncols env_array;
  kept_dirt : forall y x, at2 (dirt_map e) y x = true ->
                          at2 env_array y x = value FREE
}.

End Environment.


(** ** pathplanning.py *)

Module PathPlanner.
Import Numpy.

(** [PathPlanner.__init__] reads [height, width] off the array's shape, so
    a planner is its environment array. *)
Definition height (environment : ndarray Z) : Z := nrows environment.
Definition width (environment : ndarray Z) : Z := ncols environment.

(** [is_valid_position(x, y)]: in bounds and free (0) or dock (3). *)
Definition is_valid_position (environment : ndarray Z) (x y : Z) : bool :=
  if negb (in_range x (width environment) && in_range y (height environment))
  then false
  else let v := at2 environment y x in (v =? 0) || (v =? 3).

(** [is_valid_position] on a cell [c = (x, y)]. *)
Definition traversable (environment : ndarray Z) (c : Cell) : bool :=
  is_valid_position environment (fst c) (snd c).

(** [get_neighbors(x, y, diagonal)]. *)
Definition get_neighbors (environment : ndarray Z) (x y : Z) (diagonal : bool)
  : list Cell :=
  let neighbors :=
    fold_left (fun neighbors '(dx, dy) =>
                 let nx := x + dx in
                 let ny := y + dy in
                 if is_valid_position environment nx ny
                 then neighbors ++ [(nx, ny)] else neighbors)
              [(0, 1); (1, 0); (0, -1); (-1, 0)] [] in
  if diagonal then
    fold_left (fun neighbors '(dx, dy) =>
                 let nx := x + dx in
                 let ny := y + dy in
                 if is_valid_position environment nx ny
                 then if is_valid_position environment (x + dx) y
                         && is_valid_position environment x (y + dy)
                      then neighbors ++ [(nx, ny)] else neighbors
                 else neighbors)
              [(1, 1); (1, -1); (-1, 1); (-1, -1)] neighbors
  else neighbors.

(** A cell of the grid whose value is free (0) or dock (3). *)
Definition free_or_dock (environment : ndarray Z) (c : Cell) : Prop :=
  0 <= fst c < width environment /\ 0 <= snd c < height environment /\
  (at2 environment (snd c) (fst c) = 0 \/ at2 environment (snd c) (fst c) = 3).

(** Every cell of the grid, row by row, and those among them that can be
    traversed. *)
Definition all_cells (environment : ndarray Z) : list Cell :=
  flat_map (fun y => map (fun x => (x, y)) (range (width environment)))
           (range (height environment)).

Definition traversable_cells (environment : ndarray Z) : list Cell :=
  List.filter (traversable environment) (all_cells environment).

(** "A sequence of traversable steps connects [a] to [b]": one can walk from
    [a] to [b] by unit steps along an axis, every cell stepped on being
    traversable. *)
Definition adjacent (p q : Cell) : Prop :=
  Z.abs (fst q - fst p) + Z.abs (snd q - snd p) = 1.

Inductive connected (environment : ndarray Z) (a : Cell) : Cell -> Prop :=
| connected_refl : connected environment a a
| connected_step p q :
    connected environment a p -> adjacent p q ->
    traversable environment q = true -> connected environment a q.

End PathPlanner.

Module ZigzagCoveragePlanner.
Import Numpy PathPlanner.

(** One inner [for] loop of the horizontal sweep: row [y], columns [xs]. *)
Definition sweep_row (environment : ndarray Z) (y : Z) (xs : list Z)
           (path : list Cell) : list Cell :=
  fold_left (fun path x =>
               if is_valid_position environment x y then path ++ [(x, y)] else path)
            xs path.

(** One inner [for] loop of the vertical sweep: column [x], rows [ys]. *)
Definition sweep_col (environment : ndarray Z) (x : Z) (ys : list Z)
           (path : list Cell) : list Cell :=
  fold_left (fun path y =>
               if is_valid_position environment x y then path ++ [(x, y)] else path)
            ys path.

(** [generate_zigzag_path(start, horizontal)]. *)
Definition generate_zigzag_path (environment : ndarray Z) (start : Cell)
           (horizontal : bool) : list Cell :=
  let path := [] in
  if horizontal then
    fold_left (fun path y =>
                 if y mod 2 =? 0
                 then sweep_row environment y (range (width environment)) path
                 else sweep_row environment y (range_down (width environment)) path)
              (range (height environment)) path
  else
    fold_left (fun path x =>
                 if x mod 2 =? 0
                 then sweep_col environment x (range (height environment)) path
                 else sweep_col environment x (range_down (height environment)) path)
              (range (width environment)) path.

(** The boustrophedon order in the words of the specification: rows in
    increasing order, even rows left to right and odd rows right to left,
    keeping the traversable cells; the vertical mode is the transpose. *)
Definition boustrophedon (environment : ndarray Z) (horizontal : bool) : list Cell :=
  if horizontal then
    flat_map (fun y =>
                let xs := range (width environment) in
                List.filter (traversable environment)
                       (map (fun x => (x, y)) (if Z.even y then xs else rev xs)))
             (range (height environment))
  else
    flat_map (fun x =>
                let ys := range (height environment) in
                List.filter (traversable environment)
                       (map (fun y => (x, y)) (if Z.even x then ys else rev ys)))
             (range (width environment)).

End ZigzagCoveragePlanner.

Module SpiralCoveragePlanner.
Import Numpy PathPlanner.

(** The local variables of [generate_spiral_path] that the loop updates. *)
Record Locals : Type := mk_locals {
  path : list Cell;
  x : Z;
  y : Z;
  dx : Z;
  dy : Z;
  steps_in_direction : Z;
  steps_taken : Z;
  direction_changes : Z
}.

(** The state before the loop: [path = [start]], heading right, leg length 1. *)
Definition initial (start : Cell) : Locals :=
  mk_locals [start] (fst start) (snd start) 1 0 1 0 0.

(** One pass through the loop body, up to (not including) the [break] test. *)
Definition body (environment : ndarray Z) (s : Locals) : Locals :=
  let x := x s + dx s in
  let y := y s + dy s in
  let path := if is_valid_position environment x y
              then path s ++ [(x, y)] else path s in
  let steps_taken := steps_taken s + 1 in
  if steps_taken =? steps_in_direction s then
    let direction_changes := direction_changes s + 1 in
    mk_locals path x y (- dy s) (dx s)
              (if direction_changes mod 2 =? 0
               then steps_in_direction s + 1 else steps_in_direction s)
              0 direction_changes
  else
    mk_locals path x y (dx s) (dy s) (steps_in_direction s) steps_taken
              (direction_changes s).

(** The test guarding [break]. *)
Definition beyond_radius (start : Cell) (max_radius : Z) (s : Locals) : bool :=
  (Z.abs (x s - fst start) >? max_radius) && (Z.abs (y s - snd start) >? max_radius).

(** How a [for ... in range(n)] loop with a [break] was left. *)
Inductive LoopExit : Type := RangeExhausted | Break.

Record Run : Type := mk_run {
  final : Locals;
  iterations : nat;      (* passes through the body that were executed *)
  exit : LoopExit
}.

(** [for _ in range(n): body; if beyond_radius: break], with [n] passes left
    and [k] already done. *)
Fixpoint loop (environment : ndarray Z) (start : Cell) (max_radius : Z)
         (n k : nat) (s : Locals) : Run :=
  match n with
  | O => mk_run s k RangeExhausted
  | S n' =>
      let s' := body environment s in
      if beyond_radius start max_radius s' then mk_run s' (S k) Break
      else loop environment start max_radius n' (S k) s'
  end.

(** The radius in force: the argument, or [max(width, height)] for [None]. *)
Definition effective_radius (environment : ndarray Z) (max_radius : option Z) : Z :=
  match max_radius with
  | None => Z.max (width environment) (height environment)
  | Some r => r
  end.

Definition run_spiral (environment : ndarray Z) (start : Cell)
           (max_radius : option Z) : Run :=
  let max_radius := effective_radius environment max_radius in
  loop environment start max_radius (Z.to_nat (max_radius * max_radius)) 0
       (initial start).

(** [generate_spiral_path(start, max_radius)]. *)
Definition generate_spiral_path (environment : ndarray Z) (start : Cell)
           (max_radius : option Z) : list Cell :=
  path (final (run_spiral environment start max_radius)).

(** The locals after [k] passes through the body when no [break] is taken. *)
Definition passes (environment : ndarray Z) (k : nat) (s : Locals) : Locals :=
  Nat.iter k (body environment) s.

(** The abstract spiral positions of passes [1 .. k]. *)
Definition trace (environment : ndarray Z) (k : nat) (s : Locals) : list Cell :=
  map (fun i => (x (passes environment i s), y (passes environment i s))) (seq 1 k).

(** The step pattern in the words of the specification: legs numbered from
    0; leg [k] heads right, down, left, up in turn and its length starts at
    1 and grows by one every two legs. *)
Definition leg_direction (k : nat) : Z * Z :=
  match (k mod 4)%nat with
  | 0%nat => (1, 0)      (* right *)
  | 1%nat => (0, 1)      (* down: y grows downwards *)
  | 2%nat => (-1, 0)     (* left *)
  | _ => (0, -1)         (* up *)
  end.

Definition leg_length (k : nat) : nat := (k / 2 + 1)%nat.

(** The unit moves of the first [legs] legs, in order. *)
Definition spiral_moves (legs : nat) : list (Z * Z) :=
  flat_map (fun k => repeat (leg_direction k) (leg_length k)) (seq 0 legs).

(** The cells reached from [p] by following [moves] one after the other. *)
Fixpoint walk (p : Cell) (moves : list (Z * Z)) : list Cell :=
  match moves with
  | [] => []
  | (mx, my) :: rest =>
      let q := (fst p + mx, snd p + my) in q :: walk q rest
  end.

(** The test guarding [break], as a property of an abstract position. *)
Definition beyond (start : Cell) (max_radius : Z) (c : Cell) : Prop :=
  Z.abs (fst c - fst start) > max_radius /\ Z.abs (snd c - snd start) > max_radius.

(** The first [n] positions of the abstract spiral around [start]; [n] legs
    always hold at least [n] moves. *)
Definition spiral_positions (start : Cell) (n : nat) : list Cell :=
  walk start (firstn n (spiral_moves n)).

(** Closed form of the abstract spiral: after [j] passes the spiral is [t]
    steps into leg [4 m + p] of turn [m]; the four cases give the leg's
    heading, length and corner. *)
Definition on_spiral (start : Cell) (j : Z) (s : Locals) : Prop :=
  exists m t : Z,
    0 <= m /\ 0 <= t /\ steps_taken s = t /\ t < steps_in_direction s /\
    let X := x s - fst start in
    let Y := y s - snd start in
    ((direction_changes s = 4 * m /\ steps_in_direction s = 2 * m + 1 /\
      dx s = 1 /\ dy s = 0 /\ X = - m + t /\ Y = - m /\
      j = 4 * m * m + 2 * m + t)
     \/
     (direction_changes s = 4 * m + 1 /\ steps_in_direction s = 2 * m + 1 /\
      dx s = 0 /\ dy s = 1 /\ X = m + 1 /\ Y = - m + t /\
      j = 4 * m * m + 4 * m + 1 + t)
     \/
     (direction_changes s = 4 * m + 2 /\ steps_in_direction s = 2 * m + 2 /\
      dx s = -1 /\ dy s = 0 /\ X = m + 1 - t /\ Y = m + 1 /\
      j = 4 * m * m + 6 * m + 2 + t)
     \/
     (direction_changes s = 4 * m + 3 /\ steps_in_direction s = 2 * m + 2 /\
      dx s = 0 /\ dy s = -1 /\ X = - (m + 1) /\ Y = m + 1 - t /\
      j = 4 * m * m + 8 * m + 4 + t)).

(** After [j] passes the locals sit [t] steps into leg [c], and the moves so
    far are the complete legs before [c] followed by [t] steps of leg [c]. *)
Definition follows_legs (start : Cell) (s : Locals) (moves : list (Z * Z)) : Prop :=
  exists c t : nat,
    direction_changes s = Z.of_nat c /\
    steps_taken s = Z.of_nat t /\
    steps_in_direction s = Z.of_nat (leg_length c) /\
    (t < leg_length c)%nat /\
    (dx s, dy s) = leg_direction c /\
    moves = spiral_moves c ++ repeat (leg_direction c) t /\
    (x s, y s) = List.last (walk start moves) start.

End SpiralCoveragePlanner.

(** ** heapq

    The binary heap of Python's [heapq] module on a list, as [find_path]
    uses it: the order [lt] is the [__lt__] of the items, read when the call
    is made. *)

Module Heapq.
Section Heap.
Context {A : Type} (lt : A -> A -> bool).

(** The [while pos > startpos] loop of [_siftdown]; [pos] steps to a parent
    on every pass, so [pos] passes are enough. *)
Fixpoint siftdown_loop (fuel : nat) (heap : list A) (newitem : A)
         (startpos pos : nat) : list A * nat :=
  match fuel with
  | O => (heap, pos)
  | S fuel' =>
      if (startpos <? pos)%nat then
        let parentpos := ((pos - 1) / 2)%nat in
        match heap !! parentpos with
        | Some parent =>
            if lt newitem parent
            then siftdown_loop fuel' (<[pos := parent]> heap) newitem startpos parentpos
            else (heap, pos)
        | None => (heap, pos)
        end
      else (heap, pos)
  end.

(** [_siftdown(heap, startpos, pos)]. *)
Definition _siftdown (heap : list A) (startpos pos : nat) : list A :=
  match heap !! pos with
  | Some newitem =>
      let '(heap, pos) := siftdown_loop pos heap newitem startpos pos in
      <[pos := newitem]> heap
  | None => heap
  end.

(** The [while childpos < endpos] loop of [_siftup]; [childpos] grows on
    every pass, so [endpos] passes are enough. *)
Fixpoint siftup_loop (fuel : nat) (heap : list A) (endpos pos : nat)
  : list A * nat :=
  match fuel with
  | O => (heap, pos)
  | S fuel' =>
      let childpos := (2 * pos + 1)%nat in
      if (childpos <? endpos)%nat then
        let rightpos := (childpos + 1)%nat in
        let childpos :=
          if (rightpos <? endpos)%nat then
            match heap !! childpos, heap !! rightpos with
            | Some child, Some rchild =>
                if negb (lt child rchild) then rightpos else childpos
            | _, _ => childpos
            end
          else childpos in
        match heap !! childpos with
        | Some child => siftup_loop fuel' (<[pos := child]> heap) endpos childpos
        | None => (heap, pos)
        end
      else (heap, pos)
  end.

(** [_siftup(heap, pos)]. *)
Definition _siftup (heap : list A) (pos : nat) : list A :=
  let endpos := length heap in
  let startpos := pos in
  match heap !! pos with
  | Some newitem =>
      let '(heap, pos) := siftup_loop endpos heap endpos pos in
      _siftdown (<[pos := newitem]> heap) startpos pos
  | None => heap
  end.

(** [heappush(heap, item)]. *)
Definition heappush (heap : list A) (item : A) : list A :=
  let heap := heap ++ [item] in
  _siftdown heap 0 (length heap - 1).

(** [heappop(heap)] on a heap that is not empty: the item returned and the
    heap left; [None] stands for the [IndexError] of an empty heap. *)
Definition heappop (heap : list A) : option (A * list A) :=
  match List.last (map Some heap) None with
  | None => None
  | Some lastelt =>
      let heap := removelast heap in
      match heap with
      | [] => Some (lastelt, heap)
      | returnitem :: _ => Some (returnitem, _siftup (<[0%nat := lastelt]> heap) 0)
      end
  end.

End Heap.
End Heapq.

(** ** A* search *)

Module AStarPlanner.
Import Python Numpy PathPlanner Heapq.

(** A search node. Costs are in thousandths of a step, so that the move
    costs [1.0] and [1.414] are the integers 1000 and 1414. Every position has
    at most one node object, held in [node_map]; a reference to a node (in
    the heap, or as a parent) is therefore given by the node's position. *)
Record PathPlanNode : Type := mk_node {
  position : Cell;
  g_cost : Z;
  h_cost : Z;
  parent : option Cell
}.

(** [f_cost], in thousandths. *)
Definition f_cost (n : PathPlanNode) : Z := g_cost n + 1000 * h_cost n.

(** [heuristic(pos1, pos2)]: the Manhattan distance. *)
Definition heuristic (pos1 pos2 : Cell) : Z :=
  Z.abs (fst pos1 - fst pos2) + Z.abs (snd pos1 - snd pos2).

(** The state of the search loop. *)
Record Search : Type := mk_search {
  open_set : list Cell;
  closed_set : gset Cell;
  node_map : gmap Cell PathPlanNode
}.

(** Attribute reads through a reference. *)
Definition g_of (nodes : gmap Cell PathPlanNode) (p : Cell) : Z :=
  match nodes !! p with Some n => g_cost n | None => 0 end.

Definition f_of (nodes : gmap Cell PathPlanNode) (p : Cell) : Z :=
  match nodes !! p with Some n => f_cost n | None => 0 end.

(** [PathPlanNode.__lt__], on references. *)
Definition node_lt (nodes : gmap Cell PathPlanNode) (a b : Cell) : bool :=
  f_of nodes a <? f_of nodes b.

(** One pass of [for neighbor_pos in self.get_neighbors(...)]. *)
Definition visit (goal current : Cell) (s : Search) (neighbor_pos : Cell) : Search :=
  if decide (neighbor_pos ∈ closed_set s) then s
  else
    let move_cost :=
      if (fst neighbor_pos =? fst current) || (snd neighbor_pos =? snd current)
      then 1000 else 1414 in
    let g_cost' := g_of (node_map s) current + move_cost in
    let h_cost' := heuristic neighbor_pos goal in
    match node_map s !! neighbor_pos with
    | Some neighbor_node =>
        if g_cost' <? g_cost neighbor_node then
          let nodes :=
            <[neighbor_pos := mk_node (position neighbor_node) g_cost'
                                      (h_cost neighbor_node) (Some current)]>
              (node_map s) in
          mk_search (heappush (node_lt nodes) (open_set s) neighbor_pos)
                    (closed_set s) nodes
        else s
    | None =>
        let nodes :=
          <[neighbor_pos := mk_node neighbor_pos g_cost' h_cost' (Some current)]>
            (node_map s) in
        mk_search (heappush (node_lt nodes) (open_set s) neighbor_pos)
                  (closed_set s) nodes
    end.

(** Path reconstruction: [while current: path.append(...); current =
    current.parent], with at most [fuel] passes. *)
Fixpoint reconstruct (fuel : nat) (nodes : gmap Cell PathPlanNode)
         (current : option Cell) (path : list Cell) : outcome (list Cell) :=
  match current with
  | None => Returns path
  | Some c =>
      match fuel with
      | O => OutOfFuel
      | S fuel' =>
          reconstruct fuel' nodes (nodes !! c ≫= parent) (path ++ [c])
      end
  end.

(** The loop [while open_set], with at most [fuel] passes; the fuel left
    bounds the passes of the reconstruction. *)
Fixpoint search (fuel : nat) (environment : ndarray Z) (goal : Cell)
         (diagonal : bool) (s : Search) : outcome (option (list Cell)) :=
  match fuel with
  | O => OutOfFuel
  | S fuel' =>
      match heappop (node_lt (node_map s)) (open_set s) with
      | None => Returns None
      | Some (current, open_set') =>
          if decide (current = goal) then
            match reconstruct fuel' (node_map s) (Some current) [] with
            | Returns path => Returns (Some (rev path))
            | Raises e => Raises e
            | OutOfFuel => OutOfFuel
            end
          else
            let s := mk_search open_set' ({[current]} ∪ closed_set s) (node_map s) in
            search fuel' environment goal diagonal
                   (fold_left (visit goal current)
                              (get_neighbors environment (fst current) (snd current)
                                             diagonal)
                              s)
      end
  end.

(** [find_path(start, goal, diagonal)]; the result [Returns None] is the
    method returning [None]. *)
Definition find_path (fuel : nat) (environment : ndarray Z) (start goal : Cell)
           (diagonal : bool) : outcome (option (list Cell)) :=
  if negb (is_valid_position environment (fst start) (snd start))
     || negb (is_valid_position environment (fst goal) (snd goal))
  then Returns None
  else
    let start_node := mk_node start 0 (heuristic start goal) None in
    let node_map := {[start := start_node]} in
    let open_set := heappush (node_lt node_map) [] start in
    search fuel environment goal diagonal (mk_search open_set ∅ node_map).

(** The sum of the [g_cost] of all nodes. *)
Definition total_g (nodes : gmap Cell PathPlanNode) : Z :=
  map_fold (fun _ n acc => g_cost n + acc) 0 nodes.

(** The traversable cells that have no node yet, and the work left for the
    nodes that exist: the items on the heap plus the room left for lowering
    a [g_cost]. *)
Definition unexplored (environment : ndarray Z) (s : Search) : nat :=
  size (list_to_set (traversable_cells environment) : gset Cell)
  - size (dom (node_map s)).

Definition work (s : Search) : nat :=
  length (open_set s) + Z.to_nat (total_g (node_map s)).

(** What holds of the search state at the head of the loop. *)
Record invariant (environment : ndarray Z) (start : Cell) (s : Search) : Prop :=
  mk_invariant {
    inv_open : Forall (fun p => p ∈ dom (node_map s)) (open_set s);
    inv_connected : forall p, p ∈ dom (node_map s) -> connected environment start p;
    inv_cells : dom (node_map s) ⊆ list_to_set (traversable_cells environment);
    inv_g : map_Forall (fun _ n => 0 <= g_cost n) (node_map s)
  }.

(** [s'] is no further from the end of the search than [s]. *)
Definition no_worse (environment : ndarray Z) (s s' : Search) : Prop :=
  (unexplored environment s' < unexplored environment s)%nat \/
  (unexplored environment s' = unexplored environment s /\
   (work s' <= work s)%nat).

(** Every step of the path is a move that [get_neighbors] offers. *)
Fixpoint legal_steps (environment : ndarray Z) (diagonal : bool)
         (path : list Cell) : Prop :=
  match path with
  | p :: (q :: _) as rest =>
      In q (get_neighbors environment (fst p) (snd p) diagonal) /\
      legal_steps environment diagonal rest
  | _ => True
  end.

(** The parent references form a tree rooted at the start: the start node has
    no parent and cost 0; the parent of any other node is a node from which
    one move leads to it, and is strictly cheaper. *)
Record tree (environment : ndarray Z) (start : Cell) (diagonal : bool)
       (s : Search) : Prop := mk_tree {
  tree_start :
    exists n, node_map s !! start = Some n /\ g_cost n = 0 /\ parent n = None;
  tree_parent :
    forall p n, node_map s !! p = Some n -> p <> start ->
      exists q, parent n = Some q /\ q ∈ dom (node_map s) /\
                In p (get_neighbors environment (fst q) (snd q) diagonal) /\
                g_of (node_map s) q < g_cost n
}.

(** Closed cells have nodes, and so have their neighbours, except the
    neighbours [pending] of [current] that the pass has yet to visit; a node
    that is not closed is on the heap. *)
Record frontier (environment : ndarray Z) (diagonal : bool) (current : Cell)
       (pending : list Cell) (s : Search) : Prop := mk_frontier {
  fr_closed : forall c, c ∈ closed_set s -> c ∈ dom (node_map s);
  fr_neighbors :
    forall c nb, c ∈ closed_set s ->
      In nb (get_neighbors environment (fst c) (snd c) diagonal) ->
      nb ∈ dom (node_map s) \/ (c = current /\ In nb pending);
  fr_open : forall p, p ∈ dom (node_map s) -> p ∉ closed_set s -> p ∈ open_set s
}.

(** What holds of the search state at the head of the loop. *)
Definition ready environment start goal diagonal (s : Search) : Prop :=
  invariant environment start s /\
  tree environment start diagonal s /\
  frontier environment diagonal start [] s /\
  goal ∉ closed_set s.

(** The cost of a path at the rates of [find_path]: 1.0 for a step along an
    axis and 1.414 for any other, in thousandths. *)
Fixpoint path_cost (path : list Cell) : Z :=
  match path with
  | p :: (q :: _) as rest =>
      (if (fst q =? fst p) || (snd q =? snd p) then 1000 else 1414)
      + path_cost rest
  | _ => 0
  end.

End AStarPlanner.

(** *** Wall following *)

Module WallFollowPlanner.
Import Numpy PathPlanner.

(** The local variables of [follow_wall] that the loop updates. *)
Record Locals : Type := mk_locals {
  path : list Cell;
  x : Z;
  y : Z;
  direction_idx : Z;
  visited : gset Cell
}.

(** 0 = North, 1 = East, 2 = South, 3 = West. *)
Definition directions : list (Z * Z) := [(0, -1); (1, 0); (0, 1); (-1, 0)].

(** [directions[i]]; the loop keeps [i] in [0, 4). *)
Definition direction (i : Z) : Z * Z := nth (Z.to_nat i) directions (0, 0).

Definition initial (start : Cell) : Locals :=
  mk_locals [start] (fst start) (snd start) 0 {[start]}.

(** The end of a pass that moved to [(x, y)] heading [direction_idx]: the
    cell is recorded if it is new; the flag says whether the loop is left. *)
Definition arrive (start : Cell) (s : Locals) (x y direction_idx : Z)
  : Locals * bool :=
  let s' :=
    if decide ((x, y) ∉ visited s)
    then mk_locals (path s ++ [(x, y)]) x y direction_idx ({[(x, y)]} ∪ visited s)
    else mk_locals (path s) x y direction_idx (visited s) in
  (s', bool_decide ((x, y) = start) && (Z.of_nat (length (path s')) >? 10)).

(** One pass through the loop body; the flag says whether it ended in
    [break]. *)
Definition body (environment : ndarray Z) (start : Cell) (s : Locals)
  : Locals * bool :=
  let right_direction := (direction_idx s + 1) mod 4 in
  let '(dx, dy) := direction right_direction in
  let right_x := x s + dx in
  let right_y := y s + dy in
  if is_valid_position environment right_x right_y then
    arrive start s right_x right_y right_direction
  else
    let '(dx, dy) := direction (direction_idx s) in
    let forward_x := x s + dx in
    let forward_y := y s + dy in
    if is_valid_position environment forward_x forward_y then
      arrive start s forward_x forward_y (direction_idx s)
    else
      (mk_locals (path s) (x s) (y s) ((direction_idx s - 1) mod 4) (visited s),
       false).

(** [for _ in range(n): body]. *)
Fixpoint loop (environment : ndarray Z) (start : Cell) (n : nat) (s : Locals)
  : Locals :=
  match n with
  | O => s
  | S n' =>
      let '(s', stop) := body environment start s in
      if stop then s' else loop environment start n' s'
  end.

(** [follow_wall(start, max_steps)]. *)
Definition follow_wall (environment : ndarray Z) (start : Cell) (max_steps : Z)
  : list Cell :=
  path (loop environment start (Z.to_nat max_steps) (initial start)).

(** What [follow_wall] keeps true of its local variables. *)
Record follows (environment : ndarray Z) (start : Cell) (k : nat) (s : Locals)
  : Prop := mk_follows {
  fw_head : head (path s) = Some start;
  fw_nodup : List.NoDup (path s);
  fw_visited : forall c, c ∈ visited s <-> In c (path s);
  fw_valid : Forall (fun c => traversable environment c = true) (tail (path s));
  fw_length : (length (path s) <= k + 1)%nat
}.

(** The block of four cells south-east of [(x0, y0)], in the order in which
    turning right walks round it. *)
Definition block (x0 y0 : Z) : list Cell :=
  [(x0, y0); (x0 + 1, y0); (x0 + 1, y0 + 1); (x0, y0 + 1)].

(** The robot has listed the block and stands on one of its cells, heading
    the way it came. *)
Definition circling (x0 y0 : Z) (s : Locals) : Prop :=
  path s = block x0 y0 /\
  (forall c, In c (block x0 y0) -> c ∈ visited s) /\
  ((x s, y s, direction_idx s) = (x0, y0, 0) \/
   (x s, y s, direction_idx s) = (x0 + 1, y0, 1) \/
   (x s, y s, direction_idx s) = (x0 + 1, y0 + 1, 2) \/
   (x s, y s, direction_idx s) = (x0, y0 + 1, 3)).

(** The locals after the first three passes on such a block. *)
Definition after_three (x0 y0 : Z) : Locals :=
  mk_locals (block x0 y0) x0 (y0 + 1) 3
            ({[(x0, y0 + 1)]} ∪ ({[(x0 + 1, y0 + 1)]} ∪ ({[(x0 + 1, y0)]} ∪ {[(x0, y0)]}))).

End WallFollowPlanner.

(** *** Path optimisation *)

Module CoverageOptimizer.
Import Python.

(** [remove_redundant_moves(path)]. *)
Definition remove_redundant_moves (path : list Cell) : list Cell :=
  if (Z.of_nat (length path) <=? 2) then path
  else
    match path with
    | [] => []
    | first :: rest =>
        fold_left (fun optimized p =>
                     if decide (Some p <> last optimized)
                     then optimized ++ [p] else optimized)
                  rest [first]
    end.

(** [_is_line_clear(start, end, path)]. *)
Definition _is_line_clear (start end_ : Cell) (path : list Cell) : bool := true.

(** The inner [while j > i + 1] loop of [smooth_path], entered with
    [j = i + 1 + k]: the index at which it breaks, or [None] when it runs
    into its [else] branch. *)
Fixpoint furthest (path : list Cell) (i : nat) (k : nat) : outcome (option nat) :=
  match k with
  | O => Returns None
  | S k' =>
      let j := (i + 1 + k)%nat in
      match path !! i, path !! j with
      | Some a, Some b =>
          if _is_line_clear a b path then Returns (Some j) else furthest path i k'
      | _, _ => Raises IndexError
      end
  end.

(** The outer [while i < len(path) - 1] loop of [smooth_path]. *)
Fixpoint smooth_loop (fuel : nat) (path : list Cell) (i : nat)
         (smoothed : list Cell) : outcome (list Cell) :=
  match fuel with
  | O => OutOfFuel
  | S fuel' =>
      if (Z.of_nat i <? Z.of_nat (length path) - 1) then
        let j := (length path - 1)%nat in
        match furthest path i (j - (i + 1)) with
        | Returns (Some j) =>
            match path !! j with
            | Some p => smooth_loop fuel' path j (smoothed ++ [p])
            | None => Raises IndexError
            end
        | Returns None =>
            match path !! (i + 1)%nat with
            | Some p => smooth_loop fuel' path (i + 1) (smoothed ++ [p])
            | None => Raises IndexError
            end
        | Raises e => Raises e
        | OutOfFuel => OutOfFuel
        end
      else Returns smoothed
  end.

(** [smooth_path(path)]. *)
Definition smooth_path (fuel : nat) (path : list Cell) : outcome (list Cell) :=
  if (Z.of_nat (length path) <=? 2) then Returns path
  else
    match path with
    | [] => Raises IndexError
    | first :: _ => smooth_loop fuel path 0 [first]
    end.

(** No two neighbouring entries of the list are equal. *)
Fixpoint stutter_free (l : list Cell) : Prop :=
  match l with
  | a :: (b :: _) as t => a <> b /\ stutter_free t
  | _ => True
  end.

(** The loop of [remove_redundant_moves]. *)
Definition keep_moves (rest optimized : list Cell) : list Cell :=
  fold_left (fun optimized p =>
               if decide (Some p <> last optimized)
               then optimized ++ [p] else optimized)
            rest optimized.

End CoverageOptimizer.

(** ** robot.py *)

Module Robot.
Import Python.
Local Open Scope R_scope.

Inductive RobotState : Type :=
  IDLE | CLEANING | RETURNING_TO_DOCK | CHARGING | ERROR | STUCK.

Inductive CleaningMode : Type :=
  AUTO | SPOT | EDGE | SPIRAL | ZIGZAG | WALL_FOLLOW | RANDOM.

Record Position : Type := mk_position { x : R; y : R }.


(** [Position.to_grid]. *)
Definition to_grid (self : Position) : Cell := (int (x self), int (y self)).

(** Sensor readings; a distance of [None] is [float('inf')]. *)
Record SensorData : Type := mk_sensor_data {
  obstacle_front : bool;
  obstacle_left : bool;
  obstacle_right : bool;
  obstacle_back : bool;
  cliff_detected : bool;
  bumper_triggered : bool;
  distance_front : option R;
  distance_left : option R;
  distance_right : option R;
  distance_back : option R
}.

Definition SensorData_default : SensorData :=
  mk_sensor_data false false false false false false None None None None.

Record RobotStats : Type := mk_stats {
  total_distance : R;
  area_cleaned : Z;
  cleaning_time : R;
  battery_cycles : Z;
  errors_encountered : Z;
  stuck_count : Z
}.

Definition RobotStats_default : RobotStats := mk_stats 0 0 0 0 0 0.

(** The attributes of a [RobotVacuum]; the two map attributes, which are
    [None] throughout the sources, are left out. *)
Record RobotVacuum : Type := mk_robot {
  position : Position;
  battery_capacity : R;
  battery_level : R;
  cleaning_width : R;
  speed : R;
  sensor_range : R;
  state : RobotState;
  mode : CleaningMode;
  heading : R;
  dock_position : option Position;
  sensor_data : SensorData;
  stats : RobotStats;
  cleaned_cells : gset Cell;
  visited_cells : gset Cell;
  path_history : list Position
}.

(** [RobotVacuum.__init__]. *)
Definition init (position : Position)
           (battery_capacity cleaning_width speed sensor_range : R) : RobotVacuum :=
  mk_robot position battery_capacity battery_capacity cleaning_width speed
           sensor_range IDLE AUTO 0 None SensorData_default RobotStats_default
           ∅ ∅ [position].




(** [charge(charge_rate)]: the returned flag and the robot after the call. *)
Definition charge (self : RobotVacuum) (charge_rate : R) : bool * RobotVacuum :=
  let state := match state self with CHARGING => state self | _ => CHARGING end in
  let battery_level :=
    Rmin (battery_capacity self) (battery_level self + charge_rate) in
  let with_cycles (cycles : Z) :=
    mk_robot (position self) (battery_capacity self) battery_level
             (cleaning_width self) (speed self) (sensor_range self) state
             (mode self) (heading self) (dock_position self) (sensor_data self)
             (mk_stats (total_distance (stats self)) (area_cleaned (stats self))
                       (cleaning_time (stats self)) cycles
                       (errors_encountered (stats self)) (stuck_count (stats self)))
             (cleaned_cells self) (visited_cells self) (path_history self) in
  if Rge_dec battery_level (battery_capacity self) then
    (true, with_cycles (battery_cycles (stats self) + 1)%Z)
  else
    (false, with_cycles (battery_cycles (stats self))).



(** The default arguments of the constructor and of [charge]. *)
Definition default_robot (p : Position) : RobotVacuum := init p 100 0.3 0.2 2.
Definition default_charge_rate : R := 10.


(** *** Sensors *)

Import Numpy.

(** Assignment to the [sensor_data] attribute. *)
Definition set_sensor_data (self : RobotVacuum) (sd : SensorData) : RobotVacuum :=
  mk_robot (position self) (battery_capacity self) (battery_level self)
           (cleaning_width self) (speed self) (sensor_range self) (state self)
           (mode self) (heading self) (dock_position self) sd (stats self)
           (cleaned_cells self) (visited_cells self) (path_history self).

(** The keys of the [directions] dictionary of [update_sensors]. *)
Inductive SensorDirection : Type := Front | Back | Left | Right.

#[global] Instance SensorDirection_eq_dec : EqDecision SensorDirection.
Proof. solve_decision. Defined.

(** [setattr(sensor_data, f'obstacle_{direction}', b)]. *)
Definition set_obstacle (sd : SensorData) (d : SensorDirection) (b : bool)
  : SensorData :=
  mk_sensor_data
    (match d with Front => b | _ => obstacle_front sd end)
    (match d with Left => b | _ => obstacle_left sd end)
    (match d with Right => b | _ => obstacle_right sd end)
    (match d with Back => b | _ => obstacle_back sd end)
    (cliff_detected sd) (bumper_triggered sd)
    (distance_front sd) (distance_left sd) (distance_right sd) (distance_back sd).

(** [setattr(sensor_data, f'distance_{direction}', v)]. *)
Definition set_distance (sd : SensorData) (d : SensorDirection) (v : option R)
  : SensorData :=
  mk_sensor_data
    (obstacle_front sd) (obstacle_left sd) (obstacle_right sd) (obstacle_back sd)
    (cliff_detected sd) (bumper_triggered sd)
    (match d with Front => v | _ => distance_front sd end)
    (match d with Left => v | _ => distance_left sd end)
    (match d with Right => v | _ => distance_right sd end)
    (match d with Back => v | _ => distance_back sd end).

(** [sensor_data.cliff_detected = True]. *)
Definition set_cliff_detected (sd : SensorData) : SensorData :=
  mk_sensor_data
    (obstacle_front sd) (obstacle_left sd) (obstacle_right sd) (obstacle_back sd)
    true (bumper_triggered sd)
    (distance_front sd) (distance_left sd) (distance_right sd) (distance_back sd).

(** The [while] loop of [_calculate_distance_to_obstacle]. *)
Fixpoint distance_loop (fuel : nat) (environment : ndarray Z) (sensor_range : R)
         (x y dx dy : Z) (distance : R) : outcome R :=
  match fuel with
  | O => OutOfFuel
  | S fuel' =>
      if Rlt_dec distance sensor_range then
        let x := (x + dx)%Z in
        let y := (y + dy)%Z in
        let distance := distance + 1 in
        if negb (in_range x (ncols environment) && in_range y (nrows environment))
        then Returns distance
        else if (at2 environment y x =? 1)%Z || (at2 environment y x =? 2)%Z
        then Returns distance
        else distance_loop fuel' environment sensor_range x y dx dy distance
      else Returns sensor_range
  end.

(** [_calculate_distance_to_obstacle(environment, x, y, dx, dy)]. *)
Definition _calculate_distance_to_obstacle (fuel : nat) (self : RobotVacuum)
           (environment : ndarray Z) (x y dx dy : Z) : outcome R :=
  distance_loop fuel environment (sensor_range self) x y dx dy 0.

(** The [directions] dictionary, in insertion order. *)
Definition directions : list (SensorDirection * (Z * Z)) :=
  [(Front, (0, -1)); (Back, (0, 1)); (Left, (-1, 0)); (Right, (1, 0))]%Z.

(** The [for] loop of [update_sensors] over the given directions. *)
Fixpoint sense (fuel : nat) (self : RobotVacuum) (environment : ndarray Z)
         (x y : Z) (dirs : list (SensorDirection * (Z * Z))) (sd : SensorData)
  : outcome SensorData :=
  match dirs with
  | [] => Returns sd
  | (direction, (dx, dy)) :: rest =>
      let check_x := (x + dx)%Z in
      let check_y := (y + dy)%Z in
      if in_range check_x (ncols environment) && in_range check_y (nrows environment)
      then
        let cell_value := at2 environment check_y check_x in
        if (cell_value =? 1)%Z then
          sense fuel self environment x y rest
                (set_distance (set_obstacle sd direction true) direction (Some 1))
        else if (cell_value =? 2)%Z then
          sense fuel self environment x y rest (set_cliff_detected sd)
        else
          match _calculate_distance_to_obstacle fuel self environment x y dx dy with
          | Returns distance =>
              sense fuel self environment x y rest
                    (set_distance sd direction (Some distance))
          | Raises e => Raises e
          | OutOfFuel => OutOfFuel
          end
      else
        sense fuel self environment x y rest
              (set_distance (set_obstacle sd direction true) direction (Some 0))
  end.

(** [update_sensors(environment)]: the returned readings and the robot after
    the call. *)
Definition update_sensors (fuel : nat) (self : RobotVacuum) (environment : ndarray Z)
  : outcome (SensorData * RobotVacuum) :=
  let '(x, y) := to_grid (position self) in
  match sense fuel self environment x y directions SensorData_default with
  | Returns sd => Returns (sd, set_sensor_data self sd)
  | Raises e => Raises e
  | OutOfFuel => OutOfFuel
  end.


(** The cell [k] steps from [(x, y)] in direction [(dx, dy)] stops a ray: it
    is off the map, an obstacle or a cliff. *)
Definition blocked (environment : ndarray Z) (x y dx dy k : Z) : bool :=
  let cx := (x + k * dx)%Z in
  let cy := (y + k * dy)%Z in
  negb (in_range cx (ncols environment) && in_range cy (nrows environment))
  || (at2 environment cy cx =? 1)%Z || (at2 environment cy cx =? 2)%Z.

(** [getattr(sensor_data, f'obstacle_{direction}')]. *)
Definition obstacle_of (sd : SensorData) (d : SensorDirection) : bool :=
  match d with
  | Front => obstacle_front sd
  | Back => obstacle_back sd
  | Left => obstacle_left sd
  | Right => obstacle_right sd
  end.

(** [getattr(sensor_data, f'distance_{direction}')]. *)
Definition distance_of (sd : SensorData) (d : SensorDirection) : option R :=
  match d with
  | Front => distance_front sd
  | Back => distance_back sd
  | Left => distance_left sd
  | Right => distance_right sd
  end.

(** The neighbour in direction [(dx, dy)] is on the map and is a cliff. *)
Definition cliff_at (environment : ndarray Z) (x y : Z) (off : Z * Z) : bool :=
  let cx := (x + fst off)%Z in
  let cy := (y + snd off)%Z in
  in_range cx (ncols environment) && in_range cy (nrows environment)
  && (at2 environment cy cx =? 2)%Z.

(** What the readings [sd] say about direction [d], whose neighbour is at
    offset [(dx, dy)]. *)
Definition reading (fuel : nat) (self : RobotVacuum) (environment : ndarray Z)
           (x y : Z) (d : SensorDirection) (dx dy : Z) (sd : SensorData) : Prop :=
  let cx := (x + dx)%Z in
  let cy := (y + dy)%Z in
  if in_range cx (ncols environment) && in_range cy (nrows environment) then
    if (at2 environment cy cx =? 1)%Z then
      obstacle_of sd d = true /\ distance_of sd d = Some 1
    else if (at2 environment cy cx =? 2)%Z then
      obstacle_of sd d = false /\ distance_of sd d = None
    else
      obstacle_of sd d = false /\
      exists dist,
        _calculate_distance_to_obstacle (S fuel) self environment x y dx dy
        = Returns dist /\
        distance_of sd d = Some dist /\ (dist = sensor_range self \/ 2 <= dist)
  else
    obstacle_of sd d = true /\ distance_of sd d = Some 0.

End Robot.

(** ** np.random *)

Module Random.
Local Open Scope R_scope.

(** The generator: an endless stream of raw samples and the position of the
    next one to be read. *)
Record RandomState : Type := mk_random { samples : nat -> R; cursor : nat }.

(** Computations that draw from the generator. *)
Definition M (A : Type) : Type := RandomState -> A * RandomState.

Definition ret {A} (a : A) : M A := fun g => (a, g).

Definition bind {A B} (m : M A) (k : A -> M B) : M B :=
  fun g => let '(a, g') := m g in k a g'.

Definition draw : M R :=
  fun g => (samples g (cursor g), mk_random (samples g) (S (cursor g))).

(** [np.random.uniform(low, high)], scaling a raw sample of [0, 1). *)
Definition uniform (low high : R) : M R :=
  bind draw (fun u => ret (low + (high - low) * u)).

(** [np.random.normal(loc, scale)], scaling a raw standard normal sample. *)
Definition normal (loc scale : R) : M R :=
  bind draw (fun z => ret (loc + scale * z)).

(** A [for] loop that rebuilds a list element by element. *)
Fixpoint for_each {A B} (f : A -> M B) (l : list A) : M (list B) :=
  match l with
  | [] => ret []
  | a :: l' => bind (f a) (fun b => bind (for_each f l') (fun bs => ret (b :: bs)))
  end.

(** [np.random.randint(high)], scaling a raw sample of [0, 1). *)
Definition randint (high : Z) : M Z :=
  bind draw (fun u => ret (Python.floor (IZR high * u))).

(** Every raw sample of the generator lies in [0, 1). *)
Definition fair (g : RandomState) : Prop := forall k, 0 <= samples g k < 1.

End Random.

(** ** slam.py *)

Module OccupancyGrid.
Import Numpy.
Local Open Scope R_scope.

Record OccupancyGrid : Type := mk_grid {
  width : Z;
  height : Z;
  resolution : R;
  grid : ndarray R;
  observed : ndarray bool;
  log_odds_occupied : R;
  log_odds_free : R;
  log_odds_max : R;
  log_odds_min : R
}.

(** [OccupancyGrid.__init__]. *)
Definition init (width height : Z) (resolution : R) : OccupancyGrid :=
  mk_grid width height resolution (full height width 0) (full height width false)
          (ln (0.7 / 0.3)) (ln (0.3 / 0.7)) 3.5 (-3.5).

(** [update_cell(x, y, is_occupied)]. *)
Definition update_cell (self : OccupancyGrid) (x y : Z) (is_occupied : bool)
  : OccupancyGrid :=
  if negb (in_range x (width self) && in_range y (height self)) then self
  else
    let v := if is_occupied
             then Rmin (at2 (grid self) y x + log_odds_occupied self) (log_odds_max self)
             else Rmax (at2 (grid self) y x + log_odds_free self) (log_odds_min self) in
    mk_grid (width self) (height self) (resolution self)
            (set2 (grid self) y x v) (set2 (observed self) y x true)
            (log_odds_occupied self) (log_odds_free self)
            (log_odds_max self) (log_odds_min self).

(** [get_probability(x, y)]. *)
Definition get_probability (self : OccupancyGrid) (x y : Z) : R :=
  if negb (in_range x (width self) && in_range y (height self)) then 0.5
  else if negb (at2 (observed self) y x) then 0.5
  else let odds := exp (at2 (grid self) y x) in odds / (1 + odds).

(** [is_occupied(x, y, threshold)]. *)
Definition is_occupied (self : OccupancyGrid) (x y : Z) (threshold : R) : bool :=
  if Rgt_dec (get_probability self x y) threshold then true else false.

(** The [while True] loop of [bresenham_line], with at most [fuel] passes. *)
Fixpoint bresenham_loop (fuel : nat) (x1 y1 dx dy sx sy : Z) (x y err : Z)
         (cells : list Cell) : Python.outcome (list Cell) :=
  match fuel with
  | O => Python.OutOfFuel
  | S fuel' =>
      let cells := cells ++ [(x, y)] in
      if ((x =? x1) && (y =? y1))%Z then Python.Returns cells
      else
        let e2 := (2 * err)%Z in
        let '(err, x) := if (e2 >? - dy)%Z then (err - dy, x + sx)%Z else (err, x) in
        let '(err, y) := if (e2 <? dx)%Z then (err + dx, y + sy)%Z else (err, y) in
        bresenham_loop fuel' x1 y1 dx dy sx sy x y err cells
  end.

(** [bresenham_line(x0, y0, x1, y1)]. *)
Definition bresenham_line (fuel : nat) (x0 y0 x1 y1 : Z)
  : Python.outcome (list Cell) :=
  let dx := Z.abs (x1 - x0) in
  let dy := Z.abs (y1 - y0) in
  let sx := if (x0 <? x1)%Z then 1%Z else (-1)%Z in
  let sy := if (y0 <? y1)%Z then 1%Z else (-1)%Z in
  let err := (dx - dy)%Z in
  bresenham_loop fuel x1 y1 dx dy sx sy x0 y0 err [].

(** One pass of the loop of [update_from_scan]: the ray to one scan point. *)
Definition scan_point (fuel : nat) (self : OccupancyGrid) (robot_x robot_y : Z)
           (point : Cell) : Python.outcome OccupancyGrid :=
  let '(point_x, point_y) := point in
  match bresenham_line fuel robot_x robot_y point_x point_y with
  | Python.Returns ray =>
      let self :=
        fold_left (fun self '(x, y) => update_cell self x y false)
                  (removelast ray) self in
      Python.Returns (update_cell self point_x point_y true)
  | Python.Raises e => Python.Raises e
  | Python.OutOfFuel => Python.OutOfFuel
  end.

(** [update_from_scan(robot_x, robot_y, scan_points)]. *)
Fixpoint update_from_scan (fuel : nat) (self : OccupancyGrid) (robot_x robot_y : Z)
         (scan_points : list Cell) : Python.outcome OccupancyGrid :=
  match scan_points with
  | [] => Python.Returns self
  | point :: rest =>
      match scan_point fuel self robot_x robot_y point with
      | Python.Returns self => update_from_scan fuel self robot_x robot_y rest
      | Python.Raises e => Python.Raises e
      | Python.OutOfFuel => Python.OutOfFuel
      end
  end.

(** The grids that calls of [update_cell] produce from a new grid. *)
Inductive mapped (w h : Z) (res : R) : OccupancyGrid -> Prop :=
| mapped_init : mapped w h res (init w h res)
| mapped_update g x y is_occupied :
    mapped w h res g -> mapped w h res (update_cell g x y is_occupied).

(** What every grid of a run satisfies. *)
Record bounded (w h : Z) (g : OccupancyGrid) : Prop := mk_bounded {
  bd_width : width g = w;
  bd_height : height g = h;
  bd_occupied : log_odds_occupied g = ln (0.7 / 0.3);
  bd_free : log_odds_free g = ln (0.3 / 0.7);
  bd_max : log_odds_max g = 3.5;
  bd_min : log_odds_min g = -3.5;
  bd_grid : forall x y, -3.5 <= at2 (grid g) y x <= 3.5;
  bd_unobserved : forall x y, at2 (observed g) y x = false -> at2 (grid g) y x = 0
}.

End OccupancyGrid.

(** The quantities of [bresenham_line] as functions of its arguments. *)
Module Bresenham.

(** Neighbouring entries of the list are a king's move apart. *)
Fixpoint king_steps (l : list Cell) : Prop :=
  match l with
  | p :: (q :: _) as rest =>
      Z.max (Z.abs (fst q - fst p)) (Z.abs (snd q - snd p)) = 1 /\ king_steps rest
  | _ => True
  end.

Definition dx (x0 x1 : Z) : Z := Z.abs (x1 - x0).
Definition dy (y0 y1 : Z) : Z := Z.abs (y1 - y0).
Definition sx (x0 x1 : Z) : Z := if x0 <? x1 then 1 else -1.
Definition sy (y0 y1 : Z) : Z := if y0 <? y1 then 1 else -1.

(** The error term after [a] steps along x and [b] steps along y. *)
Definition err_at (x0 y0 x1 y1 a b : Z) : Z :=
  dx x0 x1 - dy y0 y1 + b * dx x0 x1 - a * dy y0 y1.

(** The passes left when [a] and [b] steps have been taken. *)
Definition passes_left (x0 y0 x1 y1 a b : Z) : Z :=
  if dy y0 y1 <=? dx x0 x1 then dx x0 x1 - a else dy y0 y1 - b.

(** The loop invariant: the steps taken stay within the line's extent, and
    twice the cross product of the position with the line's direction stays
    within the longer extent. *)
Definition on_line (x0 y0 x1 y1 a b : Z) : Prop :=
  let dx := dx x0 x1 in
  let dy := dy y0 y1 in
  0 <= a <= dx /\ 0 <= b <= dy /\
  ((dy < dx /\ - dx <= 2 * (b * dx - a * dy) < dx) \/
   (dx = dy /\ b * dx - a * dy = 0) \/
   (dx < dy /\ - dy < 2 * (b * dx - a * dy) <= dy)).

End Bresenham.

Module ParticleFilter.
Import Python Numpy Random.
Local Open Scope R_scope.

Record Particle : Type := mk_particle { x : R; y : R; theta : R; weight : R }.

Record ParticleFilter : Type := mk_filter {
  num_particles : Z;
  width : Z;
  height : Z;
  particles : list Particle
}.

(** [ParticleFilter.__init__(num_particles, width, height)]. *)
Definition init (num_particles width height : Z) : M ParticleFilter :=
  bind (for_each (fun _ : Z =>
                    bind (uniform 0 (IZR width)) (fun x =>
                    bind (uniform 0 (IZR height)) (fun y =>
                    bind (uniform 0 (2 * PI)) (fun theta =>
                    ret (mk_particle x y theta (1 / IZR num_particles))))))
                 (range num_particles))
       (fun particles => ret (mk_filter num_particles width height particles)).

(** [np.clip(v, lo, hi)]. *)
Definition clip (v lo hi : R) : R := Rmin hi (Rmax v lo).

(** [predict(delta_x, delta_y, delta_theta, noise)]. *)
Definition predict (self : ParticleFilter) (delta_x delta_y delta_theta noise : R)
  : M ParticleFilter :=
  bind (for_each (fun particle =>
                    bind (normal 0 noise) (fun nx =>
                    bind (normal 0 noise) (fun ny =>
                    bind (normal 0 (noise * 0.1)) (fun nt =>
                    let x := x particle + (delta_x + nx) in
                    let y := y particle + (delta_y + ny) in
                    let theta := theta particle + (delta_theta + nt) in
                    let theta := fmod theta (2 * PI) in
                    let x := clip x 0 (IZR (width self - 1)) in
                    let y := clip y 0 (IZR (height self - 1)) in
                    ret (mk_particle x y theta (weight particle))))))
                 (particles self))
       (fun particles =>
          ret (mk_filter (num_particles self) (width self) (height self) particles)).

(** The inner loop of [update]: the likelihood of the measurement for one
    particle. *)
Definition likelihood (self : ParticleFilter) (measurement : list Cell)
           (occupancy_grid : OccupancyGrid.OccupancyGrid) (particle : Particle) : R :=
  fold_left (fun likelihood '(obs_x, obs_y) =>
               let map_x := int (x particle + (IZR obs_x - x particle)) in
               let map_y := int (y particle + (IZR obs_y - y particle)) in
               if in_range map_x (width self) && in_range map_y (height self)
               then likelihood
                    + OccupancyGrid.get_probability occupancy_grid map_x map_y
               else likelihood)
            measurement 0.

(** [sum(p.weight for p in particles)]. *)
Definition sum_weights (particles : list Particle) : R :=
  fold_left (fun acc p => acc + weight p) particles 0.

Definition with_weight (p : Particle) (w : R) : Particle :=
  mk_particle (x p) (y p) (theta p) w.

(** [update(measurement, occupancy_grid)]. *)
Definition update (self : ParticleFilter) (measurement : list Cell)
           (occupancy_grid : OccupancyGrid.OccupancyGrid) : ParticleFilter :=
  match measurement with
  | [] => self
  | _ :: _ =>
      let particles :=
        map (fun particle =>
               with_weight particle
                 (likelihood self measurement occupancy_grid particle + 1e-10))
            (particles self) in
      let total_weight := sum_weights particles in
      let particles :=
        if Rgt_dec total_weight 0
        then map (fun particle =>
                    with_weight particle (weight particle / total_weight))
                 particles
        else particles in
      mk_filter (num_particles self) (width self) (height self) particles
  end.

(** The [while u > c] loop of [resample], with at most [fuel] tests of its
    condition. *)
Fixpoint advance (fuel : nat) (particles : list Particle) (u c : R) (i : nat)
  : outcome (R * nat) :=
  match fuel with
  | O => OutOfFuel
  | S fuel' =>
      if Rgt_dec u c then
        let i := (i + 1)%nat in
        let i := if (length particles <=? i)%nat then 0%nat else i in
        match particles !! i with
        | None => Raises IndexError
        | Some p => advance fuel' particles u (c + weight p) i
        end
      else Returns (c, i)
  end.

(** The [for m in range(num_particles)] loop of [resample]. *)
Fixpoint resample_loop (fuel : nat) (self : ParticleFilter) (r : R) (ms : list Z)
         (c : R) (i : nat) (new_particles : list Particle)
  : M (outcome (list Particle)) :=
  match ms with
  | [] => ret (Returns new_particles)
  | m :: ms' =>
      let u := r + IZR m * (1 / IZR (num_particles self)) in
      match advance fuel (particles self) u c i with
      | Returns (c, i) =>
          match particles self !! i with
          | None => ret (Raises IndexError)
          | Some p =>
              bind (normal 0 0.1) (fun nx =>
              bind (normal 0 0.1) (fun ny =>
              bind (normal 0 0.01) (fun nt =>
              let new_particle :=
                mk_particle (x p + nx) (y p + ny) (theta p + nt)
                            (1 / IZR (num_particles self)) in
              resample_loop fuel self r ms' c i (new_particles ++ [new_particle]))))
          end
      | Raises e => ret (Raises e)
      | OutOfFuel => ret OutOfFuel
      end
  end.

(** [resample()]. *)
Definition resample (fuel : nat) (self : ParticleFilter)
  : M (outcome ParticleFilter) :=
  if (num_particles self =? 0)%Z then ret (Raises ZeroDivisionError)
  else
    bind (uniform 0 (1 / IZR (num_particles self))) (fun r =>
    match particles self !! 0%nat with
    | None => ret (Raises IndexError)
    | Some p0 =>
        bind (resample_loop fuel self r (range (num_particles self)) (weight p0) 0 [])
             (fun res =>
                match res with
                | Returns new_particles =>
                    ret (Returns (mk_filter (num_particles self) (width self)
                                            (height self) new_particles))
                | Raises e => ret (Raises e)
                | OutOfFuel => ret OutOfFuel
                end)
    end).

(** What every filter of a run satisfies: the recorded count, that many
    particles, all of positive weight. *)
Definition well_formed (n : Z) (pf : ParticleFilter) : Prop :=
  num_particles pf = n /\
  length (particles pf) = Z.to_nat n /\
  Forall (fun p => 0 < weight p) (particles pf).

(** The filters of a run: built by the constructor for [n] particles and then
    taken through any sequence of [predict], [update] and [resample] calls
    that return. *)
Inductive in_run (n : Z) : ParticleFilter -> Prop :=
| run_init w h g : in_run n (fst (init n w h g))
| run_predict pf dx dy dt noise g :
    in_run n pf -> in_run n (fst (predict pf dx dy dt noise g))
| run_update pf measurement occupancy_grid :
    in_run n pf -> in_run n (update pf measurement occupancy_grid)
| run_resample pf fuel g pf' :
    in_run n pf -> fst (resample fuel pf g) = Returns pf' -> in_run n pf'.


End ParticleFilter.

(** ** environment.py: placing the dock *)

Module EnvironmentGenerator.
Import Python Numpy Random Environment.

(** [a[y, x] = v] with numpy's index rules: a negative index counts from the
    end, an index outside the axis raises. *)
Definition setitem {A} (a : ndarray A) (y x : Z) (v : A) : outcome (ndarray A) :=
  let y' := norm_index (nrows a) y in
  let x' := norm_index (ncols a) x in
  if in_range y' (nrows a) && in_range x' (ncols a)
  then Returns (set2 a y' x' v) else Raises IndexError.

(** [l[i]] on a Python list. *)
Definition getitem {A} (l : list A) (i : Z) : option A :=
  let i' := norm_index (Z.of_nat (length l)) i in
  if in_range i' (Z.of_nat (length l)) then l !! Z.to_nat i' else None.

(** [range(a, b)]. *)
Definition range_from (a b : Z) : list Z := map (fun k => a + k) (range (b - a)).

(** The free cells next to a wall, two cells or more away from the border,
    in the order in which [add_dock] collects them. *)
Definition valid_positions (env : ndarray Z) : list Cell :=
  flat_map
    (fun y =>
       flat_map
         (fun x =>
            if at2 env y x =? value FREE then
              if (at2 env (y - 1) x =? value OBSTACLE)
                 || (at2 env (y + 1) x =? value OBSTACLE)
                 || (at2 env y (x - 1) =? value OBSTACLE)
                 || (at2 env y (x + 1) =? value OBSTACLE)
              then [(x, y)] else []
            else [])
         (range_from 2 (ncols env - 2)))
    (range_from 2 (nrows env - 2)).

(** [add_dock(env, position)]. *)
Definition add_dock (env : ndarray Z) (position : option Cell)
  : M (outcome (ndarray Z)) :=
  let height := nrows env in
  let width := ncols env in
  match position with
  | Some (x, y) => ret (setitem env y x (value DOCK))
  | None =>
      let valid_positions := valid_positions env in
      match valid_positions with
      | _ :: _ =>
          bind (randint (Z.of_nat (length valid_positions))) (fun i =>
          match getitem valid_positions i with
          | Some (x, y) => ret (setitem env y x (value DOCK))
          | None => ret (Raises IndexError)
          end)
      | [] =>
          let free_cells := argwhere_eq env (value FREE) in
          match free_cells with
          | _ :: _ =>
              bind (randint (Z.of_nat (length free_cells))) (fun i =>
              match getitem free_cells i with
              | Some (y, x) => ret (setitem env y x (value DOCK))
              | None => ret (Raises IndexError)
              end)
          | [] => ret (setitem env (height / 2) (width / 2) (value DOCK))
          end
      end
  end.

End EnvironmentGenerator.

(** ** simulator.py: where the robot starts *)

Module SimulationController.
Import Python Numpy Random Environment.



End SimulationController.

(** ** pathplanning.py: the random walk *)

Module RandomCoveragePlanner.
Import Python Numpy Random PathPlanner.
Local Open Scope R_scope.

(** [random.random()] and [random.choice(seq)] of Python's [random] module,
    read from the same stream of raw samples of [0, 1); the choice of an
    empty sequence, [None], stands for its [IndexError]. *)
Definition random : M R := draw.

Definition choice {A} (seq : list A) : M (option A) :=
  bind (randint (Z.of_nat (length seq))) (fun i =>
  ret (EnvironmentGenerator.getitem seq i)).

(** The local variables of [generate_random_path] that the loop updates. *)
Record Locals : Type := mk_locals {
  path : list Cell;
  x : Z;
  y : Z;
  covered : gset Cell
}.

Definition initial (start : Cell) : Locals :=
  mk_locals [start] (fst start) (snd start) {[start]}.

(** [np.sum(environment == 0) + np.sum(environment == 3)]. *)
Definition total_free_cells (environment : ndarray Z) : Z :=
  (sum_bool (eq_scalar environment 0) + sum_bool (eq_scalar environment 3))%Z.

(** [len(covered) / total_free_cells >= target_coverage]; the quotient by a
    numpy zero is infinite. *)
Definition coverage_reached (covered : gset Cell) (total_free_cells : Z)
           (target_coverage : R) : bool :=
  if (total_free_cells =? 0)%Z then true
  else if Rge_dec (IZR (Z.of_nat (size covered)) / IZR total_free_cells)
                  target_coverage
       then true else false.

(** One pass through the loop body; the flag says whether it ended in
    [break]. *)
Definition body (environment : ndarray Z) (total_free_cells : Z)
           (target_coverage : R) (s : Locals) : M (outcome (Locals * bool)) :=
  let neighbors := get_neighbors environment (x s) (y s) false in
  match neighbors with
  | [] => ret (Returns (s, true))
  | _ :: _ =>
      let uncovered :=
        List.filter (fun n => negb (bool_decide (n ∈ covered s))) neighbors in
      bind (match uncovered with
            | _ :: _ =>
                bind random (fun u =>
                if Rlt_dec u 0.7 then choice uncovered else choice neighbors)
            | [] => choice neighbors
            end) (fun next =>
      match next with
      | None => ret (Raises IndexError)
      | Some next_pos =>
          let covered := {[next_pos]} ∪ covered s in
          ret (Returns (mk_locals (path s ++ [next_pos]) (fst next_pos)
                                  (snd next_pos) covered,
                        coverage_reached covered total_free_cells target_coverage))
      end)
  end.

(** [for _ in range(n): body]. *)
Fixpoint loop (environment : ndarray Z) (total_free_cells : Z)
         (target_coverage : R) (n : nat) (s : Locals) : M (outcome Locals) :=
  match n with
  | O => ret (Returns s)
  | S n' =>
      bind (body environment total_free_cells target_coverage s) (fun r =>
      match r with
      | Returns (s', stop) =>
          if stop then ret (Returns s')
          else loop environment total_free_cells target_coverage n' s'
      | Raises e => ret (Raises e)
      | OutOfFuel => ret OutOfFuel
      end)
  end.

(** [generate_random_path(start, target_coverage, max_steps)]. *)
Definition generate_random_path (environment : ndarray Z) (start : Cell)
           (target_coverage : R) (max_steps : Z) : M (outcome (list Cell)) :=
  bind (loop environment (total_free_cells environment) target_coverage
             (Z.to_nat max_steps) (initial start)) (fun r =>
  match r with
  | Returns s => ret (Returns (path s))
  | Raises e => ret (Raises e)
  | OutOfFuel => ret OutOfFuel
  end).

(** What the loop keeps true of its local variables after [k] passes. *)
Record walking (environment : ndarray Z) (start : Cell) (k : nat) (s : Locals)
  : Prop := mk_walking {
  walk_head : head (path s) = Some start;
  walk_last : last (path s) = Some (x s, y s);
  walk_steps : AStarPlanner.legal_steps environment false (path s);
  walk_length : (length (path s) <= k + 1)%nat
}.

End RandomCoveragePlanner.

(** ** Concrete inputs used by the examples below *)

Module Examples.
Import Numpy.

(** A 4 x 3 walled room with its two free cells dirty. *)
Definition tiny_env : Environment.Environment :=
  Environment.init (Environment.create_empty_room 4 3) (1 / 10)%R.

(** A 4 x 4 walled room: the free cells are (1,1), (2,1), (1,2), (2,2). *)
Definition room4 : ndarray Z := Environment.create_empty_room 4 4.

(** The same room with cell (1,1) coded [DIRTY], a code the environment
    accepts as a valid position and the planners do not. *)
Definition room4_dirty : ndarray Z :=
  set2 room4 1 1 (Environment.value Environment.DIRTY).

(** A 10 x 10 walled room. *)
Definition room10 : ndarray Z := Environment.create_empty_room 10 10.

(** A 5 x 5 walled room cut in two by a wall along column 2. *)
Definition split_room : ndarray Z :=
  set_col (Environment.create_empty_room 5 5) 2
          (Environment.value Environment.OBSTACLE).

(** A robot with the default parameters, fully charged, at the origin. *)
Definition robot0 : Robot.RobotVacuum :=
  Robot.default_robot (Robot.mk_position 0 0).

(** A generator whose raw samples are all 1/2, and a filter of two particles
    on a 5 x 5 map built from it; an occupancy grid with one observed cell. *)
Definition constant_generator : Random.RandomState :=
  Random.mk_random (fun _ => (1 / 2)%R) 0.

Definition filter2 : ParticleFilter.ParticleFilter :=
  fst (ParticleFilter.init 2 5 5 constant_generator).

Definition grid5 : OccupancyGrid.OccupancyGrid :=
  OccupancyGrid.update_cell (OccupancyGrid.init 5 5 (5 / 100)%R) 1 1 true.

(** A 5 x 3 map with three obstacles. *)
Definition detour_room : ndarray Z :=
  of_rows 0 [[0; 0; 0; 0; 1];
             [0; 1; 0; 0; 0];
             [0; 0; 0; 1; 0]].

End Examples.

(** ** Loops over lists *)

Module ListFacts.

Lemma fold_left_append {A B} (f : A -> list B) (l : list A) (acc : list B) :
  fold_left (fun acc a => acc ++ f a) l acc = acc ++ flat_map f l.
Proof.
  revert acc. induction l as [|a l IH]; intros acc; cbn [fold_left flat_map].
  - now rewrite app_nil_r.
  - now rewrite IH, app_assoc.
Qed.

Lemma fold_left_ext {A B} (f g : A -> B -> A) (l : list B) (a : A) :
  (forall a b, f a b = g a b) -> fold_left f l a = fold_left g l a.
Proof.
  intros Hfg. revert a. induction l as [|b l IH]; intros a; cbn; [reflexivity|].
  now rewrite Hfg, IH.
Qed.

(** A loop that appends [f d] for the items [d] passing a test [c]. *)
Lemma in_fold_left_append_if {A B} (c : A -> bool) (f : A -> B) (l : list A)
      (acc : list B) (b : B) :
  In b (fold_left (fun acc d => if c d then acc ++ [f d] else acc) l acc) <->
  In b acc \/ exists d, In d l /\ c d = true /\ b = f d.
Proof.
  revert acc. induction l as [|d l IH]; intros acc; cbn [fold_left].
  - split; [now left|]. intros [H|(d & [] & _)]. exact H.
  - rewrite IH. split.
    + intros [H|(d' & Hd' & Hc & ->)].
      * destruct (c d) eqn:Hc; [|now left].
        apply in_app_iff in H. destruct H as [H|[<-|[]]]; [now left|].
        right. exists d. split; [now left|]. split; [exact Hc|reflexivity].
      * right. exists d'. split; [now right|]. split; [exact Hc|reflexivity].
    + intros [H|(d' & [<-|Hd'] & Hc & ->)].
      * left. destruct (c d); [apply in_app_iff; now left|exact H].
      * left. rewrite Hc. apply in_app_iff. right. now left.
      * right. exists d'. split; [exact Hd'|]. split; [exact Hc|reflexivity].
Qed.

Lemma NoDup_flat_map_disjoint {A B} (f : A -> list B) (l : list A) :
  List.NoDup l ->
  (forall a, In a l -> List.NoDup (f a)) ->
  (forall a b c, In a l -> In b l -> In c (f a) -> In c (f b) -> a = b) ->
  List.NoDup (flat_map f l).
Proof.
  induction 1 as [|a l Hnotin Hnd IH]; intros Heach Hdisj; cbn [flat_map].
  - constructor.
  - apply List.NoDup_app.
    + apply Heach. now left.
    + apply IH.
      * intros b Hb. apply Heach. now right.
      * intros b c d Hb Hc. apply Hdisj; now right.
    + intros c Hc Hc'. apply in_flat_map in Hc'. destruct Hc' as (b & Hb & Hcb).
      assert (a = b) by (apply (Hdisj a b c); [now left|now right|assumption..]).
      subst b. contradiction.
Qed.

End ListFacts.

(** ** Ranges and bounds tests *)

Module NumpyFacts.
Import Numpy.

Lemma in_range_iff i n : in_range i n = true <-> 0 <= i < n.
Proof. unfold in_range. rewrite andb_true_iff, Z.leb_le, Z.ltb_lt. tauto. Qed.

Lemma in_rangeZ i n : In i (range n) <-> 0 <= i < n.
Proof.
  unfold range. rewrite in_map_iff. split.
  - intros [k [<- Hk]]. apply in_seq in Hk. lia.
  - intros Hi. exists (Z.to_nat i). split; [lia|]. apply in_seq. lia.
Qed.

Lemma NoDup_range n : List.NoDup (range n).
Proof.
  unfold range. apply NoDup_map_NoDup_ForallPairs; [|apply seq_NoDup].
  intros a b _ _ Hab. lia.
Qed.

(** [range(n - 1, -1, -1)] is [range(n)] read backwards. *)
Lemma range_down_rev_nat (m : nat) :
  map (fun k => Z.of_nat m - 1 - Z.of_nat k) (seq 0 m)
  = rev (map Z.of_nat (seq 0 m)).
Proof.
  induction m as [|m IH]; [reflexivity|].
  rewrite (seq_S m 0) at 2. rewrite map_app, rev_app_distr.
  cbn [map rev app Nat.add seq]. f_equal; [lia|].
  rewrite <- IH, <- seq_shift, map_map. apply map_ext. intros k. lia.
Qed.

(** [range(n - 1, -1, -1)] is [range(n)] read backwards. *)
Lemma range_down_rev n : range_down n = rev (range n).
Proof.
  unfold range_down, range.
  destruct (Z_le_gt_dec n 0) as [Hn|Hn].
  { replace (Z.to_nat n) with 0%nat by lia. reflexivity. }
  rewrite <- range_down_rev_nat. apply map_ext. intros k. lia.
Qed.

End NumpyFacts.

(** ** Out-of-bounds access to the environment *)

Module EnvironmentFacts.
Import Numpy NumpyFacts Environment Examples.

Lemma guard_false_of_oob e x y :
  out_of_bounds e x y ->
  in_range x (width e) && in_range y (height e) = false.
Proof.
  intros Hoob. apply not_true_is_false. intros Hg.
  apply andb_true_iff in Hg. destruct Hg as [Hx Hy].
  apply in_range_iff in Hx. apply in_range_iff in Hy. apply Hoob. tauto.
Qed.

(** C9: outside [0, W) x [0, H), [get_cell_type] returns obstacle and
    [clean_cell] leaves the whole environment, the dirt map included,
    as it was. *)
Theorem out_of_bounds_access_defined (e : Environment) (x y : Z) :
  out_of_bounds e x y ->
  get_cell_type e x y = Some OBSTACLE /\
  clean_cell e x y = e /\
  dirt_map (clean_cell e x y) = dirt_map e.
Proof.
  intros Hoob. pose proof (guard_false_of_oob e x y Hoob) as Hg.
  unfold get_cell_type, clean_cell. rewrite Hg. auto.
Qed.

Lemma out_of_bounds_access_defined_witness :
  get_cell_type tiny_env (-1) 7 = Some OBSTACLE /\
  clean_cell tiny_env (-1) 7 = tiny_env /\
  dirt_map (clean_cell tiny_env (-1) 7) = dirt_map tiny_env.
Proof.
  apply (out_of_bounds_access_defined tiny_env (-1) 7).
  unfold out_of_bounds. simpl. lia.
Defined.

End EnvironmentFacts.


(** ** The heap keeps its items *)

Module HeapqFacts.
Import Heapq.

Section Items.
Context {A : Type} (lt : A -> A -> bool) (P : A -> Prop).

Lemma siftdown_loop_Forall fuel : forall heap newitem startpos pos,
  Forall P heap -> Forall P (fst (siftdown_loop lt fuel heap newitem startpos pos)).
Proof.
  induction fuel as [|fuel IH]; intros heap newitem startpos pos Hall;
    cbn [siftdown_loop]; [exact Hall|].
  destruct (startpos <? pos)%nat; [|exact Hall].
  destruct (heap !! ((pos - 1) / 2)%nat) as [par|] eqn:Hpar; [|exact Hall].
  destruct (lt newitem par); [|exact Hall].
  apply IH. apply Forall_insert; [exact Hall|].
  eapply Forall_lookup_1; eassumption.
Qed.

Lemma siftdown_loop_length fuel : forall heap newitem startpos pos,
  length (fst (siftdown_loop lt fuel heap newitem startpos pos)) = length heap.
Proof.
  induction fuel as [|fuel IH]; intros heap newitem startpos pos;
    cbn [siftdown_loop]; [reflexivity|].
  destruct (startpos <? pos)%nat; [|reflexivity].
  destruct (heap !! ((pos - 1) / 2)%nat) as [par|]; [|reflexivity].
  destruct (lt newitem par); [|reflexivity].
  now rewrite IH, length_insert.
Qed.

Lemma _siftdown_Forall heap startpos pos :
  Forall P heap -> Forall P (_siftdown lt heap startpos pos).
Proof.
  intros Hall. unfold _siftdown.
  destruct (heap !! pos) as [newitem|] eqn:Hnew; [|exact Hall].
  pose proof (siftdown_loop_Forall pos heap newitem startpos pos Hall) as H.
  destruct (siftdown_loop lt pos heap newitem startpos pos) as [heap' pos'].
  apply Forall_insert; [exact H|]. exact (Forall_lookup_1 _ _ _ _ Hall Hnew).
Qed.

Lemma _siftdown_length heap startpos pos :
  length (_siftdown lt heap startpos pos) = length heap.
Proof.
  unfold _siftdown. destruct (heap !! pos) as [newitem|]; [|reflexivity].
  pose proof (siftdown_loop_length pos heap newitem startpos pos) as H.
  destruct (siftdown_loop lt pos heap newitem startpos pos) as [heap' pos'].
  now rewrite length_insert.
Qed.

Lemma siftup_loop_Forall fuel : forall heap endpos pos,
  Forall P heap -> Forall P (fst (siftup_loop lt fuel heap endpos pos)).
Proof.
  induction fuel as [|fuel IH]; intros heap endpos pos Hall;
    cbn [siftup_loop]; [exact Hall|].
  destruct (2 * pos + 1 <? endpos)%nat; [|exact Hall].
  match goal with
  | |- context [heap !! ?c] =>
      lazymatch c with
      | (if _ then _ else _) => destruct (heap !! c) as [child|] eqn:Hchild
      end
  end; [|exact Hall].
  apply IH. apply Forall_insert; [exact Hall|].
  eapply Forall_lookup_1; eassumption.
Qed.

Lemma siftup_loop_length fuel : forall heap endpos pos,
  length (fst (siftup_loop lt fuel heap endpos pos)) = length heap.
Proof.
  induction fuel as [|fuel IH]; intros heap endpos pos;
    cbn [siftup_loop]; [reflexivity|].
  destruct (2 * pos + 1 <? endpos)%nat; [|reflexivity].
  match goal with
  | |- context [heap !! ?c] =>
      lazymatch c with
      | (if _ then _ else _) => destruct (heap !! c) as [child|]
      end
  end; [|reflexivity].
  now rewrite IH, length_insert.
Qed.

Lemma _siftup_Forall heap pos :
  Forall P heap -> Forall P (_siftup lt heap pos).
Proof.
  intros Hall. unfold _siftup.
  destruct (heap !! pos) as [newitem|] eqn:Hnew; [|exact Hall].
  pose proof (siftup_loop_Forall (length heap) heap (length heap) pos Hall) as H.
  destruct (siftup_loop lt (length heap) heap (length heap) pos) as [heap' pos'].
  apply _siftdown_Forall. apply Forall_insert; [exact H|].
  exact (Forall_lookup_1 _ _ _ _ Hall Hnew).
Qed.

Lemma _siftup_length heap pos : length (_siftup lt heap pos) = length heap.
Proof.
  unfold _siftup. destruct (heap !! pos) as [newitem|]; [|reflexivity].
  pose proof (siftup_loop_length (length heap) heap (length heap) pos) as H.
  destruct (siftup_loop lt (length heap) heap (length heap) pos) as [heap' pos'].
  now rewrite _siftdown_length, length_insert.
Qed.

Lemma heappush_Forall heap item :
  Forall P heap -> P item -> Forall P (heappush lt heap item).
Proof.
  intros Hall Hitem. unfold heappush. apply _siftdown_Forall.
  apply Forall_app. split; [exact Hall|]. constructor; [exact Hitem|constructor].
Qed.

Lemma heappush_length heap item :
  length (heappush lt heap item) = S (length heap).
Proof.
  unfold heappush. rewrite _siftdown_length, length_app. cbn. lia.
Qed.

Lemma heappop_empty : heappop lt [] = None.
Proof. reflexivity. Qed.

Lemma heappop_snoc heap lastelt :
  heappop lt (heap ++ [lastelt]) =
  match heap with
  | [] => Some (lastelt, [])
  | returnitem :: _ => Some (returnitem, _siftup lt (<[0%nat := lastelt]> heap) 0)
  end.
Proof.
  unfold heappop. rewrite map_app. cbn [map].
  rewrite last_last, removelast_last. destruct heap; reflexivity.
Qed.

Lemma heappop_None heap : heappop lt heap = None -> heap = [].
Proof.
  induction heap as [|lastelt heap _] using rev_ind; [reflexivity|].
  rewrite heappop_snoc. destruct heap; discriminate.
Qed.

Lemma heappop_Some heap item heap' :
  heappop lt heap = Some (item, heap') ->
  length heap = S (length heap') /\
  (Forall P heap -> P item /\ Forall P heap').
Proof.
  induction heap as [|lastelt heap _] using rev_ind; [discriminate|].
  rewrite heappop_snoc. destruct heap as [|returnitem rest].
  - intros [= <- <-]. split; [reflexivity|]. intros Hall.
    inversion Hall; subst. split; [assumption|constructor].
  - intros [= <- <-]. split.
    + rewrite _siftup_length. cbn. rewrite length_app. cbn. lia.
    + intros Hall. apply Forall_app in Hall. destruct Hall as [Hall Hlast].
      inversion Hall; subst. inversion Hlast; subst. split; [assumption|].
      apply _siftup_Forall. cbn. constructor; assumption.
Qed.

End Items.
End HeapqFacts.

(** ** Traversable cells and neighbours *)

Module PathPlannerFacts.
Import Numpy ListFacts NumpyFacts PathPlanner.

Lemma is_valid_position_spec environment x y :
  is_valid_position environment x y = true <->
  0 <= x < width environment /\ 0 <= y < height environment /\
  (at2 environment y x = 0 \/ at2 environment y x = 3).
Proof.
  unfold is_valid_position.
  destruct (in_range x (width environment)) eqn:Hx;
    destruct (in_range y (height environment)) eqn:Hy; cbn [andb negb].
  - apply in_range_iff in Hx. apply in_range_iff in Hy.
    rewrite orb_true_iff, !Z.eqb_eq. tauto.
  - split; [discriminate|]. intros (_ & Hy' & _).
    apply in_range_iff in Hy'. congruence.
  - split; [discriminate|]. intros (Hx' & _ & _).
    apply in_range_iff in Hx'. congruence.
  - split; [discriminate|]. intros (Hx' & _ & _).
    apply in_range_iff in Hx'. congruence.
Qed.

Lemma traversable_iff environment c :
  traversable environment c = true <-> free_or_dock environment c.
Proof. unfold traversable, free_or_dock. apply is_valid_position_spec. Qed.

Lemma not_traversable_iff environment c :
  traversable environment c = false <-> ~ free_or_dock environment c.
Proof.
  rewrite <- traversable_iff. destruct (traversable environment c); split;
    congruence.
Qed.

Lemma in_all_cells environment c :
  In c (all_cells environment) <->
  0 <= fst c < width environment /\ 0 <= snd c < height environment.
Proof.
  unfold all_cells. rewrite in_flat_map. split.
  - intros (y & Hy & Hc). apply in_map_iff in Hc. destruct Hc as (x & <- & Hx).
    apply in_rangeZ in Hx. apply in_rangeZ in Hy. cbn. lia.
  - intros [Hx Hy]. exists (snd c). split; [now apply in_rangeZ|].
    apply in_map_iff. exists (fst c). split; [now destruct c|now apply in_rangeZ].
Qed.

Lemma in_traversable_cells environment c :
  In c (traversable_cells environment) <-> traversable environment c = true.
Proof.
  unfold traversable_cells. rewrite filter_In. split; [tauto|].
  intros Hv. split; [|exact Hv]. apply in_all_cells.
  unfold traversable in Hv. apply is_valid_position_spec in Hv. tauto.
Qed.

(** What [get_neighbors] returns: traversable cells one step away along an
    axis and, with [diagonal], diagonal cells whose two flanking cells are
    traversable too. *)
Lemma in_get_neighbors environment x y diagonal q :
  In q (get_neighbors environment x y diagonal) ->
  traversable environment q = true /\
  ((exists d, In d [(0, 1); (1, 0); (0, -1); (-1, 0)] /\
              q = (x + fst d, y + snd d))
   \/
   (exists d, In d [(1, 1); (1, -1); (-1, 1); (-1, -1)] /\
              q = (x + fst d, y + snd d) /\
              is_valid_position environment (x + fst d) y = true /\
              is_valid_position environment x (y + snd d) = true)).
Proof.
  unfold get_neighbors.
  set (cardinal := fold_left _ [(0, 1); (1, 0); (0, -1); (-1, 0)] []).
  assert (Hcard : forall q, In q cardinal ->
            traversable environment q = true /\
            exists d, In d [(0, 1); (1, 0); (0, -1); (-1, 0)] /\
                      q = (x + fst d, y + snd d)).
  { intros q' Hq'. subst cardinal.
    erewrite fold_left_ext in Hq'.
    - apply (in_fold_left_append_if
               (fun d => is_valid_position environment (x + fst d) (y + snd d))
               (fun d => (x + fst d, y + snd d))) in Hq'.
      destruct Hq' as [[]|(d & Hd & Hc & ->)]. split; [exact Hc|]. now exists d.
    - intros acc [dx dy]. reflexivity. }
  destruct diagonal.
  - erewrite fold_left_ext.
    + intros Hq.
      apply (in_fold_left_append_if
               (fun d => is_valid_position environment (x + fst d) (y + snd d)
                         && (is_valid_position environment (x + fst d) y
                             && is_valid_position environment x (y + snd d)))
               (fun d => (x + fst d, y + snd d))) in Hq.
      destruct Hq as [Hq|(d & Hd & Hc & ->)].
      * destruct (Hcard q Hq) as [Hv Hd]. split; [exact Hv|now left].
      * apply andb_true_iff in Hc. destruct Hc as [Hv Hc].
        apply andb_true_iff in Hc. destruct Hc as [Hv1 Hv2].
        split; [exact Hv|]. right. exists d. tauto.
    + intros acc [dx dy]. cbn [fst snd].
      destruct (is_valid_position environment (x + dx) (y + dy)); reflexivity.
  - intros Hq. destruct (Hcard q Hq) as [Hv Hd]. split; [exact Hv|now left].
Qed.

(** A neighbour of a connected cell is connected: a diagonal step can be
    taken as two steps along the axes, through a flanking cell. *)
Lemma neighbor_connected environment a x y diagonal q :
  connected environment a (x, y) ->
  In q (get_neighbors environment x y diagonal) ->
  connected environment a q.
Proof.
  intros Hconn Hq. apply in_get_neighbors in Hq.
  destruct Hq as [Hv [(d & Hd & ->)|(d & Hd & -> & Hv1 & Hv2)]].
  - apply (connected_step environment a (x, y)); [exact Hconn| |exact Hv].
    unfold adjacent. cbn [fst snd].
    cbn in Hd. destruct Hd as [<-|[<-|[<-|[<-|[]]]]]; cbn; lia.
  - apply (connected_step environment a (x + fst d, y)).
    + apply (connected_step environment a (x, y)); [exact Hconn| |exact Hv1].
      unfold adjacent. cbn [fst snd].
      cbn in Hd. destruct Hd as [<-|[<-|[<-|[<-|[]]]]]; cbn; lia.
    + unfold adjacent. cbn [fst snd].
      cbn in Hd. destruct Hd as [<-|[<-|[<-|[<-|[]]]]]; cbn; lia.
    + exact Hv.
Qed.

End PathPlannerFacts.

(** ** The zigzag planner covers the traversable cells *)

Module ZigzagFacts.
Import Numpy ListFacts NumpyFacts PathPlanner PathPlannerFacts ZigzagCoveragePlanner
       Examples.

(** Appending inside a loop is the same as appending the filtered list. *)
Lemma sweep_row_filter environment y xs path :
  sweep_row environment y xs path =
  path ++ List.filter (traversable environment) (map (fun x => (x, y)) xs).
Proof.
  unfold sweep_row. revert path.
  induction xs as [|x xs IH]; intros path; cbn [fold_left map List.filter].
  - now rewrite app_nil_r.
  - rewrite IH. unfold traversable at 2. cbn [fst snd].
    destruct (is_valid_position environment x y); [|reflexivity].
    now rewrite <- app_assoc.
Qed.

Lemma sweep_col_filter environment x ys path :
  sweep_col environment x ys path =
  path ++ List.filter (traversable environment) (map (fun y => (x, y)) ys).
Proof.
  unfold sweep_col. revert path.
  induction ys as [|y ys IH]; intros path; cbn [fold_left map List.filter].
  - now rewrite app_nil_r.
  - rewrite IH. unfold traversable at 2. cbn [fst snd].
    destruct (is_valid_position environment x y); [|reflexivity].
    now rewrite <- app_assoc.
Qed.

(** The loops compute the order described by the specification. *)
Lemma zigzag_is_boustrophedon environment start horizontal :
  generate_zigzag_path environment start horizontal =
  boustrophedon environment horizontal.
Proof.
  unfold generate_zigzag_path, boustrophedon. destruct horizontal.
  - erewrite fold_left_ext; [rewrite fold_left_append; reflexivity|].
    intros path y. cbv beta. rewrite Zeven_mod.
    destruct (y mod 2 =? 0); rewrite sweep_row_filter; [reflexivity|].
    now rewrite range_down_rev.
  - erewrite fold_left_ext; [rewrite fold_left_append; reflexivity|].
    intros path x. cbv beta. rewrite Zeven_mod.
    destruct (x mod 2 =? 0); rewrite sweep_col_filter; [reflexivity|].
    now rewrite range_down_rev.
Qed.

Lemma in_either_order (b : bool) (l : list Z) i :
  In i (if b then l else rev l) <-> In i l.
Proof. destruct b; [tauto|]. symmetry. apply in_rev. Qed.

Lemma NoDup_either_order (b : bool) (l : list Z) :
  List.NoDup l -> List.NoDup (if b then l else rev l).
Proof. destruct b; [tauto|]. apply List.NoDup_rev. Qed.

Lemma in_boustrophedon environment horizontal x y :
  In (x, y) (boustrophedon environment horizontal) <->
  is_valid_position environment x y = true.
Proof.
  unfold boustrophedon. destruct horizontal; rewrite in_flat_map; split.
  - intros (y' & _ & Hin). apply filter_In in Hin. apply Hin.
  - intros Hv. pose proof Hv as Hb. apply is_valid_position_spec in Hb.
    exists y. split; [apply in_rangeZ; tauto|]. apply filter_In. split; [|exact Hv].
    apply in_map_iff. exists x. split; [reflexivity|].
    apply in_either_order, in_rangeZ. tauto.
  - intros (x' & _ & Hin). apply filter_In in Hin. apply Hin.
  - intros Hv. pose proof Hv as Hb. apply is_valid_position_spec in Hb.
    exists x. split; [apply in_rangeZ; tauto|]. apply filter_In. split; [|exact Hv].
    apply in_map_iff. exists y. split; [reflexivity|].
    apply in_either_order, in_rangeZ. tauto.
Qed.

Lemma NoDup_boustrophedon environment horizontal :
  List.NoDup (boustrophedon environment horizontal).
Proof.
  unfold boustrophedon. destruct horizontal.
  - apply NoDup_flat_map_disjoint.
    + apply NoDup_range.
    + intros y _. apply List.NoDup_filter. apply NoDup_map_NoDup_ForallPairs.
      * intros a b _ _ Hab. congruence.
      * apply NoDup_either_order, NoDup_range.
    + intros y1 y2 c _ _ H1 H2.
      apply filter_In in H1. apply filter_In in H2.
      destruct H1 as [H1 _]. destruct H2 as [H2 _].
      apply in_map_iff in H1. apply in_map_iff in H2.
      destruct H1 as (? & <- & _). destruct H2 as (? & H2 & _). congruence.
  - apply NoDup_flat_map_disjoint.
    + apply NoDup_range.
    + intros x _. apply List.NoDup_filter. apply NoDup_map_NoDup_ForallPairs.
      * intros a b _ _ Hab. congruence.
      * apply NoDup_either_order, NoDup_range.
    + intros x1 x2 c _ _ H1 H2.
      apply filter_In in H1. apply filter_In in H2.
      destruct H1 as [H1 _]. destruct H2 as [H2 _].
      apply in_map_iff in H1. apply in_map_iff in H2.
      destruct H1 as (? & <- & _). destruct H2 as (? & H2 & _). congruence.
Qed.

(** The cells of [create_empty_room]: walls on the border, free inside. *)
Lemma empty_room_cells w h x y :
  at2 (Environment.create_empty_room w h) y x = 0 \/
  at2 (Environment.create_empty_room w h) y x = 1.
Proof.
  unfold Environment.create_empty_room, set_row, set_col, full. cbn.
  repeat match goal with |- context [if ?b then _ else _] => destruct b end; auto.
Qed.

(** C4: whatever the start cell, the zigzag path holds exactly the
    traversable cells (in bounds, free or dock), each once, rows in
    increasing order with even rows left to right and odd rows right to left
    (columns in vertical mode); over an empty room these are exactly the
    free cells. *)
Theorem zigzag_visits_traversable_cells_once
        (environment : ndarray Z) (start : Cell) (horizontal : bool) :
  let p := generate_zigzag_path environment start horizontal in
  (forall x y, In (x, y) p <->
               0 <= x < width environment /\ 0 <= y < height environment /\
               (at2 environment y x = Environment.value Environment.FREE \/
                at2 environment y x = Environment.value Environment.DOCK)) /\
  List.NoDup p /\
  p = boustrophedon environment horizontal /\
  (forall w h x y,
      In (x, y) (generate_zigzag_path (Environment.create_empty_room w h)
                                      start horizontal) <->
      0 <= x < w /\ 0 <= y < h /\
      at2 (Environment.create_empty_room w h) y x
      = Environment.value Environment.FREE).
Proof.
  cbv zeta. rewrite zigzag_is_boustrophedon.
  split; [|split; [|split]].
  - intros x y. rewrite in_boustrophedon. apply is_valid_position_spec.
  - apply NoDup_boustrophedon.
  - reflexivity.
  - intros w h x y.
    rewrite zigzag_is_boustrophedon, in_boustrophedon, is_valid_position_spec.
    change (width (Environment.create_empty_room w h)) with w.
    change (height (Environment.create_empty_room w h)) with h.
    destruct (empty_room_cells w h x y) as [Hc|Hc]; rewrite Hc; cbn; lia.
Qed.

(** C10: the zigzag path does not depend on the start cell; it may begin
    elsewhere than at a traversable start cell, and it need not contain the
    start cell at all. *)
Theorem zigzag_ignores_start :
  (forall (environment : ndarray Z) (s1 s2 : Cell) (horizontal : bool),
      generate_zigzag_path environment s1 horizontal
      = generate_zigzag_path environment s2 horizontal) /\
  (is_valid_position room4 1 1 = true /\
   generate_zigzag_path room4 (1, 1) true = [(2, 1); (1, 1); (1, 2); (2, 2)]) /\
  (Environment.is_valid_position (Environment.init room4_dirty (1 / 10)%R) 1 1
   = Some true /\
   ~ In (1, 1) (generate_zigzag_path room4_dirty (1, 1) true)).
Proof.
  split; [reflexivity|]. split; [split; vm_compute; reflexivity|].
  split; [vm_compute; reflexivity|].
  vm_compute. intuition congruence.
Qed.

End ZigzagFacts.

(** ** The spiral planner: step pattern and termination *)

Module SpiralFacts.
Import Numpy PathPlanner SpiralCoveragePlanner Examples.

Lemma passes_S environment k s :
  passes environment (S k) s = body environment (passes environment k s).
Proof. reflexivity. Qed.

Lemma passes_shift environment k s :
  passes environment (S k) s = passes environment k (body environment s).
Proof. unfold passes. now rewrite Nat.iter_succ_r. Qed.

(** *** The loop stops at the first pass that ends beyond the radius *)

Lemma loop_spec environment start max_radius n :
  forall k s,
    let r := loop environment start max_radius n k s in
    exists j : nat,
      (j <= n)%nat /\
      iterations r = (k + j)%nat /\
      final r = passes environment j s /\
      (forall i, (1 <= i < j)%nat ->
                 beyond_radius start max_radius (passes environment i s) = false) /\
      ((exit r = Break /\ (1 <= j)%nat /\
        beyond_radius start max_radius (passes environment j s) = true)
       \/
       (exit r = RangeExhausted /\ j = n /\
        ((1 <= j)%nat ->
         beyond_radius start max_radius (passes environment j s) = false))).
Proof.
  induction n as [|n IH]; intros k s; cbn [loop].
  - exists 0%nat. cbn. split; [lia|]. split; [lia|]. split; [reflexivity|].
    split; [intros; lia|]. right. split; [reflexivity|]. split; [reflexivity|lia].
  - destruct (beyond_radius start max_radius (body environment s)) eqn:Hb.
    + exists 1%nat. cbn. split; [lia|]. split; [lia|]. split; [reflexivity|].
      split; [intros; lia|]. left. split; [reflexivity|]. split; [lia|exact Hb].
    + specialize (IH (S k) (body environment s)). cbv zeta in IH.
      destruct IH as (j & Hj & Hit & Hfin & Hbefore & Hexit).
      exists (S j). rewrite passes_shift.
      split; [lia|]. split; [lia|]. split; [exact Hfin|]. split.
      * intros i Hi. destruct i as [|[|i]]; [lia|exact Hb|].
        rewrite passes_shift. apply Hbefore. lia.
      * destruct Hexit as [(He & Hj1 & Hbj)|(He & Hjn & Hbj)].
        -- left. repeat split; [exact He|lia|exact Hbj].
        -- right. repeat split; [exact He|lia|]. intros _.
           destruct j as [|j]; [exact Hb|]. apply Hbj. lia.
Qed.

(** *** Closed form of the abstract spiral *)

Lemma on_spiral_initial start : on_spiral start 0 (initial start).
Proof. exists 0, 0. cbn. lia. Qed.

Ltac spiral_case m t :=
  exists m, t; cbn [x y dx dy steps_in_direction steps_taken direction_changes];
  split; [lia|]; split; [lia|]; split; [lia|]; split; [lia|].

Lemma on_spiral_body environment start j s :
  on_spiral start j s -> on_spiral start (j + 1) (body environment s).
Proof.
  intros (m & t & Hm & Ht & Hst & HtL & Hcases). cbv zeta in Hcases.
  unfold body.
  destruct (steps_taken s + 1 =? steps_in_direction s) eqn:Hleg;
    [apply Z.eqb_eq in Hleg|apply Z.eqb_neq in Hleg].
  - (* the leg is complete: turn *)
    destruct Hcases as [H|[H|[H|H]]];
      destruct H as (Hc & HL & Hdx & Hdy & HX & HY & Hj).
    + replace ((direction_changes s + 1) mod 2 =? 0) with false
        by (symmetry; apply Z.eqb_neq; rewrite Hc; Z.div_mod_to_equations; lia).
      spiral_case m 0. right; left. repeat split; lia.
    + replace ((direction_changes s + 1) mod 2 =? 0) with true
        by (symmetry; apply Z.eqb_eq; rewrite Hc; Z.div_mod_to_equations; lia).
      spiral_case m 0. right; right; left. repeat split; lia.
    + replace ((direction_changes s + 1) mod 2 =? 0) with false
        by (symmetry; apply Z.eqb_neq; rewrite Hc; Z.div_mod_to_equations; lia).
      spiral_case m 0. right; right; right. repeat split; lia.
    + replace ((direction_changes s + 1) mod 2 =? 0) with true
        by (symmetry; apply Z.eqb_eq; rewrite Hc; Z.div_mod_to_equations; lia).
      spiral_case (m + 1) 0. left. repeat split; lia.
  - (* still inside the leg *)
    destruct Hcases as [H|[H|[H|H]]];
      destruct H as (Hc & HL & Hdx & Hdy & HX & HY & Hj);
      spiral_case m (t + 1);
      [left|right; left|right; right; left|right; right; right];
      repeat split; lia.
Qed.

Lemma on_spiral_passes environment start (k : nat) :
  on_spiral start (Z.of_nat k) (passes environment k (initial start)).
Proof.
  induction k as [|k IH]; [apply on_spiral_initial|].
  rewrite passes_S. replace (Z.of_nat (S k)) with (Z.of_nat k + 1) by lia.
  now apply on_spiral_body.
Qed.

(** Within [max_radius * max_radius] passes the spiral stays within
    [max_radius] of the start on both axes. *)
Lemma on_spiral_within start j s max_radius :
  on_spiral start j s -> 1 <= j <= max_radius * max_radius -> 0 <= max_radius ->
  Z.abs (x s - fst start) <= max_radius /\ Z.abs (y s - snd start) <= max_radius.
Proof.
  intros (m & t & Hm & Ht & Hst & HtL & Hcases) Hj HR. cbv zeta in Hcases.
  destruct Hcases as [H|[H|[H|H]]];
    destruct H as (Hc & HL & Hdx & Hdy & HX & HY & Hjm);
    rewrite HX, HY; split; apply Z.abs_le; nia.
Qed.

Lemma never_beyond_radius environment start max_radius (k : nat) :
  0 <= max_radius -> (1 <= k)%nat -> Z.of_nat k <= max_radius * max_radius ->
  beyond_radius start max_radius (passes environment k (initial start)) = false.
Proof.
  intros HR Hk HkR.
  destruct (on_spiral_within start (Z.of_nat k) _ max_radius
              (on_spiral_passes environment start k)) as [HX HY]; [lia|lia|].
  unfold beyond_radius. apply andb_false_iff. left. rewrite Z.gtb_ltb. apply Z.ltb_ge. lia.
Qed.

(** *** The passes follow the legs of the specification *)

Lemma last_cons_shift {A} (l : list A) (q p : A) :
  List.last (q :: l) p = List.last l q.
Proof.
  revert q p. induction l as [|a l IH]; intros q p; [reflexivity|].
  change (List.last (q :: a :: l) p) with (List.last (a :: l) p).
  now rewrite !IH.
Qed.

Lemma walk_app p a b :
  walk p (a ++ b) = walk p a ++ walk (List.last (walk p a) p) b.
Proof.
  revert p. induction a as [|[mx my] a IH]; intros p; [reflexivity|].
  cbn [app walk]. rewrite IH. cbn [app]. now rewrite last_cons_shift.
Qed.

Lemma spiral_moves_S c :
  spiral_moves (S c) = spiral_moves c ++ repeat (leg_direction c) (leg_length c).
Proof.
  unfold spiral_moves. rewrite seq_S, flat_map_app. cbn [flat_map Nat.add].
  now rewrite app_nil_r.
Qed.

Lemma spiral_moves_prefix c j :
  (c <= j)%nat -> exists rest, spiral_moves j = spiral_moves c ++ rest.
Proof.
  induction 1 as [|j Hle [rest IH]].
  - exists []. now rewrite app_nil_r.
  - rewrite spiral_moves_S, IH. eexists. now rewrite <- app_assoc.
Qed.

Lemma length_spiral_moves c : (c <= length (spiral_moves c))%nat.
Proof.
  induction c as [|c IH]; [cbn; lia|].
  rewrite spiral_moves_S, length_app, repeat_length. unfold leg_length. lia.
Qed.

Lemma moves_prefix c t j :
  (t < leg_length c)%nat ->
  length (spiral_moves c ++ repeat (leg_direction c) t) = j ->
  exists rest,
    spiral_moves j = (spiral_moves c ++ repeat (leg_direction c) t) ++ rest.
Proof.
  intros Ht Hlen. rewrite length_app, repeat_length in Hlen.
  pose proof (length_spiral_moves c) as Hc.
  destruct t as [|t].
  - cbn [repeat]. rewrite app_nil_r. apply spiral_moves_prefix. lia.
  - destruct (spiral_moves_prefix (S c) j) as [rest Hrest]; [lia|].
    assert (Hsplit : repeat (leg_direction c) (leg_length c)
                     = repeat (leg_direction c) (S t)
                       ++ repeat (leg_direction c) (leg_length c - S t)).
    { rewrite <- repeat_app. f_equal. lia. }
    rewrite Hrest, spiral_moves_S, Hsplit. eexists. now rewrite <- !app_assoc.
Qed.

Lemma leg_direction_S c :
  leg_direction (S c) = (- snd (leg_direction c), fst (leg_direction c)).
Proof.
  unfold leg_direction.
  replace (S c mod 4)%nat with ((c mod 4 + 1) mod 4)%nat
    by (rewrite Nat.Div0.add_mod_idemp_l; f_equal; lia).
  pose proof (Nat.mod_upper_bound c 4 ltac:(lia)) as Hlt.
  destruct (c mod 4)%nat as [|[|[|[|k]]]]; try reflexivity. lia.
Qed.

Lemma leg_length_S c :
  Z.of_nat (leg_length (S c)) =
  if (Z.of_nat c + 1) mod 2 =? 0
  then Z.of_nat (leg_length c) + 1 else Z.of_nat (leg_length c).
Proof.
  unfold leg_length.
  rewrite !Nat2Z.inj_add, !Nat2Z.inj_div, Nat2Z.inj_succ. cbn [Z.of_nat].
  destruct (Z.eqb_spec ((Z.of_nat c + 1) mod 2) 0);
    Z.div_mod_to_equations; lia.
Qed.

Lemma follows_legs_initial start : follows_legs start (initial start) [].
Proof.
  exists 0%nat, 0%nat. cbn. destruct start. repeat split; lia.
Qed.

Lemma follows_legs_body environment start s moves :
  follows_legs start s moves ->
  follows_legs start (body environment s) (moves ++ [(dx s, dy s)]).
Proof.
  intros (c & t & Hc & Ht & HL & HtL & Hd & Hmoves & Hpos).
  assert (Hlast : (x s + dx s, y s + dy s)
                  = List.last (walk start (moves ++ [(dx s, dy s)])) start).
  { rewrite walk_app, <- Hpos. cbn [walk fst snd].
    now rewrite last_last. }
  unfold body.
  destruct (steps_taken s + 1 =? steps_in_direction s) eqn:Hleg;
    [apply Z.eqb_eq in Hleg|apply Z.eqb_neq in Hleg].
  - exists (S c), 0%nat.
    cbn [x y dx dy steps_in_direction steps_taken direction_changes].
    rewrite leg_length_S, leg_direction_S, <- Hd, Hc, HL. cbn [fst snd].
    repeat split; try lia.
    + unfold leg_length. lia.
    + cbn [repeat]. rewrite app_nil_r, spiral_moves_S, Hmoves, <- app_assoc.
      f_equal. replace (leg_length c) with (t + 1)%nat by lia.
      rewrite repeat_app. cbn [repeat]. now rewrite Hd.
    + exact Hlast.
  - exists c, (S t).
    cbn [x y dx dy steps_in_direction steps_taken direction_changes].
    repeat split; try lia; try assumption.
    rewrite Hmoves, <- app_assoc, Hd. f_equal.
    replace (S t) with (t + 1)%nat by lia. now rewrite repeat_app.
Qed.

Lemma trace_S environment k s :
  trace environment (S k) s =
  trace environment k s
  ++ [(x (passes environment (S k) s), y (passes environment (S k) s))].
Proof. unfold trace. now rewrite seq_S, map_app. Qed.

Lemma passes_follow_legs environment start (k : nat) :
  exists moves,
    length moves = k /\
    follows_legs start (passes environment k (initial start)) moves /\
    trace environment k (initial start) = walk start moves.
Proof.
  induction k as [|k (moves & Hlen & Hfl & Htrace)].
  - exists []. split; [reflexivity|]. split; [apply follows_legs_initial|reflexivity].
  - set (s := passes environment k (initial start)) in *.
    exists (moves ++ [(dx s, dy s)]).
    pose proof (follows_legs_body environment start s moves Hfl) as Hfl'.
    split; [rewrite length_app; cbn; lia|]. split; [exact Hfl'|].
    rewrite trace_S, Htrace, walk_app. f_equal. rewrite passes_S. fold s.
    destruct Hfl as (c & t & _ & _ & _ & _ & _ & _ & Hpos). rewrite <- Hpos.
    cbn [walk fst snd]. f_equal. unfold body.
    destruct (steps_taken s + 1 =? steps_in_direction s); reflexivity.
Qed.

(** The abstract positions do not depend on the grid: they are the first
    positions of the specification's spiral. *)
Lemma trace_is_spiral environment start k :
  trace environment k (initial start) = spiral_positions start k /\
  (x (passes environment k (initial start)),
   y (passes environment k (initial start)))
  = List.last (spiral_positions start k) start.
Proof.
  destruct (passes_follow_legs environment start k) as (moves & Hlen & Hfl & Htr).
  destruct Hfl as (c & t & _ & _ & _ & HtL & _ & Hmoves & Hpos).
  assert (Hfirst : firstn k (spiral_moves k) = moves).
  { subst moves. destruct (moves_prefix c t k HtL Hlen) as [rest ->].
    rewrite <- Hlen. rewrite firstn_app, Nat.sub_diag, firstn_all. cbn [firstn].
    now rewrite app_nil_r. }
  unfold spiral_positions. rewrite Hfirst. split; [exact Htr|exact Hpos].
Qed.

(** Cells that are not traversable are left out of the path while the
    abstract position advances all the same. *)
Lemma path_passes environment k s :
  path (passes environment k s) =
  path s ++ List.filter (traversable environment) (trace environment k s).
Proof.
  induction k as [|k IH]; [cbn; now rewrite app_nil_r|].
  rewrite trace_S, List.filter_app, app_assoc, <- IH, passes_S.
  set (s' := passes environment k s). cbn [List.filter]. unfold traversable.
  cbn [fst snd].
  assert (Hx : x (body environment s') = x s' + dx s')
    by (unfold body; destruct (steps_taken s' + 1 =? steps_in_direction s'); reflexivity).
  assert (Hy : y (body environment s') = y s' + dy s')
    by (unfold body; destruct (steps_taken s' + 1 =? steps_in_direction s'); reflexivity).
  rewrite Hx, Hy. unfold body.
  destruct (steps_taken s' + 1 =? steps_in_direction s');
    cbn [path]; destruct (is_valid_position environment (x s' + dx s') (y s' + dy s'));
    cbn [app]; now rewrite ?app_nil_r.
Qed.

Lemma beyond_radius_spec start max_radius s :
  beyond_radius start max_radius s = true <-> beyond start max_radius (x s, y s).
Proof.
  unfold beyond_radius, beyond. cbn [fst snd].
  rewrite andb_true_iff, !Z.gtb_ltb, !Z.ltb_lt. lia.
Qed.

Lemma beyond_radius_false start max_radius s :
  beyond_radius start max_radius s = false -> ~ beyond start max_radius (x s, y s).
Proof.
  intros Hb Hy. apply beyond_radius_spec in Hy. congruence.
Qed.

Lemma removelast_trace environment k s :
  removelast (trace environment (S k) s) = trace environment k s.
Proof. rewrite trace_S. apply removelast_last. Qed.

Lemma Forall_trace environment (P : Cell -> Prop) k s :
  (forall i, (1 <= i <= k)%nat ->
             P (x (passes environment i s), y (passes environment i s))) ->
  Forall P (trace environment k s).
Proof.
  intros HP. unfold trace. apply List.Forall_forall. intros c Hc.
  apply in_map_iff in Hc. destruct Hc as (i & <- & Hi). apply in_seq in Hi.
  apply HP. lia.
Qed.

(** The spiral loop in general: the passes follow the legs right, down,
    left, up of lengths 1, 1, 2, 2, 3, ...; cells that are not traversable
    are left out of the path while the abstract position advances; the loop
    makes at most [max_radius * max_radius] passes and leaves earlier only at
    the first pass that ends with both offsets beyond [max_radius]; for a
    radius that is not negative this never happens, so that exactly
    [max_radius * max_radius] passes are made. *)
Theorem spiral_pattern_and_termination
        (environment : ndarray Z) (start : Cell) (max_radius : option Z) :
  let R := effective_radius environment max_radius in
  let r := run_spiral environment start max_radius in
  let n := iterations r in
  let last_position := (x (final r), y (final r)) in
  generate_spiral_path environment start max_radius
  = start :: List.filter (traversable environment) (spiral_positions start n) /\
  last_position = List.last (spiral_positions start n) start /\
  (n <= Z.to_nat (R * R))%nat /\
  Forall (fun c => ~ beyond start R c) (removelast (spiral_positions start n)) /\
  (exit r = Break -> beyond start R last_position) /\
  (exit r = RangeExhausted -> n = Z.to_nat (R * R)) /\
  (0 <= R ->
   exit r = RangeExhausted /\ n = Z.to_nat (R * R) /\
   ~ beyond start R last_position).
Proof.
  cbv zeta. unfold generate_spiral_path, run_spiral.
  set (R := effective_radius environment max_radius).
  destruct (loop_spec environment start R (Z.to_nat (R * R)) 0 (initial start))
    as (j & Hj & Hit & Hfin & Hbefore & Hexit).
  cbn [Nat.add] in Hit. rewrite Hit, Hfin.
  destruct (trace_is_spiral environment start j) as [Htrace Hlast].
  split; [|split; [|split; [|split; [|split; [|split]]]]].
  - rewrite path_passes, Htrace. reflexivity.
  - exact Hlast.
  - exact Hj.
  - rewrite <- Htrace. destruct j as [|j]; [constructor|].
    rewrite removelast_trace. apply Forall_trace. intros i Hi.
    apply beyond_radius_false, Hbefore. lia.
  - intros Hbreak. destruct Hexit as [(_ & _ & Hb)|(He & _)]; [|congruence].
    now apply beyond_radius_spec.
  - intros Hex. destruct Hexit as [(He & _)|(_ & Hn & _)]; [congruence|exact Hn].
  - intros HR. destruct Hexit as [(_ & Hj1 & Hb)|(He & Hn & Hb)].
    + rewrite never_beyond_radius in Hb; [discriminate|exact HR|exact Hj1|].
      assert (0 <= R * R) by nia. lia.
    + split; [exact He|]. split; [exact Hn|].
      destruct j as [|j].
      * cbn. unfold beyond. cbn [fst snd]. lia.
      * apply beyond_radius_false, Hb. lia.
Qed.

Lemma spiral_pattern_and_termination_witness :
  exit (run_spiral room4 (1, 1) None) = RangeExhausted /\
  iterations (run_spiral room4 (1, 1) None) = 16%nat.
Proof.
  pose proof (spiral_pattern_and_termination room4 (1, 1) None) as H.
  cbv zeta in H. destruct H as (_ & _ & _ & _ & _ & _ & H).
  destruct H as (He & Hn & _); [vm_compute; discriminate|].
  split; [exact He|exact Hn].
Defined.

(** C5: the generator does not run until both offsets exceed the radius.
    On the 10 x 10 room, from (1, 1) with the default radius 10, the loop is
    left by exhaustion of its range after 100 passes at offset (-5, 5), the
    break test being false there, and the traversable cell (8, 8) is not on
    the path; with radius 2 on the 4 x 4 room it stops after four passes at
    offset (-1, 1). *)
Theorem spiral_stops_before_radius :
  (let r := run_spiral room10 (1, 1) None in
   effective_radius room10 None = 10 /\
   exit r = RangeExhausted /\
   iterations r = 100%nat /\
   (x (final r), y (final r)) = (-4, 6) /\
   ~ beyond (1, 1) 10 (x (final r), y (final r)) /\
   traversable room10 (8, 8) = true /\
   ~ In (8, 8) (generate_spiral_path room10 (1, 1) None)) /\
  (let r := run_spiral room4 (1, 1) (Some 2) in
   exit r = RangeExhausted /\
   iterations r = 4%nat /\
   (x (final r), y (final r)) = (0, 2) /\
   generate_spiral_path room4 (1, 1) (Some 2) = [(1, 1); (2, 1); (2, 2); (1, 2)] /\
   ~ beyond (1, 1) 2 (x (final r), y (final r))).
Proof.
  split; cbv zeta.
  - destruct (spiral_pattern_and_termination room10 (1, 1) None)
      as (_ & _ & _ & _ & _ & _ & Hstop).
    cbv zeta in Hstop.
    assert (HR : effective_radius room10 None = 10) by reflexivity.
    rewrite HR in Hstop. destruct Hstop as (Hexit & Hn & Hnot); [lia|].
    split; [exact HR|]. split; [exact Hexit|]. split; [exact Hn|].
    split; [vm_compute; reflexivity|]. split; [exact Hnot|].
    split; [vm_compute; reflexivity|].
    vm_compute. intuition congruence.
  - destruct (spiral_pattern_and_termination room4 (1, 1) (Some 2))
      as (_ & _ & _ & _ & _ & _ & Hstop).
    cbv zeta in Hstop. cbn [effective_radius] in Hstop.
    destruct Hstop as (Hexit & Hn & Hnot); [lia|].
    split; [exact Hexit|]. split; [exact Hn|].
    split; [vm_compute; reflexivity|]. split; [vm_compute; reflexivity|exact Hnot].
Qed.

End SpiralFacts.

(** ** The robot: motion, battery and charging *)

Module RobotFacts.
Import Python Robot Examples.
Local Open Scope R_scope.










(** *** Charging *)

Lemma charge_to_capacity r rate :
  battery_capacity r <= battery_level r + rate ->
  fst (charge r rate) = true /\
  battery_capacity (snd (charge r rate)) = battery_capacity r /\
  battery_level (snd (charge r rate)) = battery_capacity r /\
  battery_cycles (stats (snd (charge r rate))) = (battery_cycles (stats r) + 1)%Z.
Proof.
  intros Hfull. unfold charge.
  assert (Hmin : Rmin (battery_capacity r) (battery_level r + rate)
                 = battery_capacity r) by (apply Rmin_left; exact Hfull).
  rewrite Hmin.
  destruct (Rge_dec (battery_capacity r) (battery_capacity r)) as [_|Hn]; [|lra].
  cbn. repeat split.
Qed.


(** C7 (as amended): [charge] sets the battery to the smaller of the capacity
    and the level plus the rate, answers [True] exactly when the battery is
    then at capacity, leaves the robot in the charging state, and increments
    the cycle counter on every call that answers [True]. *)
Theorem charge_contract (r : RobotVacuum) (charge_rate : R) :
  let full := fst (charge r charge_rate) in
  let r' := snd (charge r charge_rate) in
  battery_level r' = Rmin (battery_capacity r) (battery_level r + charge_rate) /\
  (full = true <-> battery_level r' = battery_capacity r) /\
  state r' = CHARGING /\
  battery_cycles (stats r')
  = (battery_cycles (stats r) + (if full then 1 else 0))%Z /\
  battery_capacity r' = battery_capacity r.
Proof.
  cbv zeta. unfold charge.
  pose proof (Rmin_l (battery_capacity r) (battery_level r + charge_rate)) as Hle.
  destruct (Rge_dec (Rmin (battery_capacity r) (battery_level r + charge_rate))
                    (battery_capacity r)) as [Hge|Hlt];
    cbn [fst snd battery_level state stats battery_cycles battery_capacity].
  - split; [reflexivity|]. split; [split; [intros _; lra|reflexivity]|].
    split; [destruct (state r); reflexivity|]. split; reflexivity.
  - split; [reflexivity|]. split; [split; [discriminate|intros Heq; lra]|].
    split; [destruct (state r); reflexivity|]. split; [lia|reflexivity].
Qed.

(** C7 (as stated) fails: the default robot starts at capacity; two calls of
    [charge] in a row both answer [True] and the counter goes to 1 and then,
    the battery being at capacity already, to 2. *)
Lemma charge_counts_every_full_call :
  let r1 := snd (charge robot0 default_charge_rate) in
  let r2 := snd (charge r1 default_charge_rate) in
  battery_cycles (stats robot0) = 0%Z /\
  battery_level r1 = battery_capacity r1 /\
  battery_cycles (stats r1) = 1%Z /\
  fst (charge r1 default_charge_rate) = true /\
  battery_cycles (stats r2) = 2%Z.
Proof.
  cbv zeta. unfold default_charge_rate.
  destruct (charge_to_capacity robot0 10) as (_ & Hcap1 & Hlev1 & Hcyc1);
    [cbn; lra|].
  destruct (charge_to_capacity (snd (charge robot0 10)) 10)
    as (Hfull2 & _ & _ & Hcyc2); [rewrite Hcap1, Hlev1; lra|].
  rewrite Hcyc2, Hcyc1, Hlev1, Hcap1. cbn. repeat split. exact Hfull2.
Qed.

(** *** The battery stays within its range *)








End RobotFacts.

(** ** The particle filter: normalised weights and a constant particle count *)

Module ParticleFilterFacts.
Import Python Numpy NumpyFacts Random ParticleFilter Examples.
Local Open Scope R_scope.

(** *** Loops that draw samples keep the length of the list *)

Lemma for_each_length {A B} (f : A -> M B) (l : list A) (g : RandomState) :
  length (fst (for_each f l g)) = length l.
Proof.
  revert g. induction l as [|a l IH]; intros g; [reflexivity|].
  cbn [for_each]. unfold bind at 1. destruct (f a g) as [b g1].
  unfold bind at 1. specialize (IH g1). destruct (for_each f l g1) as [bs g2].
  cbn in *. now rewrite IH.
Qed.

Lemma for_each_Forall {A B} (P : B -> Prop) (f : A -> M B) (l : list A) :
  (forall a g, In a l -> P (fst (f a g))) ->
  forall g, Forall P (fst (for_each f l g)).
Proof.
  induction l as [|a l IH]; intros Hf g; [constructor|].
  cbn [for_each]. unfold bind at 1.
  pose proof (Hf a g (or_introl eq_refl)) as Ha. destruct (f a g) as [b g1].
  unfold bind at 1.
  assert (IH' : Forall P (fst (for_each f l g1)))
    by (apply IH; intros a' g' Hin; apply Hf; now right).
  destruct (for_each f l g1) as [bs g2]. cbn in *. now constructor.
Qed.

(** *** Sums of weights *)

Lemma sum_from acc (l : list Particle) :
  fold_left (fun acc p => acc + weight p) l acc = acc + sum_weights l.
Proof.
  unfold sum_weights. revert acc. induction l as [|p l IH]; intros acc; cbn [fold_left].
  - lra.
  - rewrite IH. rewrite (IH (0 + weight p)). lra.
Qed.

Lemma sum_weights_cons p l : sum_weights (p :: l) = weight p + sum_weights l.
Proof. unfold sum_weights at 1. cbn [fold_left]. rewrite sum_from. lra. Qed.



(** *** Likelihoods are not negative *)

Lemma get_probability_pos occupancy_grid mx my :
  0 < OccupancyGrid.get_probability occupancy_grid mx my.
Proof.
  unfold OccupancyGrid.get_probability.
  destruct (negb _); [lra|]. destruct (negb _); [lra|].
  pose proof (exp_pos (at2 (OccupancyGrid.grid occupancy_grid) my mx)).
  apply Rdiv_lt_0_compat; lra.
Qed.

Lemma likelihood_from_nonneg self occupancy_grid particle measurement acc :
  0 <= acc ->
  0 <= fold_left
         (fun likelihood '(obs_x, obs_y) =>
            let map_x := int (x particle + (IZR obs_x - x particle)) in
            let map_y := int (y particle + (IZR obs_y - y particle)) in
            if in_range map_x (width self) && in_range map_y (height self)
            then likelihood
                 + OccupancyGrid.get_probability occupancy_grid map_x map_y
            else likelihood)
         measurement acc.
Proof.
  revert acc. induction measurement as [|[ox oy] ms IH]; intros acc Hacc;
    cbn [fold_left]; [exact Hacc|].
  apply IH. cbv zeta. destruct (_ && _); [|exact Hacc].
  pose proof (get_probability_pos occupancy_grid
                (int (x particle + (IZR ox - x particle)))
                (int (y particle + (IZR oy - y particle)))).
  lra.
Qed.

Lemma likelihood_nonneg self measurement occupancy_grid particle :
  0 <= likelihood self measurement occupancy_grid particle.
Proof. apply likelihood_from_nonneg. lra. Qed.

(** *** Update *)

Lemma update_weights_pos self measurement occupancy_grid :
  Forall (fun p => 0 < weight p) (particles self) ->
  Forall (fun p => 0 < weight p) (particles (update self measurement occupancy_grid)).
Proof.
  intros Hall. unfold update. destruct measurement as [|o ms]; [exact Hall|].
  set (ps := map _ (particles self)).
  assert (Hps : Forall (fun p => 0 < weight p) ps).
  { subst ps. apply Forall_map. apply List.Forall_forall. intros p _.
    cbn [with_weight weight].
    pose proof (likelihood_nonneg self (o :: ms) occupancy_grid p). lra. }
  cbn [particles]. destruct (Rgt_dec (sum_weights ps) 0) as [Hpos|_]; [|exact Hps].
  apply Forall_map. eapply List.Forall_impl; [|exact Hps].
  intros p Hp. cbn [with_weight weight]. apply Rdiv_lt_0_compat; lra.
Qed.

Lemma update_length self measurement occupancy_grid :
  length (particles (update self measurement occupancy_grid))
  = length (particles self).
Proof.
  unfold update. destruct measurement as [|o ms]; [reflexivity|].
  cbn [particles]. destruct (Rgt_dec _ 0); now rewrite ?length_map.
Qed.


(** *** Resampling terminates and draws one particle per stride *)

Lemma weights_bounded_below (l : list Particle) :
  Forall (fun p => 0 < weight p) l ->
  exists delta, 0 < delta /\ Forall (fun p => delta <= weight p) l.
Proof.
  induction 1 as [|p l Hp _ (delta & Hd & Hall)].
  - exists 1. split; [lra|constructor].
  - exists (Rmin delta (weight p)). split.
    + unfold Rmin. destruct (Rle_dec _ _); lra.
    + constructor; [apply Rmin_r|].
      eapply List.Forall_impl; [|exact Hall]. cbv beta. intros q Hq.
      pose proof (Rmin_l delta (weight p)). lra.
Qed.

Lemma wrap_in_bounds (l : list Particle) (i : nat) :
  l <> [] ->
  ((if (length l <=? i + 1)%nat then 0 else i + 1) < length l)%nat.
Proof.
  intros Hne. assert (0 < length l)%nat by (destruct l; [congruence|cbn; lia]).
  destruct (Nat.leb_spec (length l) (i + 1)); lia.
Qed.

(** With every weight at least [delta > 0], the loop [while u > c] comes to
    an end within [n] additions when [u - c <= n * delta]. *)
Lemma advance_returns (l : list Particle) (delta : R) :
  0 < delta -> Forall (fun p => delta <= weight p) l -> l <> [] ->
  forall (n : nat) (u c : R) (i : nat),
    (i < length l)%nat -> u - c <= INR n * delta ->
    exists c' i',
      advance (S n) l u c i = Returns (c', i') /\
      (i' < length l)%nat /\ c <= c'.
Proof.
  intros Hd Hall Hne. induction n as [|n IH]; intros u c i Hi Hgap.
  - cbn [INR] in Hgap. cbn [advance].
    destruct (Rgt_dec u c) as [Hgt|_]; [lra|].
    exists c, i. split; [reflexivity|]. split; [exact Hi|lra].
  - change (advance (S (S n)) l u c i)
      with (if Rgt_dec u c then
              match l !! (if (length l <=? i + 1)%nat then 0 else i + 1)%nat with
              | None => Raises IndexError
              | Some p => advance (S n) l u (c + weight p)
                                  (if (length l <=? i + 1)%nat then 0 else i + 1)%nat
              end
            else Returns (c, i)).
    destruct (Rgt_dec u c) as [Hgt|_].
    + pose proof (wrap_in_bounds l i Hne) as Hwrap.
      destruct (lookup_lt_is_Some_2 l _ Hwrap) as [p Hp]. rewrite Hp.
      assert (Hw : delta <= weight p).
      { rewrite List.Forall_forall in Hall. apply Hall.
        apply list_elem_of_In. eapply list_elem_of_lookup_2. exact Hp. }
      rewrite S_INR in Hgap.
      destruct (IH u (c + weight p) _ Hwrap) as (c' & i' & Hadv & Hi' & Hc');
        [lra|].
      exists c', i'. split; [exact Hadv|]. split; [exact Hi'|lra].
    + exists c, i. split; [reflexivity|]. split; [exact Hi|lra].
Qed.

Lemma stride_le_one (n m : Z) :
  (0 <= m < n)%Z -> IZR m * (1 / IZR n) <= 1.
Proof.
  intros Hm. assert (Hn : 0 < IZR n) by (apply IZR_lt; lia).
  assert (Hmn : IZR m <= IZR n) by (apply IZR_le; lia).
  unfold Rdiv. rewrite Rmult_1_l.
  apply (Rmult_le_reg_r (IZR n)); [exact Hn|].
  rewrite Rmult_assoc, Rinv_l by lra. lra.
Qed.

Lemma resample_loop_returns (self : ParticleFilter) (delta r c0 : R) (n : nat) :
  0 < delta -> Forall (fun p => delta <= weight p) (particles self) ->
  particles self <> [] ->
  r + 1 - c0 <= INR n * delta ->
  forall (ms : list Z) (c : R) (i : nat) (acc : list Particle) (g : RandomState),
    Forall (fun m => IZR m * (1 / IZR (num_particles self)) <= 1) ms ->
    (i < length (particles self))%nat -> c0 <= c ->
    exists new_particles,
      fst (resample_loop (S n) self r ms c i acc g) = Returns new_particles /\
      length new_particles = (length acc + length ms)%nat /\
      (Forall (fun p => weight p = 1 / IZR (num_particles self)) acc ->
       Forall (fun p => weight p = 1 / IZR (num_particles self)) new_particles).
Proof.
  intros Hd Hall Hne Hfuel.
  induction ms as [|m ms IH]; intros c i acc g Hms Hi Hc.
  - exists acc. cbn. split; [reflexivity|]. split; [lia|tauto].
  - inversion Hms as [|m' ms' Hm Hms']; subst.
    cbn [resample_loop].
    destruct (advance_returns (particles self) delta Hd Hall Hne n
                (r + IZR m * (1 / IZR (num_particles self))) c i Hi)
      as (c' & i' & Hadv & Hi' & Hc'); [lra|].
    rewrite Hadv.
    destruct (lookup_lt_is_Some_2 (particles self) _ Hi') as [p Hp]. rewrite Hp.
    cbv beta iota zeta delta [bind normal draw ret].
    match goal with
    | |- context [resample_loop (S n) self r ms c' i' ?acc' ?g'] =>
        destruct (IH c' i' acc' g' Hms' Hi') as (l & Hl & Hlen & Hw); [lra|]
    end.
    exists l. split; [exact Hl|]. split.
    + rewrite Hlen, length_app. cbn. lia.
    + intros Hacc. apply Hw. apply Forall_app. split; [exact Hacc|].
      constructor; [reflexivity|constructor].
Qed.

(** Whatever the fuel, a resampling that returns has drawn one particle of
    weight [1 / num_particles] per stride. *)
Lemma resample_loop_inv (fuel : nat) (self : ParticleFilter) (r : R) :
  forall (ms : list Z) (c : R) (i : nat) (acc : list Particle) (g : RandomState)
         (l : list Particle),
    fst (resample_loop fuel self r ms c i acc g) = Returns l ->
    length l = (length acc + length ms)%nat /\
    (Forall (fun p => weight p = 1 / IZR (num_particles self)) acc ->
     Forall (fun p => weight p = 1 / IZR (num_particles self)) l).
Proof.
  induction ms as [|m ms IH]; intros c i acc g l Hret.
  - cbn in Hret. injection Hret as <-. cbn. split; [lia|tauto].
  - cbn [resample_loop] in Hret.
    destruct (advance fuel (particles self) _ c i) as [[c' i']|e|];
      [|discriminate Hret|discriminate Hret].
    destruct (particles self !! i') as [p|]; [|discriminate Hret].
    cbv beta iota zeta delta [bind normal draw ret] in Hret.
    apply IH in Hret. destruct Hret as [Hlen Hw]. split.
    + rewrite Hlen, length_app. cbn. lia.
    + intros Hacc. apply Hw. apply Forall_app. split; [exact Hacc|].
      constructor; [reflexivity|constructor].
Qed.

Lemma resample_inv (fuel : nat) (self self' : ParticleFilter) (g : RandomState) :
  fst (resample fuel self g) = Returns self' ->
  num_particles self' = num_particles self /\
  length (particles self') = Z.to_nat (num_particles self) /\
  Forall (fun p => weight p = 1 / IZR (num_particles self)) (particles self').
Proof.
  unfold resample. destruct (num_particles self =? 0)%Z; [discriminate|].
  cbv beta iota zeta delta [bind uniform draw ret].
  destruct (particles self !! 0%nat) as [p0|]; [|discriminate].
  match goal with
  | |- context [resample_loop fuel self ?r ?ms ?c ?i ?acc ?g'] =>
      pose proof (resample_loop_inv fuel self r ms c i acc g') as Hinv;
      destruct (resample_loop fuel self r ms c i acc g') as [[l|e|] g'']
  end; cbn [fst]; try discriminate.
  intros Hret. injection Hret as <-. cbn [num_particles particles].
  destruct (Hinv l eq_refl) as [Hlen Hw]. split; [reflexivity|]. split.
  - rewrite Hlen. unfold range. rewrite length_map, length_seq. cbn. lia.
  - apply Hw. constructor.
Qed.

Lemma resample_returns (n : Z) (self : ParticleFilter) (g : RandomState) :
  (0 < n)%Z -> well_formed n self ->
  exists fuel self', fst (resample fuel self g) = Returns self'.
Proof.
  intros Hn (Hnum & Hlen & Hpos).
  assert (Hlen0 : (0 < length (particles self))%nat) by lia.
  assert (Hne : particles self <> []).
  { intros Heq. rewrite Heq in Hlen0. cbn in Hlen0. lia. }
  destruct (weights_bounded_below _ Hpos) as (delta & Hd & Hall).
  destruct (lookup_lt_is_Some_2 (particles self) 0%nat Hlen0) as [p0 Hp0].
  set (r := 0 + (1 / IZR (num_particles self) - 0) * samples g (cursor g)).
  destruct (INR_archimed delta (r + 1 - weight p0) Hd) as [k Hk].
  assert (Hstrides : Forall (fun m => IZR m * (1 / IZR (num_particles self)) <= 1)
                            (range (num_particles self))).
  { apply List.Forall_forall. intros m Hm. apply in_rangeZ in Hm.
    apply stride_le_one. exact Hm. }
  destruct (resample_loop_returns self delta r (weight p0) k Hd Hall Hne
              ltac:(lra) (range (num_particles self)) (weight p0) 0%nat []
              (mk_random (samples g) (S (cursor g))) Hstrides Hlen0 ltac:(lra))
    as (l & Hl & _).
  exists (S k). eexists. unfold resample.
  replace (num_particles self =? 0)%Z with false
    by (symmetry; apply Z.eqb_neq; lia).
  cbv beta iota zeta delta [bind uniform draw ret]. rewrite Hp0. fold r.
  destruct (resample_loop (S k) self r (range (num_particles self))
                          (weight p0) 0 [] _) as [res g''].
  cbn [fst] in Hl. subst res. cbn [fst]. reflexivity.
Qed.

(** *** The invariant of a run *)

Lemma init_well_formed (n w h : Z) (g : RandomState) :
  (0 < n)%Z -> well_formed n (fst (init n w h g)).
Proof.
  intros Hn. unfold init. unfold bind at 1.
  pose proof (for_each_length
                (fun _ : Z =>
                   bind (uniform 0 (IZR w)) (fun x =>
                   bind (uniform 0 (IZR h)) (fun y =>
                   bind (uniform 0 (2 * PI)) (fun theta =>
                   ret (mk_particle x y theta (1 / IZR n))))))
                (range n) g) as Hlen.
  pose proof (for_each_Forall (fun p => 0 < weight p)
                (fun _ : Z =>
                   bind (uniform 0 (IZR w)) (fun x =>
                   bind (uniform 0 (IZR h)) (fun y =>
                   bind (uniform 0 (2 * PI)) (fun theta =>
                   ret (mk_particle x y theta (1 / IZR n))))))
                (range n)) as Hall.
  specialize (Hall ltac:(intros a g' _; cbn; apply Rdiv_lt_0_compat;
                         [lra|apply IZR_lt; lia]) g).
  destruct (for_each _ (range n) g) as [ps g']. cbn in *.
  split; [reflexivity|]. split; [|exact Hall].
  cbn [particles]. rewrite Hlen. unfold range.
  now rewrite length_map, length_seq.
Qed.

Lemma predict_well_formed n self dx dy dt noise g :
  well_formed n self -> well_formed n (fst (predict self dx dy dt noise g)).
Proof.
  intros (Hnum & Hlen & Hpos). unfold predict. unfold bind at 1.
  match goal with
  | |- context [for_each ?f (particles self) g] =>
      pose proof (for_each_length f (particles self) g) as Hl;
      pose proof (for_each_Forall (fun p => 0 < weight p) f (particles self)) as Hall;
      specialize (Hall ltac:(intros a g' Hin; cbn;
                             rewrite List.Forall_forall in Hpos; now apply Hpos) g);
      destruct (for_each f (particles self) g) as [ps g']
  end.
  cbn [fst ret] in *. unfold ret. cbn [fst].
  split; [exact Hnum|]. split; [cbn [particles]; now rewrite Hl|exact Hall].
Qed.

Lemma update_well_formed n self measurement occupancy_grid :
  well_formed n self -> well_formed n (update self measurement occupancy_grid).
Proof.
  intros (Hnum & Hlen & Hpos). split; [|split].
  - unfold update. destruct measurement; [exact Hnum|exact Hnum].
  - now rewrite update_length.
  - now apply update_weights_pos.
Qed.

Lemma in_run_well_formed n self :
  (0 < n)%Z -> in_run n self -> well_formed n self.
Proof.
  intros Hn. induction 1 as [w h g|pf dx dy dt noise g _ IH
                            |pf measurement occupancy_grid _ IH
                            |pf fuel g pf' _ IH Hret].
  - now apply init_well_formed.
  - now apply predict_well_formed.
  - now apply update_well_formed.
  - destruct IH as (Hnum & _ & _).
    destruct (resample_inv fuel pf pf' g Hret) as (Hn' & Hlen & Hw).
    rewrite Hnum in *. split; [exact Hn'|]. split; [exact Hlen|].
    eapply List.Forall_impl; [|exact Hw]. cbv beta. intros p ->.
    apply Rdiv_lt_0_compat; [lra|apply IZR_lt; lia].
Qed.



End ParticleFilterFacts.

(** ** A* search: the cases in which no path is returned, and the trivial path *)

Module AStarFacts.
Import Python Numpy ListFacts NumpyFacts PathPlanner PathPlannerFacts Heapq
       HeapqFacts AStarPlanner Examples.

(** *** The sum of the costs *)

Lemma total_g_insert_new (nodes : gmap Cell PathPlanNode) k n :
  nodes !! k = None -> total_g (<[k := n]> nodes) = g_cost n + total_g nodes.
Proof.
  intros Hk. unfold total_g. rewrite map_fold_insert_L; [reflexivity| |exact Hk].
  intros. lia.
Qed.

Lemma total_g_lookup (nodes : gmap Cell PathPlanNode) k n :
  nodes !! k = Some n -> total_g nodes = g_cost n + total_g (delete k nodes).
Proof.
  intros Hk. unfold total_g. rewrite (map_fold_delete_L _ _ k n nodes); [reflexivity| |exact Hk].
  intros. lia.
Qed.

Lemma total_g_insert_old (nodes : gmap Cell PathPlanNode) k n n' :
  nodes !! k = Some n ->
  total_g (<[k := n']> nodes) = total_g nodes - g_cost n + g_cost n'.
Proof.
  intros Hk. rewrite <- insert_delete_eq.
  rewrite total_g_insert_new by apply lookup_delete_eq.
  rewrite (total_g_lookup nodes k n Hk). lia.
Qed.

Lemma total_g_nonneg (nodes : gmap Cell PathPlanNode) :
  map_Forall (fun _ n => 0 <= g_cost n) nodes -> 0 <= total_g nodes.
Proof.
  induction nodes as [|k n nodes Hk IH] using map_ind.
  - intros _. unfold total_g. now rewrite map_fold_empty.
  - intros Hall. apply map_Forall_insert in Hall; [|exact Hk].
    destruct Hall as [Hn Hall]. rewrite total_g_insert_new by exact Hk.
    specialize (IH Hall). lia.
Qed.

Lemma g_of_nonneg (nodes : gmap Cell PathPlanNode) p :
  map_Forall (fun _ n => 0 <= g_cost n) nodes -> 0 <= g_of nodes p.
Proof.
  intros Hall. unfold g_of. destruct (nodes !! p) as [n|] eqn:Hp; [|lia].
  exact (map_Forall_lookup_1 _ _ _ _ Hall Hp).
Qed.

(** *** One neighbour *)

Lemma move_cost_pos (b : bool) : 0 < (if b then 1000 else 1414).
Proof. destruct b; lia. Qed.

Lemma unexplored_insert_new environment start (s : Search) k n open' closed' :
  invariant environment start s ->
  node_map s !! k = None -> traversable environment k = true ->
  (unexplored environment (mk_search open' closed' (<[k := n]> (node_map s)))
   < unexplored environment s)%nat.
Proof.
  intros Hinv Hk Hv. unfold unexplored. cbn [node_map].
  rewrite dom_insert_L.
  assert (Hnot : k ∉ dom (node_map s)) by (now apply not_elem_of_dom).
  assert (Hsub : {[k]} ∪ dom (node_map s)
                 ⊆ (list_to_set (traversable_cells environment) : gset Cell)).
  { pose proof (inv_cells _ _ _ Hinv) as Hc.
    assert (k ∈ (list_to_set (traversable_cells environment) : gset Cell)).
    { apply elem_of_list_to_set, list_elem_of_In, in_traversable_cells, Hv. }
    set_solver. }
  apply subseteq_size in Hsub.
  assert (Hsize : size ({[k]} ∪ dom (node_map s)) = S (size (dom (node_map s)))).
  { rewrite size_union by set_solver. now rewrite size_singleton. }
  rewrite Hsize in *. lia.
Qed.

Lemma visit_step environment start goal diagonal current (s : Search) nb :
  invariant environment start s ->
  current ∈ dom (node_map s) ->
  In nb (get_neighbors environment (fst current) (snd current) diagonal) ->
  invariant environment start (visit goal current s nb) /\
  dom (node_map s) ⊆ dom (node_map (visit goal current s nb)) /\
  no_worse environment s (visit goal current s nb).
Proof.
  intros Hinv Hcur Hnb.
  assert (Hstay : invariant environment start s /\
                  dom (node_map s) ⊆ dom (node_map s) /\
                  no_worse environment s s).
  { split; [exact Hinv|]. split; [reflexivity|]. right. split; lia. }
  assert (Hnbconn : connected environment start nb).
  { apply (neighbor_connected environment start (fst current) (snd current) diagonal).
    - destruct current. apply (inv_connected _ _ _ Hinv). exact Hcur.
    - exact Hnb. }
  assert (Hnbv : traversable environment nb = true)
    by (apply in_get_neighbors in Hnb; tauto).
  unfold visit. destruct (decide (nb ∈ closed_set s)) as [_|_]; [exact Hstay|].
  set (g' := g_of (node_map s) current + _).
  assert (Hg' : 0 <= g').
  { subst g'. pose proof (g_of_nonneg (node_map s) current (inv_g _ _ _ Hinv)).
    pose proof (move_cost_pos ((fst nb =? fst current) || (snd nb =? snd current))).
    lia. }
  destruct (node_map s !! nb) as [n|] eqn:Hlook.
  - destruct (Z.ltb_spec g' (g_cost n)) as [Hlt|_]; [|exact Hstay].
    assert (Hdom : forall v, dom (<[nb := v]> (node_map s)) = dom (node_map s))
      by (intros v; apply dom_insert_lookup_L; eauto).
    split; [|split].
    + constructor; cbn [open_set node_map].
      * apply heappush_Forall.
        -- eapply List.Forall_impl; [|apply (inv_open _ _ _ Hinv)].
           cbv beta. intros p Hp. now rewrite Hdom.
        -- rewrite Hdom. apply elem_of_dom. eauto.
      * rewrite Hdom. apply (inv_connected _ _ _ Hinv).
      * rewrite Hdom. apply (inv_cells _ _ _ Hinv).
      * apply map_Forall_insert_2; [exact Hg'|apply (inv_g _ _ _ Hinv)].
    + cbn [node_map]. now rewrite Hdom.
    + right. unfold unexplored, work. cbn [open_set node_map]. rewrite Hdom.
      split; [reflexivity|].
      rewrite heappush_length.
      match goal with
      | |- context [total_g (<[nb := ?v]> (node_map s))] =>
          pose proof (total_g_insert_old _ nb n v Hlook) as Htotal;
          pose proof (total_g_nonneg (<[nb := v]> (node_map s))) as Hnonneg
      end.
      cbn [g_cost] in Htotal.
      specialize (Hnonneg ltac:(apply map_Forall_insert_2;
                                [exact Hg'|apply (inv_g _ _ _ Hinv)])).
      rewrite Htotal in Hnonneg. rewrite Htotal. lia.
  - split; [|split].
    + constructor; cbn [open_set node_map].
      * apply heappush_Forall; [|rewrite dom_insert_L; set_solver].
        eapply List.Forall_impl; [|apply (inv_open _ _ _ Hinv)].
        cbv beta. intros p Hp. rewrite dom_insert_L. set_solver.
      * rewrite dom_insert_L. intros p Hp. apply elem_of_union in Hp. destruct Hp as [Hp|Hp].
        -- apply elem_of_singleton in Hp. now subst p.
        -- now apply (inv_connected _ _ _ Hinv).
      * rewrite dom_insert_L. pose proof (inv_cells _ _ _ Hinv).
        assert (nb ∈ (list_to_set (traversable_cells environment) : gset Cell)).
        { apply elem_of_list_to_set, list_elem_of_In, in_traversable_cells, Hnbv. }
        set_solver.
      * apply map_Forall_insert_2; [exact Hg'|apply (inv_g _ _ _ Hinv)].
    + cbn [node_map]. rewrite dom_insert_L. set_solver.
    + left. now apply (unexplored_insert_new environment start).
Qed.

Lemma no_worse_trans environment s1 s2 s3 :
  no_worse environment s1 s2 -> no_worse environment s2 s3 ->
  no_worse environment s1 s3.
Proof. unfold no_worse. lia. Qed.

(** *** All the neighbours of the current cell *)

Lemma visit_all environment start goal diagonal current :
  forall (nbs : list Cell) (s : Search),
    invariant environment start s ->
    current ∈ dom (node_map s) ->
    (forall nb, In nb nbs ->
                In nb (get_neighbors environment (fst current) (snd current) diagonal)) ->
    invariant environment start (fold_left (visit goal current) nbs s) /\
    no_worse environment s (fold_left (visit goal current) nbs s).
Proof.
  induction nbs as [|nb nbs IH]; intros s Hinv Hcur Hnbs; cbn [fold_left].
  - split; [exact Hinv|]. right. split; lia.
  - destruct (visit_step environment start goal diagonal current s nb Hinv Hcur)
      as (Hinv' & Hdom & Hle); [apply Hnbs; now left|].
    destruct (IH (visit goal current s nb) Hinv') as (Hinv'' & Hle').
    + set_solver.
    + intros nb' Hnb'. apply Hnbs. now right.
    + split; [exact Hinv''|]. eapply no_worse_trans; eassumption.
Qed.

(** *** One pass of the search loop *)

Lemma pass_step environment start goal diagonal (s : Search) current open_set' :
  invariant environment start s ->
  heappop (node_lt (node_map s)) (open_set s) = Some (current, open_set') ->
  let s' :=
    fold_left (visit goal current)
              (get_neighbors environment (fst current) (snd current) diagonal)
              (mk_search open_set' ({[current]} ∪ closed_set s) (node_map s)) in
  connected environment start current /\
  invariant environment start s' /\
  ((unexplored environment s' < unexplored environment s)%nat \/
   (unexplored environment s' = unexplored environment s /\
    (work s' < work s)%nat)).
Proof.
  intros Hinv Hpop.
  destruct (heappop_Some (node_lt (node_map s))
              (fun p => p ∈ dom (node_map s)) _ _ _ Hpop) as [Hlen Hitems].
  destruct (Hitems (inv_open _ _ _ Hinv)) as [Hcur Hopen'].
  set (s1 := mk_search open_set' ({[current]} ∪ closed_set s) (node_map s)).
  assert (Hinv1 : invariant environment start s1).
  { constructor; cbn [open_set node_map s1].
    - exact Hopen'.
    - apply (inv_connected _ _ _ Hinv).
    - apply (inv_cells _ _ _ Hinv).
    - apply (inv_g _ _ _ Hinv). }
  destruct (visit_all environment start goal diagonal current
              (get_neighbors environment (fst current) (snd current) diagonal)
              s1 Hinv1 Hcur ltac:(auto)) as [Hinv' Hle].
  cbv zeta. split; [apply (inv_connected _ _ _ Hinv); exact Hcur|].
  split; [exact Hinv'|].
  assert (Hu1 : unexplored environment s1 = unexplored environment s) by reflexivity.
  assert (Hw1 : (work s1 < work s)%nat).
  { unfold work. cbn [open_set node_map s1]. lia. }
  unfold no_worse in Hle. lia.
Qed.

(** *** When the goal cannot be reached *)

Section Unreachable.
Context (environment : ndarray Z) (start goal : Cell) (diagonal : bool).
Hypothesis unreachable : ~ connected environment start goal.

(** The loop comes to an end, and it ends on the empty heap. *)
Lemma search_returns_none :
  forall (a b : nat) (s : Search),
    invariant environment start s ->
    unexplored environment s = a -> work s = b ->
    exists fuel, search fuel environment goal diagonal s = Returns None.
Proof.
  induction a as [a IHa] using lt_wf_ind.
  induction b as [b IHb] using lt_wf_ind.
  intros s Hinv Ha Hb.
  destruct (heappop (node_lt (node_map s)) (open_set s))
    as [[current open_set']|] eqn:Hpop.
  - destruct (pass_step environment start goal diagonal s current open_set'
                Hinv Hpop) as (Hconn & Hinv' & Hprogress).
    cbv zeta in Hinv', Hprogress.
    assert (Hne : current <> goal) by (intros ->; contradiction).
    match type of Hinv' with
    | invariant _ _ ?s' =>
        assert (Hnext : exists fuel,
                   search fuel environment goal diagonal s' = Returns None)
    end.
    { destruct Hprogress as [Hlt|[Heq Hlt]].
      - eapply (IHa _ ltac:(rewrite <- Ha; exact Hlt)); [exact Hinv'|reflexivity..].
      - eapply (IHb _ ltac:(rewrite <- Hb; exact Hlt)); [exact Hinv'| |reflexivity].
        now rewrite Heq. }
    destruct Hnext as [fuel Hfuel]. exists (S fuel). cbn [search].
    rewrite Hpop. destruct (decide (current = goal)); [contradiction|exact Hfuel].
  - exists 1%nat. cbn [search]. now rewrite Hpop.
Qed.

(** However much fuel is granted, no path is returned. *)
Lemma search_never_finds (fuel : nat) :
  forall s : Search,
    invariant environment start s ->
    search fuel environment goal diagonal s = Returns None \/
    search fuel environment goal diagonal s = OutOfFuel.
Proof.
  induction fuel as [|fuel IH]; intros s Hinv; cbn [search]; [now right|].
  destruct (heappop (node_lt (node_map s)) (open_set s))
    as [[current open_set']|] eqn:Hpop; [|now left].
  destruct (pass_step environment start goal diagonal s current open_set'
              Hinv Hpop) as (Hconn & Hinv' & _).
  destruct (decide (current = goal)) as [->|_]; [contradiction|].
  apply IH. exact Hinv'.
Qed.

End Unreachable.

(** *** The state before the loop *)

Lemma heappush_first {A} (lt : A -> A -> bool) (item : A) :
  heappush lt [] item = [item].
Proof. reflexivity. Qed.

Lemma initial_invariant environment start goal :
  traversable environment start = true ->
  invariant environment start
    (mk_search (heappush (node_lt {[start := mk_node start 0 (heuristic start goal) None]})
                         [] start)
               ∅ {[start := mk_node start 0 (heuristic start goal) None]}).
Proof.
  intros Hv. rewrite heappush_first.
  constructor; cbn [open_set node_map]; rewrite ?dom_singleton_L.
  - constructor; [|constructor]. cbv beta. rewrite ?dom_singleton_L. set_solver.
  - intros p Hp. apply elem_of_singleton in Hp. subst p. constructor.
  - assert (start ∈ (list_to_set (traversable_cells environment) : gset Cell)).
    { apply elem_of_list_to_set, list_elem_of_In, in_traversable_cells, Hv. }
    set_solver.
  - apply map_Forall_singleton. cbn. lia.
Qed.

Lemma find_path_guard environment start goal diagonal fuel :
  traversable environment start = true -> traversable environment goal = true ->
  find_path fuel environment start goal diagonal =
  search fuel environment goal diagonal
         (mk_search (heappush (node_lt {[start := mk_node start 0 (heuristic start goal) None]})
                              [] start)
                    ∅ {[start := mk_node start 0 (heuristic start goal) None]}).
Proof.
  unfold traversable. intros Hs Hg. unfold find_path. now rewrite Hs, Hg.
Qed.

Lemma search_at_goal environment goal diagonal (s : Search) fuel open_set' :
  heappop (node_lt (node_map s)) (open_set s) = Some (goal, open_set') ->
  search (S fuel) environment goal diagonal s =
  match reconstruct fuel (node_map s) (Some goal) [] with
  | Returns path => Returns (Some (rev path))
  | Raises e => Raises e
  | OutOfFuel => OutOfFuel
  end.
Proof.
  intros Hpop. cbn [search]. rewrite Hpop.
  destruct (decide (goal = goal)); [reflexivity|congruence].
Qed.

Lemma reconstruct_end fuel nodes path :
  reconstruct fuel nodes None path = Returns path.
Proof. destruct fuel; reflexivity. Qed.

(** C3: [find_path] returns [None] when the start or the goal is not a
    traversable cell (in bounds and free or dock); it returns the path
    [[start]] when start and goal are the same traversable cell; and when no
    sequence of traversable steps connects the start to the goal the search
    ends and returns [None]. *)
Theorem find_path_none_or_trivial
        (environment : ndarray Z) (start goal : Cell) (diagonal : bool) :
  (~ free_or_dock environment start \/ ~ free_or_dock environment goal ->
   forall fuel, find_path fuel environment start goal diagonal = Returns None) /\
  (free_or_dock environment start -> start = goal ->
   forall fuel, (2 <= fuel)%nat ->
                find_path fuel environment start goal diagonal
                = Returns (Some [start])) /\
  (free_or_dock environment start -> free_or_dock environment goal ->
   ~ connected environment start goal ->
   (exists fuel, find_path fuel environment start goal diagonal = Returns None) /\
   (forall fuel, find_path fuel environment start goal diagonal = Returns None \/
                 find_path fuel environment start goal diagonal = OutOfFuel)).
Proof.
  rewrite <- !not_traversable_iff, <- !traversable_iff.
  split; [|split].
  - unfold traversable. intros Hbad fuel. unfold find_path.
    destruct Hbad as [-> | ->]; cbn [negb orb]; [reflexivity|].
    now rewrite orb_true_r.
  - intros Hs <- fuel Hfuel. rewrite find_path_guard by exact Hs.
    destruct fuel as [|[|fuel]]; [lia|lia|].
    rewrite heappush_first.
    rewrite (search_at_goal _ _ _ _ _ []) by reflexivity.
    cbn [reconstruct node_map]. rewrite lookup_singleton_eq.
    cbn [mbind option_bind parent]. now rewrite reconstruct_end.
  - intros Hs Hg Hun. split.
    + destruct (search_returns_none environment start goal diagonal Hun _ _ _
                  (initial_invariant environment start goal Hs) eq_refl eq_refl)
        as [fuel Hfuel].
      exists fuel. now rewrite find_path_guard.
    + intros fuel. rewrite find_path_guard by assumption.
      apply (search_never_finds environment start goal diagonal Hun).
      now apply initial_invariant.
Qed.

(** In the room split by a wall along column 2, what is connected to (1,1)
    stays to the left of the wall. *)
Lemma split_room_left q :
  connected split_room (1, 1) q -> fst q < 2.
Proof.
  induction 1 as [|p q _ IH Hadj Hv]; [cbn; lia|].
  unfold adjacent in Hadj.
  destruct (Z.eq_dec (fst q) 2) as [Hq|Hq]; [|lia].
  unfold traversable in Hv. apply is_valid_position_spec in Hv.
  destruct Hv as (_ & _ & Hcell). rewrite Hq in Hcell. cbn in Hcell. lia.
Qed.

Lemma find_path_none_or_trivial_witness :
  find_path 1 split_room (2, 1) (3, 3) true = Returns None /\
  find_path 2 split_room (1, 1) (1, 1) true = Returns (Some [(1, 1)]) /\
  (exists fuel, find_path fuel split_room (1, 1) (3, 3) true = Returns None).
Proof.
  split; [|split].
  - apply (proj1 (find_path_none_or_trivial split_room (2, 1) (3, 3) true)).
    left. apply not_traversable_iff. vm_compute. reflexivity.
  - apply (proj1 (proj2 (find_path_none_or_trivial split_room (1, 1) (1, 1) true))).
    + apply traversable_iff. vm_compute. reflexivity.
    + reflexivity.
    + lia.
  - apply (proj2 (proj2 (find_path_none_or_trivial split_room (1, 1) (3, 3) true))).
    + apply traversable_iff. vm_compute. reflexivity.
    + apply traversable_iff. vm_compute. reflexivity.
    + intros Hconn. apply split_room_left in Hconn. cbn in Hconn. lia.
Defined.

End AStarFacts.

(** ** The environment: dirt bookkeeping *)

Module EnvironmentExtra.
Import Numpy ListFacts NumpyFacts Environment PathPlannerFacts Examples.

Lemma in_indices {A} (a : ndarray A) y x :
  In (y, x) (indices a) <-> 0 <= y < nrows a /\ 0 <= x < ncols a.
Proof.
  unfold indices. rewrite in_flat_map. split.
  - intros (y' & Hy & Hin). apply in_map_iff in Hin.
    destruct Hin as (x' & [= <- <-] & Hx).
    apply in_rangeZ in Hx. apply in_rangeZ in Hy. lia.
  - intros [Hy Hx]. exists y. split; [now apply in_rangeZ|].
    apply in_map_iff. exists x. split; [reflexivity|now apply in_rangeZ].
Qed.

(** X1: Cleaning a cell and looking it up: the cell is clean afterwards and no
    other cell changes; outside the grid nothing is dirty. *)
Theorem clean_cell_is_dirty (e : Environment) (x y : Z) :
  (0 <= x < width e /\ 0 <= y < height e ->
   is_dirty (clean_cell e x y) x y = false) /\
  (forall x' y', (x', y') <> (x, y) ->
                 is_dirty (clean_cell e x y) x' y' = is_dirty e x' y') /\
  (forall x' y', ~ (0 <= x' < width e /\ 0 <= y' < height e) ->
                 is_dirty (clean_cell e x y) x' y' = false).
Proof.
  unfold clean_cell, is_dirty.
  destruct (in_range x (width e) && in_range y (height e)) eqn:Hin; cbn.
  - split; [|split].
    + intros _. rewrite Hin. now rewrite !Z.eqb_refl.
    + intros x' y' Hne.
      destruct (in_range x' (width e) && in_range y' (height e)); [|reflexivity].
      destruct (Z.eqb_spec y' y); destruct (Z.eqb_spec x' x); cbn;
        try reflexivity. congruence.
    + intros x' y' Hout.
      destruct (in_range x' (width e) && in_range y' (height e)) eqn:Hin';
        [|reflexivity].
      apply andb_true_iff in Hin'. rewrite !in_range_iff in Hin'. tauto.
  - split; [|split].
    + intros Hb. apply andb_false_iff in Hin.
      destruct Hin as [Hin|Hin]; apply not_true_iff_false in Hin;
        rewrite in_range_iff in Hin; lia.
    + reflexivity.
    + intros x' y' Hout.
      destruct (in_range x' (width e) && in_range y' (height e)) eqn:Hin';
        [|reflexivity].
      apply andb_true_iff in Hin'. rewrite !in_range_iff in Hin'. tauto.
Qed.

Lemma clean_cell_is_dirty_witness :
  is_dirty (clean_cell tiny_env 1 1) 1 1 = false.
Proof.
  apply (proj1 (clean_cell_is_dirty tiny_env 1 1)). cbn. lia.
Defined.

(** *** What every evolved environment keeps *)

Lemma evolved_kept env_array rate e :
  evolved env_array rate e -> kept env_array rate e.
Proof.
  induction 1 as [|e x y _ IH|e d _ IH|e _ IH].
  - constructor; cbn; try reflexivity; [tauto|].
    intros y x Hd. now apply Z.eqb_eq.
  - destruct IH. unfold clean_cell.
    destruct (in_range x (width e) && in_range y (height e));
      constructor; cbn; try assumption.
    intros y' x' Hd. destruct ((y' =? y) && (x' =? x)); [discriminate|].
    now apply kept_dirt0.
  - destruct IH. constructor; cbn; assumption.
  - destruct IH. constructor; cbn; try assumption.
    + rewrite kept_original0. tauto.
    + intros y x Hd. rewrite kept_original0 in Hd. now apply Z.eqb_eq.
Qed.

(** X2: In an evolved environment only free cells of the static map are dirty:
    walls, cliffs and the dock never are. *)
Theorem dirty_cells_are_free (env_array : ndarray Z) (rate : R)
        (e : Environment) (x y : Z) :
  evolved env_array rate e -> is_dirty e x y = true ->
  0 <= x < ncols env_array /\ 0 <= y < nrows env_array /\
  at2 env_array y x = value FREE /\
  get_cell_type e x y = Some FREE.
Proof.
  intros Hev Hd. destruct (evolved_kept _ _ _ Hev).
  unfold is_dirty in Hd. unfold get_cell_type.
  destruct (in_range x (width e) && in_range y (height e)) eqn:Hin;
    [|discriminate].
  apply andb_true_iff in Hin. rewrite !in_range_iff in Hin.
  rewrite kept_width0, kept_height0 in Hin.
  pose proof (kept_dirt0 y x Hd) as Hfree.
  rewrite kept_env0, Hfree. cbn. repeat split; lia.
Qed.

Lemma dirty_cells_are_free_witness :
  at2 (create_empty_room 4 3) 1 2 = value FREE.
Proof.
  apply (dirty_cells_are_free (create_empty_room 4 3) (1 / 10)%R
           (clean_cell tiny_env 1 1) 2 1).
  - apply evolved_clean. apply evolved_init.
  - reflexivity.
Defined.

(** X3: Resetting an evolved environment gives back the environment as it was
    constructed: all free cells dirty again, the clock at zero. *)
Theorem reset_restores_initial (env_array : ndarray Z) (rate : R) (e : Environment) :
  evolved env_array rate e -> reset e = init env_array rate.
Proof.
  intros Hev. destruct (evolved_kept _ _ _ Hev).
  unfold reset, init, _initialize_dirt. cbn.
  rewrite kept_original0, kept_height0, kept_width0, kept_rate0, kept_dock0.
  reflexivity.
Qed.

Lemma reset_restores_initial_witness :
  reset (step (clean_cell tiny_env 1 1) None) = tiny_env.
Proof.
  apply (reset_restores_initial (create_empty_room 4 3) (1 / 10)%R).
  apply evolved_step. apply evolved_clean. apply evolved_init.
Defined.

(** *** The cleaning percentage *)

Lemma filter_length_le {A} (f g : A -> bool) (l : list A) :
  (forall a, In a l -> f a = true -> g a = true) ->
  (length (List.filter f l) <= length (List.filter g l))%nat.
Proof.
  induction l as [|a l IH]; intros Hfg; cbn [List.filter]; [lia|].
  assert (IH' : (length (List.filter f l) <= length (List.filter g l))%nat)
    by (apply IH; intros b Hb; apply Hfg; now right).
  destruct (f a) eqn:Hfa.
  - rewrite (Hfg a (or_introl eq_refl) Hfa). cbn. lia.
  - destruct (g a); cbn; lia.
Qed.

Lemma sum_bool_le (a b : ndarray bool) :
  nrows a = nrows b -> ncols a = ncols b ->
  (forall y x, at2 a y x = true -> at2 b y x = true) ->
  0 <= sum_bool a <= sum_bool b.
Proof.
  intros Hr Hc Hab. unfold sum_bool, indices. rewrite Hr, Hc.
  split; [lia|]. apply Nat2Z.inj_le. apply filter_length_le.
  intros [y x] _. apply Hab.
Qed.

Lemma dirt_le_cleanable env_array rate e :
  evolved env_array rate e ->
  0 <= sum_bool (dirt_map e) <= sum_bool (eq_scalar (original_env e) (value FREE)).
Proof.
  intros Hev. destruct (evolved_kept _ _ _ Hev). rewrite kept_original0.
  apply sum_bool_le; cbn; try tauto.
  intros y x Hd. apply Z.eqb_eq. now apply kept_dirt0.
Qed.

Lemma clean_cell_dirt_le e x y :
  0 <= sum_bool (dirt_map (clean_cell e x y)) <= sum_bool (dirt_map e).
Proof.
  unfold clean_cell. destruct (in_range x (width e) && in_range y (height e)).
  - apply sum_bool_le; cbn; try reflexivity.
    intros y' x'. destruct ((y' =? y) && (x' =? x)); [discriminate|tauto].
  - unfold sum_bool. lia.
Qed.

(** X4: In an evolved environment the cleaning percentage lies between 0 and
    100, is 100 when the map has no free cell, and cleaning a cell never
    lowers it. *)
Theorem cleaning_percentage_bounds (env_array : ndarray Z) (rate : R)
        (e : Environment) :
  evolved env_array rate e ->
  (0 <= get_cleaning_percentage e <= 100)%R /\
  (sum_bool (eq_scalar env_array (value FREE)) = 0 ->
   get_cleaning_percentage e = 100%R) /\
  (forall x y,
      (get_cleaning_percentage e <= get_cleaning_percentage (clean_cell e x y))%R).
Proof.
  intros Hev. pose proof (dirt_le_cleanable _ _ _ Hev) as Hd.
  destruct (evolved_kept _ _ _ Hev) as [_ Horig _ _ _ _ _ _].
  assert (Horig' : forall x y, original_env (clean_cell e x y) = original_env e).
  { intros x y. unfold clean_cell. destruct (_ && _); reflexivity. }
  unfold get_cleaning_percentage.
  split; [|split].
  - destruct (Z.eqb_spec (sum_bool (eq_scalar (original_env e) (value FREE))) 0)
      as [_|Hne]; [lra|].
    set (total := sum_bool (eq_scalar (original_env e) (value FREE))) in *.
    assert (Ht : (0 < IZR total)%R) by (apply IZR_lt; lia).
    assert (H0 : (0 <= IZR (total - sum_bool (dirt_map e)))%R)
      by (apply IZR_le; lia).
    assert (H1 : (IZR (total - sum_bool (dirt_map e)) <= IZR total)%R)
      by (apply IZR_le; lia).
    split.
    + apply Rmult_le_pos; [|lra]. apply Rmult_le_pos; [exact H0|].
      apply Rlt_le, Rinv_0_lt_compat, Ht.
    + apply (Rmult_le_reg_r (/ 100)); [lra|].
      replace (IZR (total - sum_bool (dirt_map e)) / IZR total * 100 * / 100)%R
        with (IZR (total - sum_bool (dirt_map e)) / IZR total)%R by lra.
      replace (100 * / 100)%R with 1%R by lra.
      apply (Rmult_le_reg_r (IZR total)); [exact Ht|].
      unfold Rdiv. rewrite Rmult_assoc, Rinv_l by lra. lra.
  - intros Hzero. rewrite Horig, Hzero. reflexivity.
  - intros x y. rewrite Horig'.
    destruct (Z.eqb_spec (sum_bool (eq_scalar (original_env e) (value FREE))) 0)
      as [_|Hne]; [lra|].
    set (total := sum_bool (eq_scalar (original_env e) (value FREE))) in *.
    assert (Ht : (0 < IZR total)%R) by (apply IZR_lt; lia).
    pose proof (clean_cell_dirt_le e x y) as Hle.
    assert (H1 : (IZR (total - sum_bool (dirt_map e))
                  <= IZR (total - sum_bool (dirt_map (clean_cell e x y))))%R)
      by (apply IZR_le; lia).
    apply Rmult_le_compat_r; [lra|]. unfold Rdiv.
    apply Rmult_le_compat_r; [|exact H1].
    apply Rlt_le, Rinv_0_lt_compat, Ht.
Qed.

Lemma cleaning_percentage_bounds_witness :
  (0 <= get_cleaning_percentage (clean_cell tiny_env 1 1) <= 100)%R.
Proof.
  apply (cleaning_percentage_bounds (create_empty_room 4 3) (1 / 10)%R).
  apply evolved_clean. apply evolved_init.
Defined.

(** *** The environment's and the planners' notions of a valid position *)

(** X5: The environment accepts a position exactly when the planners do or the
    cell is coded [DIRTY]: on such a cell, and only there, the two differ. *)
Theorem valid_position_env_vs_planner (env_array : ndarray Z) (rate : R)
        (e : Environment) (x y : Z) :
  evolved env_array rate e ->
  (is_valid_position e x y = Some true <->
   PathPlanner.is_valid_position env_array x y = true \/
   (0 <= x < ncols env_array /\ 0 <= y < nrows env_array /\
    at2 env_array y x = value DIRTY)) /\
  (PathPlanner.is_valid_position env_array x y = true ->
   is_valid_position e x y = Some true).
Proof.
  intros Hev. destruct (evolved_kept _ _ _ Hev).
  assert (Hiff : is_valid_position e x y = Some true <->
                 PathPlanner.is_valid_position env_array x y = true \/
                 (0 <= x < ncols env_array /\ 0 <= y < nrows env_array /\
                  at2 env_array y x = value DIRTY)).
  { rewrite is_valid_position_spec.
    unfold is_valid_position, PathPlanner.width, PathPlanner.height.
    rewrite kept_width0, kept_height0, kept_env0.
    destruct (in_range x (ncols env_array)) eqn:Hx;
      destruct (in_range y (nrows env_array)) eqn:Hy; cbn [andb negb];
      try apply in_range_iff in Hx; try apply in_range_iff in Hy;
      try (apply not_true_iff_false in Hx; rewrite in_range_iff in Hx);
      try (apply not_true_iff_false in Hy; rewrite in_range_iff in Hy);
      try (split; [discriminate|lia]).
    unfold CellType_of. cbn [value].
    repeat match goal with
           | |- context [?a =? ?b] => destruct (Z.eqb_spec a b)
           end; split; try discriminate; try lia; try reflexivity. }
  split; [exact Hiff|]. intros Hv. apply Hiff. now left.
Qed.

Lemma valid_position_env_vs_planner_witness :
  is_valid_position tiny_env 1 1 = Some true.
Proof.
  apply (proj2 (valid_position_env_vs_planner (create_empty_room 4 3) (1 / 10)%R
                  tiny_env 1 1 (evolved_init _ _))).
  reflexivity.
Defined.

(** *** The empty room *)

(** X6: For positive sizes, the cells of [create_empty_room] inside the grid are
    obstacles on the four borders and free everywhere else. *)
Theorem empty_room_border (w h x y : Z) :
  1 <= w -> 1 <= h -> 0 <= x < w -> 0 <= y < h ->
  at2 (create_empty_room w h) y x =
  if (x =? 0) || (x =? w - 1) || (y =? 0) || (y =? h - 1)
  then value OBSTACLE else value FREE.
Proof.
  intros Hw Hh Hx Hy.
  unfold create_empty_room, set_row, set_col, full, norm_index. cbn.
  repeat match goal with
         | |- context [?a =? ?b] => destruct (Z.eqb_spec a b)
         end; cbn; try reflexivity; lia.
Qed.

Lemma empty_room_border_witness :
  at2 (create_empty_room 4 3) 1 2 = value FREE.
Proof.
  apply (empty_room_border 4 3 2 1); lia.
Defined.

End EnvironmentExtra.

(** ** Placing the dock and finding it again *)

Module GeneratorExtra.
Import Python Numpy Random ListFacts NumpyFacts Environment EnvironmentGenerator
       EnvironmentExtra Examples.

Lemma in_argwhere_eq (a : ndarray Z) (v y x : Z) :
  In (y, x) (argwhere_eq a v) <->
  0 <= y < nrows a /\ 0 <= x < ncols a /\ at2 a y x = v.
Proof.
  unfold argwhere_eq. rewrite in_flat_map. split.
  - intros (y' & Hy & Hin). apply in_flat_map in Hin.
    destruct Hin as (x' & Hx & Hin).
    destruct (Z.eqb_spec (at2 a y' x') v) as [Hv|_]; [|destruct Hin].
    destruct Hin as [[= <- <-]|[]].
    apply in_rangeZ in Hx. apply in_rangeZ in Hy. tauto.
  - intros (Hy & Hx & Hv). exists y. split; [now apply in_rangeZ|].
    apply in_flat_map. exists x. split; [now apply in_rangeZ|].
    rewrite Hv, Z.eqb_refl. now left.
Qed.

Lemma NoDup_argwhere_eq (a : ndarray Z) (v : Z) : List.NoDup (argwhere_eq a v).
Proof.
  unfold argwhere_eq. apply NoDup_flat_map_disjoint.
  - apply NoDup_range.
  - intros y _. apply NoDup_flat_map_disjoint.
    + apply NoDup_range.
    + intros x _. destruct (at2 a y x =? v); repeat constructor. intros [].
    + intros x1 x2 c _ _ H1 H2.
      destruct (at2 a y x1 =? v); [|destruct H1].
      destruct (at2 a y x2 =? v); [|destruct H2].
      destruct H1 as [<-|[]]. destruct H2 as [[=]|[]]. congruence.
  - intros y1 y2 c _ _ H1 H2.
    apply in_flat_map in H1. apply in_flat_map in H2.
    destruct H1 as (x1 & _ & H1). destruct H2 as (x2 & _ & H2).
    destruct (at2 a y1 x1 =? v); [|destruct H1].
    destruct (at2 a y2 x2 =? v); [|destruct H2].
    destruct H1 as [<-|[]]. destruct H2 as [[=]|[]]. congruence.
Qed.

Lemma only_member {A} (l : list A) (a : A) :
  List.NoDup l -> (forall b, In b l <-> b = a) -> l = [a].
Proof.
  intros Hnd Hin. destruct l as [|b l].
  - exfalso. apply (proj2 (Hin a) eq_refl).
  - assert (b = a) by (apply Hin; now left). subst b.
    destruct l as [|c l]; [reflexivity|].
    assert (c = a) by (apply Hin; right; now left). subst c.
    inversion Hnd as [|? ? Hnotin _]; subst. exfalso. apply Hnotin. now left.
Qed.

(** The first dock of a map whose only dock is at [(x, y)]. *)
Lemma dock_found (env : ndarray Z) (rate : R) (x y : Z) :
  0 <= x < ncols env -> 0 <= y < nrows env ->
  (forall y' x', 0 <= y' < nrows env -> 0 <= x' < ncols env ->
                 at2 env y' x' <> value DOCK) ->
  dock_position (init (set2 env y x (value DOCK)) rate) = Some (x, y).
Proof.
  intros Hx Hy Hnone. unfold init. cbn [dock_position _initialize_dirt].
  rewrite (only_member (argwhere_eq (set2 env y x (value DOCK)) (value DOCK)) (y, x)).
  - reflexivity.
  - apply NoDup_argwhere_eq.
  - intros [y' x']. rewrite in_argwhere_eq. cbn [set2 nrows ncols at2]. split.
    + intros (Hy' & Hx' & Hv).
      destruct (Z.eqb_spec y' y); destruct (Z.eqb_spec x' x); cbn in Hv;
        try (exfalso; now apply (Hnone y' x')). congruence.
    + intros [= -> ->]. rewrite !Z.eqb_refl. cbn. tauto.
Qed.

Lemma setitem_in_bounds {A} (a : ndarray A) (y x : Z) (v : A) :
  0 <= y < nrows a -> 0 <= x < ncols a ->
  setitem a y x v = Returns (set2 a y x v).
Proof.
  intros Hy Hx. unfold setitem, norm_index.
  destruct (Z.ltb_spec y 0); [lia|]. destruct (Z.ltb_spec x 0); [lia|].
  replace (in_range y (nrows a)) with true by (symmetry; now apply in_range_iff).
  replace (in_range x (ncols a)) with true by (symmetry; now apply in_range_iff).
  reflexivity.
Qed.

(** X7: A dock placed at a given position of a map that has none is the dock the
    environment built on that map reports, and no other cell changes. *)
Theorem add_dock_then_find (env : ndarray Z) (rate : R) (x y : Z) (g : RandomState) :
  0 <= x < ncols env -> 0 <= y < nrows env ->
  (forall y' x', 0 <= y' < nrows env -> 0 <= x' < ncols env ->
                 at2 env y' x' <> value DOCK) ->
  exists env',
    fst (add_dock env (Some (x, y)) g) = Returns env' /\
    dock_position (init env' rate) = Some (x, y) /\
    get_cell_type (init env' rate) x y = Some DOCK /\
    (forall x' y', (x', y') <> (x, y) -> at2 env' y' x' = at2 env y' x').
Proof.
  intros Hx Hy Hnone. exists (set2 env y x (value DOCK)).
  unfold add_dock, ret. cbn [fst]. rewrite setitem_in_bounds by assumption.
  split; [reflexivity|]. split; [now apply dock_found|]. split.
  - unfold get_cell_type, init. cbn.
    replace (in_range x (ncols env)) with true by (symmetry; now apply in_range_iff).
    replace (in_range y (nrows env)) with true by (symmetry; now apply in_range_iff).
    cbn. now rewrite !Z.eqb_refl.
  - intros x' y' Hne. cbn.
    destruct (Z.eqb_spec y' y); destruct (Z.eqb_spec x' x); cbn;
      try reflexivity. congruence.
Qed.

Lemma add_dock_then_find_witness :
  exists env',
    fst (add_dock (create_empty_room 4 3) (Some (1, 1)) constant_generator)
    = Returns env' /\
    dock_position (init env' (1 / 10)%R) = Some (1, 1).
Proof.
  destruct (add_dock_then_find (create_empty_room 4 3) (1 / 10)%R 1 1
              constant_generator) as (env' & H1 & H2 & _).
  - cbn. lia.
  - cbn. lia.
  - intros y' x' _ _. destruct (ZigzagFacts.empty_room_cells 4 3 x' y') as [H|H];
      rewrite H; discriminate.
  - exists env'. split; assumption.
Defined.

Lemma randint_range (n : Z) (u : R) :
  0 < n -> (0 <= u < 1)%R -> 0 <= floor (IZR n * u) < n.
Proof.
  intros Hn Hu. unfold floor.
  destruct (base_Int_part (IZR n * u)) as [Hle Hgt].
  assert (Hn' : (0 < IZR n)%R) by now apply IZR_lt.
  split.
  - assert (H : (IZR (-1) < IZR (Int_part (IZR n * u)))%R) by (cbn; nra).
    apply lt_IZR in H. lia.
  - apply lt_IZR. nra.
Qed.

Lemma getitem_in_range {A} (l : list A) (i : Z) :
  0 <= i < Z.of_nat (length l) -> exists a, getitem l i = Some a /\ In a l.
Proof.
  intros Hi. unfold getitem, norm_index.
  destruct (Z.ltb_spec i 0); [lia|].
  replace (in_range i (Z.of_nat (length l))) with true
    by (symmetry; now apply in_range_iff).
  destruct (lookup_lt_is_Some_2 l (Z.to_nat i)) as [a Ha]; [lia|].
  exists a. split; [assumption|].
  apply list_elem_of_In. eapply list_elem_of_lookup_2. eassumption.
Qed.





End GeneratorExtra.

(** ** The robot's bookkeeping and its sensors *)

Module RobotExtra.
Import Python Numpy NumpyFacts Robot Examples.
Local Open Scope R_scope.





(** *** Sensors *)

Lemma distance_loop_spec (environment : ndarray Z) (sr : R) (x y dx dy : Z)
      (fuel : nat) :
  forall j : Z,
    (0 <= j)%Z -> (1 <= fuel)%nat -> sr < INR fuel - 1 + IZR j ->
    (forall i, (1 <= i <= j)%Z -> blocked environment x y dx dy i = false) ->
    exists d,
      distance_loop fuel environment sr (x + j * dx) (y + j * dy) dx dy (IZR j)
      = Returns d /\
      ((d = sr /\
        forall i, (1 <= i)%Z -> IZR (i - 1) < sr ->
                  blocked environment x y dx dy i = false) \/
       (exists k, (j < k)%Z /\ d = IZR k /\ IZR (k - 1) < sr /\
                  blocked environment x y dx dy k = true /\
                  forall i, (1 <= i < k)%Z ->
                            blocked environment x y dx dy i = false)).
Proof.
  induction fuel as [|fuel IH]; intros j Hj Hpos Hfuel Hclear; [lia|].
  rewrite S_INR in Hfuel.
  - cbn [distance_loop]. destruct (Rlt_dec (IZR j) sr) as [Hlt|Hge].
    + assert (Hx : (x + j * dx + dx = x + (j + 1) * dx)%Z) by lia.
      assert (Hy : (y + j * dy + dy = y + (j + 1) * dy)%Z) by lia.
      rewrite Hx, Hy. rewrite <- plus_IZR.
      destruct (blocked environment x y dx dy (j + 1)) eqn:Hb.
      * exists (IZR (j + 1)). split.
        -- unfold blocked in Hb. cbv zeta in Hb.
           destruct (negb _); [reflexivity|]. cbn [orb] in Hb. now rewrite Hb.
        -- right. exists (j + 1)%Z. split; [lia|]. split; [reflexivity|].
           replace (j + 1 - 1)%Z with j by lia. split; [assumption|].
           split; [assumption|]. intros i Hi. apply Hclear. lia.
      * pose proof Hb as Hb'. unfold blocked in Hb'. cbv zeta in Hb'.
        apply orb_false_elim in Hb'. destruct Hb' as [Hb' H2].
        apply orb_false_elim in Hb'. destruct Hb' as [Hin H1].
        rewrite Hin, H1, H2. cbn [orb].
        destruct (IH (j + 1)%Z) as (d & Hd & Hspec).
        -- lia.
        -- destruct fuel; [cbn in Hfuel; lra|lia].
        -- rewrite plus_IZR. lra.
        -- intros i Hi. destruct (Z.eq_dec i (j + 1)%Z) as [->|Hne];
             [assumption|apply Hclear; lia].
        -- exists d. split; [assumption|].
           destruct Hspec as [Hsr|(k & Hk & Hrest)]; [now left|].
           right. exists k. split; [lia|assumption].
    + exists sr. split; [reflexivity|]. left. split; [reflexivity|].
      intros i Hi Hlt. apply Hclear. split; [assumption|].
      apply Z.lt_succ_r. apply lt_IZR. unfold Z.succ.
      rewrite plus_IZR. rewrite minus_IZR in Hlt. lra.
Qed.

Lemma distance_to_obstacle_spec_aux (self : RobotVacuum) (environment : ndarray Z)
      (x y dx dy : Z) (fuel : nat) :
  sensor_range self < INR fuel ->
  exists d,
    _calculate_distance_to_obstacle (S fuel) self environment x y dx dy
    = Returns d /\
    ((d = sensor_range self /\
      forall i, (1 <= i)%Z -> IZR (i - 1) < sensor_range self ->
                blocked environment x y dx dy i = false) \/
     (exists k, (1 <= k)%Z /\ d = IZR k /\ IZR (k - 1) < sensor_range self /\
                blocked environment x y dx dy k = true /\
                forall i, (1 <= i < k)%Z ->
                          blocked environment x y dx dy i = false)).
Proof.
  intros Hfuel. unfold _calculate_distance_to_obstacle.
  destruct (distance_loop_spec environment (sensor_range self) x y dx dy
              (S fuel) 0) as (d & Hd & Hspec).
  - lia.
  - lia.
  - rewrite S_INR. cbn. lra.
  - intros i Hi. lia.
  - replace (x + 0 * dx)%Z with x in Hd by lia.
    replace (y + 0 * dy)%Z with y in Hd by lia.
    exists d. split; [exact Hd|].
    destruct Hspec as [Hsr|(k & Hk & Hrest)]; [now left|].
    right. exists k. split; [lia|assumption].
Qed.

(** X10: A ray returns after at most [sensor_range] passes, rounded up.  It
    reports the number of steps to the first cell that is off the map, an
    obstacle or a cliff, when fewer than [sensor_range + 1], and
    [sensor_range] when there is no such cell; so the report can exceed a
    range that is not a whole number. *)
Theorem distance_to_obstacle_spec (self : RobotVacuum) (environment : ndarray Z)
        (x y dx dy : Z) (fuel : nat) :
  sensor_range self < INR fuel ->
  exists d,
    _calculate_distance_to_obstacle (S fuel) self environment x y dx dy
    = Returns d /\
    ((d = sensor_range self /\
      forall i, (1 <= i)%Z -> IZR (i - 1) < sensor_range self ->
                blocked environment x y dx dy i = false) \/
     (exists k, (1 <= k)%Z /\ d = IZR k /\ IZR (k - 1) < sensor_range self /\
                blocked environment x y dx dy k = true /\
                forall i, (1 <= i < k)%Z ->
                          blocked environment x y dx dy i = false)).
Proof. apply distance_to_obstacle_spec_aux. Qed.

Lemma distance_to_obstacle_spec_witness :
  exists d,
    _calculate_distance_to_obstacle 4 robot0 room10 1 1 1 0
    = Returns d.
Proof.
  destruct (distance_to_obstacle_spec robot0 room10
              1 1 1 0 3) as (d & Hd & _).
  - cbn. lra.
  - exists d. exact Hd.
Defined.

Lemma obstacle_of_set_obstacle sd d b d' :
  obstacle_of (set_obstacle sd d b) d'
  = if decide (d' = d) then b else obstacle_of sd d'.
Proof. destruct d, d'; reflexivity. Qed.

Lemma distance_of_set_distance sd d v d' :
  distance_of (set_distance sd d v) d'
  = if decide (d' = d) then v else distance_of sd d'.
Proof. destruct d, d'; reflexivity. Qed.

Lemma obstacle_of_set_distance sd d v d' :
  obstacle_of (set_distance sd d v) d' = obstacle_of sd d'.
Proof. destruct d, d'; reflexivity. Qed.

Lemma distance_of_set_obstacle sd d b d' :
  distance_of (set_obstacle sd d b) d' = distance_of sd d'.
Proof. destruct d, d'; reflexivity. Qed.

Lemma open_ray_distance (self : RobotVacuum) (environment : ndarray Z)
      (x y dx dy : Z) (fuel : nat) :
  sensor_range self < INR fuel ->
  blocked environment x y dx dy 1 = false ->
  exists dist,
    _calculate_distance_to_obstacle (S fuel) self environment x y dx dy
    = Returns dist /\
    (dist = sensor_range self \/ 2 <= dist).
Proof.
  intros Hfuel Hopen.
  destruct (distance_to_obstacle_spec_aux self environment x y dx dy fuel Hfuel)
    as (d & Hd & [[-> _]|(k & Hk & -> & _ & Hb & _)]).
  - exists (sensor_range self). split; [assumption|now left].
  - exists (IZR k). split; [assumption|]. right.
    assert (k <> 1%Z) by (intros ->; congruence).
    apply (IZR_le 2 k). lia.
Qed.

(** The loop of [update_sensors]: every direction is read from its own
    neighbour, and the other directions keep their readings. *)
Lemma sense_spec (fuel : nat) (self : RobotVacuum) (environment : ndarray Z)
      (x y : Z) :
  sensor_range self < INR fuel ->
  forall (dirs : list (SensorDirection * (Z * Z))) (sd0 : SensorData),
    List.NoDup (map fst dirs) ->
    (forall d, In d (map fst dirs) ->
               obstacle_of sd0 d = false /\ distance_of sd0 d = None) ->
    exists sd,
      sense (S fuel) self environment x y dirs sd0 = Returns sd /\
      bumper_triggered sd = bumper_triggered sd0 /\
      cliff_detected sd
      = cliff_detected sd0 || existsb (fun e => cliff_at environment x y (snd e)) dirs /\
      (forall d, ~ In d (map fst dirs) ->
                 obstacle_of sd d = obstacle_of sd0 d /\
                 distance_of sd d = distance_of sd0 d) /\
      (forall d dx dy, In (d, (dx, dy)) dirs ->
                       reading fuel self environment x y d dx dy sd).
Proof.
  intros Hfuel. induction dirs as [|[d [dx dy]] rest IH]; intros sd0 Hnd Hfresh.
  - exists sd0. cbn [sense existsb]. rewrite orb_false_r.
    split; [reflexivity|]. split; [reflexivity|]. split; [reflexivity|].
    split; [intros; split; reflexivity|]. intros d dx dy [].
  - cbn [map fst] in Hnd. inversion Hnd as [|? ? Hnotin Hnd']; subst.
    assert (Hstep : forall sd1,
      bumper_triggered sd1 = bumper_triggered sd0 ->
      cliff_detected sd1
      = cliff_detected sd0 || cliff_at environment x y (dx, dy) ->
      (forall d', d' <> d -> obstacle_of sd1 d' = obstacle_of sd0 d' /\
                             distance_of sd1 d' = distance_of sd0 d') ->
      reading fuel self environment x y d dx dy sd1 ->
      exists sd,
        sense (S fuel) self environment x y rest sd1 = Returns sd /\
        bumper_triggered sd = bumper_triggered sd0 /\
        cliff_detected sd
        = cliff_detected sd0
          || existsb (fun e => cliff_at environment x y (snd e)) ((d, (dx, dy)) :: rest) /\
        (forall d', ~ In d' (map fst ((d, (dx, dy)) :: rest)) ->
                    obstacle_of sd d' = obstacle_of sd0 d' /\
                    distance_of sd d' = distance_of sd0 d') /\
        (forall d' dx' dy', In (d', (dx', dy')) ((d, (dx, dy)) :: rest) ->
                            reading fuel self environment x y d' dx' dy' sd)).
    { intros sd1 Hbump Hcliff Hframe Hread.
      destruct (IH sd1 Hnd') as (sd & Hsd & Hb & Hc & Hkeep & Hall).
      { intros d' Hin. destruct (Hframe d') as [Ho Hd]; [congruence|].
        rewrite Ho, Hd. apply Hfresh. now right. }
      exists sd. split; [exact Hsd|]. split; [congruence|]. split.
      { rewrite Hc, Hcliff. cbn [existsb snd]. now rewrite orb_assoc. }
      split.
      { intros d' Hnotin'. cbn [map fst] in Hnotin'.
        destruct (Hkeep d') as [Ho Hd]; [intros Hin'; apply Hnotin'; now right|].
        destruct (Hframe d') as [Ho' Hd']; [intros ->; apply Hnotin'; now left|].
        split; congruence. }
      intros d' dx' dy' [[= <- <- <-]|Hin]; [|now apply Hall].
      destruct (Hkeep d Hnotin) as [Ho Hd].
      unfold reading in *. cbv zeta in *. rewrite Ho, Hd. exact Hread. }
    destruct (Hfresh d (or_introl eq_refl)) as [Ho0 Hd0].
    cbn [sense]. unfold cliff_at in Hstep. cbn [fst snd] in Hstep.
    destruct (in_range (x + dx) (ncols environment)
              && in_range (y + dy) (nrows environment)) eqn:Hin.
    + destruct (Z.eqb_spec (at2 environment (y + dy) (x + dx)) 1) as [H1|H1].
      * apply Hstep.
        -- reflexivity.
        -- cbn. rewrite H1. cbn. now rewrite orb_false_r.
        -- intros d' Hne.
           rewrite obstacle_of_set_distance, obstacle_of_set_obstacle,
             distance_of_set_distance, distance_of_set_obstacle.
           destruct (decide (d' = d)); [contradiction|tauto].
        -- unfold reading. cbv zeta. rewrite Hin, H1. cbn.
           rewrite obstacle_of_set_distance, obstacle_of_set_obstacle,
             distance_of_set_distance.
           destruct (decide (d = d)); [tauto|contradiction].
      * destruct (Z.eqb_spec (at2 environment (y + dy) (x + dx)) 2) as [H2|H2].
        -- apply Hstep.
           ++ reflexivity.
           ++ cbn. now rewrite orb_true_r.
           ++ intros d' _. destruct d'; split; reflexivity.
           ++ unfold reading. cbv zeta. rewrite Hin.
              destruct (Z.eqb_spec (at2 environment (y + dy) (x + dx)) 1);
                [contradiction|].
              destruct (Z.eqb_spec (at2 environment (y + dy) (x + dx)) 2);
                [|contradiction].
              destruct d; cbn in *; tauto.
        -- destruct (open_ray_distance self environment x y dx dy fuel Hfuel)
             as (dist & Hdist & Hrange).
           { unfold blocked. cbv zeta. rewrite !Z.mul_1_l, Hin. cbn.
             destruct (Z.eqb_spec (at2 environment (y + dy) (x + dx)) 1);
               [contradiction|].
             destruct (Z.eqb_spec (at2 environment (y + dy) (x + dx)) 2);
               [contradiction|reflexivity]. }
           rewrite Hdist. apply Hstep.
           ++ reflexivity.
           ++ cbn. destruct (Z.eqb_spec (at2 environment (y + dy) (x + dx)) 2);
                [contradiction|]. now rewrite orb_false_r.
           ++ intros d' Hne.
              rewrite obstacle_of_set_distance, distance_of_set_distance.
              destruct (decide (d' = d)); [contradiction|tauto].
           ++ unfold reading. cbv zeta. rewrite Hin.
              destruct (Z.eqb_spec (at2 environment (y + dy) (x + dx)) 1);
                [contradiction|].
              destruct (Z.eqb_spec (at2 environment (y + dy) (x + dx)) 2);
                [contradiction|].
              rewrite obstacle_of_set_distance, distance_of_set_distance.
              destruct (decide (d = d)); [|contradiction].
              split; [assumption|]. exists dist. tauto.
    + apply Hstep.
      * reflexivity.
      * cbn. now rewrite orb_false_r.
      * intros d' Hne.
        rewrite obstacle_of_set_distance, obstacle_of_set_obstacle,
          distance_of_set_distance, distance_of_set_obstacle.
        destruct (decide (d' = d)); [contradiction|tauto].
      * unfold reading. cbv zeta. rewrite Hin.
        rewrite obstacle_of_set_distance, obstacle_of_set_obstacle,
          distance_of_set_distance.
        destruct (decide (d = d)); [tauto|contradiction].
Qed.

(** X11: With fuel for the rays, [update_sensors] returns readings in which each
    of the four directions is read from its own neighbour cell: off the map
    gives the obstacle flag and distance 0, an obstacle the flag and distance
    1, a cliff neither flag nor distance, any other cell the ray's distance,
    which is the sensor range or at least 2.  A cliff is reported exactly when
    one of the four neighbours is on the map and is a cliff, and the bumper
    never. *)
Theorem update_sensors_readings (self : RobotVacuum) (environment : ndarray Z)
        (fuel : nat) :
  sensor_range self < INR fuel ->
  let x := fst (to_grid (position self)) in
  let y := snd (to_grid (position self)) in
  exists sd,
    update_sensors (S fuel) self environment
    = Returns (sd, set_sensor_data self sd) /\
    bumper_triggered sd = false /\
    (cliff_detected sd = true <->
     exists d off, In (d, off) directions /\ cliff_at environment x y off = true) /\
    (forall d dx dy, In (d, (dx, dy)) directions ->
                     reading fuel self environment x y d dx dy sd).
Proof.
  intros Hfuel x y.
  destruct (sense_spec fuel self environment x y Hfuel directions
              SensorData_default) as (sd & Hsd & Hb & Hc & _ & Hall).
  - cbn. repeat constructor; cbn; intuition discriminate.
  - intros d _. destruct d; split; reflexivity.
  - exists sd. split.
    + unfold update_sensors. subst x y. unfold to_grid in *. cbn [fst snd] in Hsd.
      now rewrite Hsd.
    + split; [exact Hb|]. split; [|exact Hall].
      rewrite Hc. cbn [cliff_detected SensorData_default orb].
      rewrite existsb_exists. split.
      * intros ([d off] & Hin & Hcl). exists d, off. tauto.
      * intros (d & off & Hin & Hcl). exists (d, off). tauto.
Qed.

Lemma update_sensors_readings_witness :
  exists sd,
    update_sensors 4 robot0 room10 = Returns (sd, set_sensor_data robot0 sd) /\
    bumper_triggered sd = false.
Proof.
  destruct (update_sensors_readings robot0 room10 3) as (sd & Hsd & Hb & _).
  - cbn. lra.
  - exists sd. split; assumption.
Defined.

End RobotExtra.

(** ** Path optimisation and wall following *)

Module OptimizerExtra.
Import Python Numpy PathPlanner CoverageOptimizer Examples.

Lemma stutter_free_snoc (l : list Cell) (p : Cell) :
  stutter_free (l ++ [p]) <-> stutter_free l /\ last l <> Some p.
Proof.
  induction l as [|a [|b l] IH].
  - cbn. intuition discriminate.
  - cbn. intuition congruence.
  - change (stutter_free ((a :: b :: l) ++ [p]))
      with (a <> b /\ stutter_free ((b :: l) ++ [p])).
    change (stutter_free (a :: b :: l)) with (a <> b /\ stutter_free (b :: l)).
    change (last (a :: b :: l)) with (last (b :: l)). tauto.
Qed.

Lemma keep_moves_spec (rest : list Cell) :
  forall optimized : list Cell,
    optimized <> [] ->
    let r := keep_moves rest optimized in
    (stutter_free optimized -> stutter_free r) /\
    head r = head optimized /\
    last r = last (optimized ++ rest) /\
    r `sublist_of` optimized ++ rest /\
    (forall c, c ∈ r <-> c ∈ optimized ++ rest).
Proof.
  induction rest as [|p rest IH]; intros optimized Hne r.
  - subst r. cbn. rewrite app_nil_r. repeat split; auto.
  - subst r. cbn [keep_moves fold_left].
    destruct (decide (Some p <> last optimized)) as [Hnew|Hsame].
    + destruct (IH (optimized ++ [p])) as (Hs & Hh & Hl & Hsub & Hmem).
      { destruct optimized; discriminate. }
      fold (keep_moves rest (optimized ++ [p])).
      rewrite <- app_assoc in Hl, Hsub, Hmem. cbn [app] in Hl, Hsub, Hmem.
      split.
      { intros Hfree. apply Hs. apply stutter_free_snoc. split; [assumption|].
        congruence. }
      split.
      { rewrite Hh. destruct optimized; [contradiction|reflexivity]. }
      repeat split; try assumption; apply Hmem.
    + destruct (IH optimized Hne) as (Hs & Hh & Hl & Hsub & Hmem).
      fold (keep_moves rest optimized).
      assert (Hlast : last optimized = Some p).
      { destruct (last optimized) as [q|] eqn:Hq.
        - destruct (decide (q = p)) as [->|Hqp]; [reflexivity|].
          exfalso. apply Hsame. congruence.
        - exfalso. apply Hsame. discriminate. }
      split; [assumption|]. split; [assumption|]. split.
      { rewrite Hl. rewrite !last_app. destruct rest as [|q rest']; cbn.
        - assumption.
        - reflexivity. }
      split.
      { etransitivity; [exact Hsub|].
        apply sublist_app; [reflexivity|]. now apply sublist_cons. }
      intros c. rewrite Hmem. rewrite !elem_of_app, elem_of_cons.
      split; [tauto|]. intros [H|[->|H]]; try tauto.
      left. apply last_Some in Hlast. destruct Hlast as [l' ->].
      apply elem_of_app. right. now left.
Qed.

(** X12: A path of more than two entries comes back without equal neighbours: it
    is a subsequence of the path with the same first and last entry and the
    same cells. *)
Theorem remove_redundant_moves_spec (path : list Cell) :
  (2 < length path)%nat ->
  let r := remove_redundant_moves path in
  stutter_free r /\
  head r = head path /\
  last r = last path /\
  r `sublist_of` path /\
  (forall c, c ∈ r <-> c ∈ path).
Proof.
  intros Hlen r. subst r. unfold remove_redundant_moves.
  destruct (Z.leb_spec (Z.of_nat (length path)) 2) as [Hle|_]; [lia|].
  destruct path as [|first rest]; [cbn in Hlen; lia|].
  destruct (keep_moves_spec rest [first]) as (Hs & Hh & Hl & Hsub & Hmem);
    [discriminate|].
  unfold keep_moves in *. cbn [app] in *.
  split; [apply Hs; exact I|]. repeat split; try assumption; apply Hmem.
Qed.

Lemma remove_redundant_moves_spec_witness :
  stutter_free (remove_redundant_moves [(0, 0); (0, 0); (1, 0); (1, 0)]).
Proof.
  apply (remove_redundant_moves_spec [(0, 0); (0, 0); (1, 0); (1, 0)]).
  cbn. lia.
Defined.

Lemma keep_moves_fixed (rest : list Cell) :
  forall optimized : list Cell,
    stutter_free (optimized ++ rest) ->
    keep_moves rest optimized = optimized ++ rest.
Proof.
  induction rest as [|p rest IH]; intros optimized Hfree.
  - cbn. now rewrite app_nil_r.
  - cbn [keep_moves fold_left].
    assert (Hsnoc : stutter_free (optimized ++ [p]) /\
                    stutter_free ((optimized ++ [p]) ++ rest)).
    { rewrite <- app_assoc. cbn [app]. split; [|assumption].
      clear IH. revert Hfree. induction optimized as [|a [|b l] IHl].
      - intros _. exact I.
      - cbn. tauto.
      - change (a <> b /\ stutter_free ((b :: l) ++ p :: rest) ->
                a <> b /\ stutter_free ((b :: l) ++ [p])). tauto. }
    destruct Hsnoc as [Hsnoc Hall].
    apply stutter_free_snoc in Hsnoc. destruct Hsnoc as [_ Hlast].
    destruct (decide (Some p <> last optimized)) as [_|Hsame].
    + fold (keep_moves rest (optimized ++ [p])). rewrite IH by assumption.
      now rewrite <- app_assoc.
    + exfalso. apply Hsame. congruence.
Qed.

Lemma remove_redundant_moves_fixed (path : list Cell) :
  stutter_free path -> remove_redundant_moves path = path.
Proof.
  intros Hfree. unfold remove_redundant_moves.
  destruct (Z.leb_spec (Z.of_nat (length path)) 2) as [_|_]; [reflexivity|].
  destruct path as [|first rest]; [reflexivity|].
  apply (keep_moves_fixed rest [first]). exact Hfree.
Qed.

(** X13: Removing redundant moves a second time changes nothing, although a path
    of two equal entries keeps both. *)
Theorem remove_redundant_moves_idempotent (path : list Cell) :
  remove_redundant_moves (remove_redundant_moves path)
  = remove_redundant_moves path /\
  forall a : Cell, remove_redundant_moves [a; a] = [a; a].
Proof.
  split; [|reflexivity].
  destruct (le_lt_dec (length path) 2) as [Hle|Hlt].
  - unfold remove_redundant_moves at 2.
    destruct (Z.leb_spec (Z.of_nat (length path)) 2) as [_|?]; [|lia].
    reflexivity.
  - apply remove_redundant_moves_fixed.
    destruct (keep_moves_spec (tail path) [hd (0, 0) path]) as (Hs & _);
      [discriminate|].
    unfold remove_redundant_moves.
    destruct (Z.leb_spec (Z.of_nat (length path)) 2) as [?|_]; [lia|].
    destruct path as [|first rest]; [exact I|]. apply Hs. exact I.
Qed.

Lemma NoDup_stutter_free (l : list Cell) : List.NoDup l -> stutter_free l.
Proof.
  induction l as [|a [|b l] IH]; intros Hnd; try exact I.
  inversion Hnd as [|? ? Hnotin Hnd']; subst.
  split; [|now apply IH]. intros ->. apply Hnotin. now left.
Qed.

(** X14: The zigzag path has no redundant move: the optimiser that the simulation
    applies to every coverage path returns it as it is. *)
Theorem zigzag_path_already_optimal (environment : ndarray Z) (start : Cell)
        (horizontal : bool) :
  remove_redundant_moves
    (ZigzagCoveragePlanner.generate_zigzag_path environment start horizontal)
  = ZigzagCoveragePlanner.generate_zigzag_path environment start horizontal.
Proof.
  apply remove_redundant_moves_fixed. apply NoDup_stutter_free.
  rewrite ZigzagFacts.zigzag_is_boustrophedon.
  apply ZigzagFacts.NoDup_boustrophedon.
Qed.

(** X15: As [_is_line_clear] accepts every line, smoothing a path of three or more
    waypoints keeps its two ends and nothing between them, whatever lies
    between them; two passes of the outer loop suffice. *)
Theorem smooth_path_keeps_only_ends (a b : Cell) (mid : list Cell) (fuel : nat) :
  mid <> [] ->
  smooth_path (S (S fuel)) (a :: mid ++ [b]) = Returns [a; b].
Proof.
  intros Hmid. unfold smooth_path.
  assert (Hlen : length (a :: mid ++ [b]) = S (S (length mid)))
    by (cbn; rewrite length_app; cbn; lia).
  destruct (Z.leb_spec (Z.of_nat (length (a :: mid ++ [b]))) 2) as [Hle|_].
  { rewrite Hlen in Hle. destruct mid; [contradiction|]. cbn [length] in Hle. lia. }
  set (path := a :: mid ++ [b]) in *.
  assert (Hb : path !! S (length mid) = Some b).
  { subst path. now apply (list_lookup_middle (a :: mid) [] b). }
  assert (Hfar : furthest path 0 (length path - 1 - (0 + 1))
                 = Returns (Some (S (length mid)))).
  { rewrite Hlen. destruct mid as [|m mid']; [contradiction|].
    cbn [length]. replace (S (S (S (length mid'))) - 1 - (0 + 1))%nat
      with (S (length mid')) by lia.
    cbn [furthest]. replace (0 + 1 + S (length mid'))%nat
      with (S (S (length mid'))) by lia.
    cbn [length] in Hb. rewrite Hb. reflexivity. }
  cbn [smooth_loop].
  destruct (Z.ltb_spec (Z.of_nat 0) (Z.of_nat (length path) - 1)) as [_|Hge];
    [|lia].
  rewrite Hfar, Hb.
  destruct (Z.ltb_spec (Z.of_nat (S (length mid))) (Z.of_nat (length path) - 1))
    as [Hlt|_]; [lia|]. reflexivity.
Qed.

Lemma smooth_path_keeps_only_ends_witness :
  smooth_path 2 [(0, 0); (5, 0); (5, 5)] = Returns [(0, 0); (5, 5)].
Proof.
  apply (smooth_path_keeps_only_ends (0, 0) (5, 5) [(5, 0)] 0). discriminate.
Defined.

End OptimizerExtra.

Module WallFollowExtra.
Import Numpy PathPlanner PathPlannerFacts WallFollowPlanner Examples.

Lemma follows_initial environment start : follows environment start 0 (initial start).
Proof.
  constructor; cbn.
  - reflexivity.
  - repeat constructor. intros [].
  - intros c. rewrite elem_of_singleton. intuition congruence.
  - constructor.
  - lia.
Qed.

Lemma follows_arrive environment start k s cx cy d :
  follows environment start k s ->
  is_valid_position environment cx cy = true ->
  follows environment start (S k) (fst (arrive start s cx cy d)).
Proof.
  intros [Hh Hnd Hv Hvalid Hlen] Hc. unfold arrive. cbn [fst].
  destruct (decide ((cx, cy) ∉ visited s)) as [Hnew|Hold]; constructor; cbn;
    try assumption; try lia.
  - destruct (path s); [discriminate|assumption].
  - apply List.NoDup_app; [assumption|repeat constructor; intros []|].
    intros c Hin [<-|[]]. apply Hnew. now apply Hv.
  - intros c. rewrite elem_of_union, elem_of_singleton, in_app_iff, Hv. cbn.
    intuition congruence.
  - destruct (path s) as [|p0 l]; [discriminate|]. cbn in *.
    apply Forall_app. split; [assumption|]. repeat constructor. exact Hc.
  - rewrite length_app. cbn. lia.
Qed.

Lemma follows_body environment start k s :
  follows environment start k s ->
  follows environment start (S k) (fst (body environment start s)).
Proof.
  intros Hs. unfold body.
  destruct (direction ((direction_idx s + 1) mod 4)) as [dx dy].
  destruct (is_valid_position environment (x s + dx) (y s + dy)) eqn:Hright.
  - now apply follows_arrive.
  - destruct (direction (direction_idx s)) as [dx' dy'].
    destruct (is_valid_position environment (x s + dx') (y s + dy')) eqn:Hfwd.
    + now apply follows_arrive.
    + destruct Hs. constructor; cbn; try assumption. lia.
Qed.

Lemma follows_loop environment start (n : nat) :
  forall k s, follows environment start k s ->
              follows environment start (k + n) (loop environment start n s).
Proof.
  induction n as [|n IH]; intros k s Hs.
  - cbn. now rewrite Nat.add_0_r.
  - cbn [loop]. pose proof (follows_body environment start k s Hs) as Hb.
    destruct (body environment start s) as [s' stop]. cbn [fst] in Hb.
    destruct stop.
    + destruct Hb. constructor; try assumption. lia.
    + replace (k + S n)%nat with (S k + n)%nat by lia. now apply IH.
Qed.

(** X16: The wall-following path starts at [start], never repeats a cell (a cell
    walked over again is not listed again, so neighbours in the path need not
    be neighbours on the grid), has only traversable cells after the first,
    and has at most [max_steps + 1] entries. *)
Theorem follow_wall_path (environment : ndarray Z) (start : Cell) (max_steps : Z) :
  let p := follow_wall environment start max_steps in
  head p = Some start /\
  List.NoDup p /\
  Forall (fun c => traversable environment c = true) (tail p) /\
  Z.of_nat (length p) <= Z.max 0 max_steps + 1.
Proof.
  pose proof (follows_loop environment start (Z.to_nat max_steps) 0 (initial start)
                (follows_initial environment start)) as [Hh Hnd _ Hvalid Hlen].
  unfold follow_wall. cbv zeta. repeat split; try assumption. lia.
Qed.

Lemma arrive_old (start : Cell) (s : Locals) (cx cy d : Z) :
  (cx, cy) ∈ visited s -> (length (path s) <= 10)%nat ->
  arrive start s cx cy d = (mk_locals (path s) cx cy d (visited s), false).
Proof.
  intros Hin Hlen. unfold arrive.
  destruct (decide ((cx, cy) ∉ visited s)) as [Hnew|_]; [contradiction|].
  cbn [path]. destruct (Z.gtb_spec (Z.of_nat (length (path s))) 10); [lia|].
  now rewrite andb_false_r.
Qed.

Lemma arrive_new (start : Cell) (s : Locals) (cx cy d : Z) :
  (cx, cy) ∉ visited s -> (cx, cy) <> start ->
  arrive start s cx cy d
  = (mk_locals (path s ++ [(cx, cy)]) cx cy d ({[(cx, cy)]} ∪ visited s), false).
Proof.
  intros Hnew Hne. unfold arrive.
  destruct (decide ((cx, cy) ∉ visited s)) as [_|Hold]; [|contradiction].
  rewrite bool_decide_eq_false_2 by assumption. reflexivity.
Qed.

Section Circling.
Variable environment : ndarray Z.
Variables x0 y0 : Z.
Hypothesis valid_start : is_valid_position environment x0 y0 = true.
Hypothesis valid_east : is_valid_position environment (x0 + 1) y0 = true.
Hypothesis valid_south_east : is_valid_position environment (x0 + 1) (y0 + 1) = true.
Hypothesis valid_south : is_valid_position environment x0 (y0 + 1) = true.

Local Abbreviation block := (WallFollowPlanner.block x0 y0).
Local Abbreviation circling := (WallFollowPlanner.circling x0 y0).
Local Abbreviation after_three := (WallFollowPlanner.after_three x0 y0).

Ltac heading :=
  match goal with
  | |- context [direction ?d] =>
      let dd := fresh in
      set (dd := direction d); vm_compute in dd; subst dd; cbn [fst snd];
      f_equal; lia
  end.

Ltac apart := let H := fresh in intros H; injection H; intros; lia.

Lemma turn_right (start : Cell) (s : Locals) (cx cy d : Z) :
  d = (direction_idx s + 1) mod 4 ->
  (x s + fst (direction d), y s + snd (direction d)) = (cx, cy) ->
  is_valid_position environment cx cy = true ->
  body environment start s = arrive start s cx cy d.
Proof.
  intros Hd Hc Hvalid. unfold body. rewrite <- Hd.
  destruct (direction d) as [dx dy]. cbn [fst snd] in Hc.
  injection Hc as -> ->. now rewrite Hvalid.
Qed.

Lemma circling_body (s : Locals) :
  circling s ->
  circling (fst (body environment (x0, y0) s)) /\
  snd (body environment (x0, y0) s) = false.
Proof.
  intros (Hpath & Hvis & Hpos).
  assert (Hlen : (length (path s) <= 10)%nat) by (rewrite Hpath; cbn; lia).
  destruct Hpos as [Hp|[Hp|[Hp|Hp]]]; injection Hp as Hx Hy Hd.
  - rewrite (turn_right (x0, y0) s (x0 + 1) y0 1);
      [|rewrite Hd; reflexivity|rewrite Hx, Hy; heading|assumption].
    rewrite arrive_old; [|apply Hvis; cbn; tauto|assumption].
    cbn [fst snd]. split; [|reflexivity].
    split; [exact Hpath|]. split; [exact Hvis|]. cbn. tauto.
  - rewrite (turn_right (x0, y0) s (x0 + 1) (y0 + 1) 2);
      [|rewrite Hd; reflexivity|rewrite Hx, Hy; heading|assumption].
    rewrite arrive_old; [|apply Hvis; cbn; tauto|assumption].
    cbn [fst snd]. split; [|reflexivity].
    split; [exact Hpath|]. split; [exact Hvis|]. cbn. tauto.
  - rewrite (turn_right (x0, y0) s x0 (y0 + 1) 3);
      [|rewrite Hd; reflexivity|rewrite Hx, Hy; heading|assumption].
    rewrite arrive_old; [|apply Hvis; cbn; tauto|assumption].
    cbn [fst snd]. split; [|reflexivity].
    split; [exact Hpath|]. split; [exact Hvis|]. cbn. tauto.
  - rewrite (turn_right (x0, y0) s x0 y0 0);
      [|rewrite Hd; reflexivity|rewrite Hx, Hy; heading|assumption].
    rewrite arrive_old; [|apply Hvis; cbn; tauto|assumption].
    cbn [fst snd]. split; [|reflexivity].
    split; [exact Hpath|]. split; [exact Hvis|]. cbn. tauto.
Qed.

Lemma circling_loop (n : nat) :
  forall s, circling s -> path (loop environment (x0, y0) n s) = block.
Proof.
  induction n as [|n IH]; intros s Hs.
  - apply Hs.
  - cbn [loop]. destruct (circling_body s Hs) as [Hnext Hstop].
    destruct (body environment (x0, y0) s) as [s' stop]. cbn [fst snd] in *.
    subst stop. now apply IH.
Qed.

Lemma first_three_passes (m : nat) :
  loop environment (x0, y0) (S (S (S m))) (initial (x0, y0))
  = loop environment (x0, y0) m after_three.
Proof.
  cbn [loop].
  rewrite (turn_right (x0, y0) (initial (x0, y0)) (x0 + 1) y0 1);
    [|reflexivity|cbn [x y initial fst snd]; heading|assumption].
  rewrite arrive_new;
    [|cbn [visited initial]; rewrite elem_of_singleton; apart|apart].
  cbv iota beta.
  rewrite (turn_right (x0, y0) _ (x0 + 1) (y0 + 1) 2);
    [|reflexivity|cbn [x y fst snd]; heading|assumption].
  rewrite arrive_new;
    [|cbn [visited initial]; rewrite elem_of_union, !elem_of_singleton;
      intros [?|?]; revert select (_ = _); apart|apart].
  cbv iota beta.
  rewrite (turn_right (x0, y0) _ x0 (y0 + 1) 3);
    [|reflexivity|cbn [x y fst snd]; heading|assumption].
  rewrite arrive_new;
    [|cbn [visited initial]; rewrite !elem_of_union, !elem_of_singleton;
      intros [?|[?|?]]; revert select (_ = _); apart|apart].
  reflexivity.
Qed.

Lemma circling_after_three : circling after_three.
Proof using Type.
  clear valid_start valid_east valid_south_east valid_south.
  split; [reflexivity|]. split.
  - intros c Hin. cbn [visited after_three]. cbn in Hin. set_solver.
  - cbn. tauto.
Qed.

End Circling.

(** X17: When the start cell, the cell east of it, the cell south of it and the
    cell between those two are all traversable, the robot turns right every
    pass and walks round that block of four cells until its steps run out:
    the path is those four cells whatever the rest of the room is, and no
    wall is reached. *)
Theorem follow_wall_circles_in_the_open (environment : ndarray Z) (x0 y0 : Z)
        (max_steps : Z) :
  is_valid_position environment x0 y0 = true ->
  is_valid_position environment (x0 + 1) y0 = true ->
  is_valid_position environment (x0 + 1) (y0 + 1) = true ->
  is_valid_position environment x0 (y0 + 1) = true ->
  3 <= max_steps ->
  follow_wall environment (x0, y0) max_steps
  = [(x0, y0); (x0 + 1, y0); (x0 + 1, y0 + 1); (x0, y0 + 1)].
Proof.
  intros H0 H1 H2 H3 Hsteps. unfold follow_wall.
  replace (Z.to_nat max_steps) with (S (S (S (Z.to_nat (max_steps - 3))))) by lia.
  rewrite (first_three_passes environment x0 y0 H1 H2 H3).
  apply (circling_loop environment x0 y0 H0 H1 H2 H3).
  apply circling_after_three.
Qed.

Lemma follow_wall_circles_in_the_open_witness :
  follow_wall room10 (4, 4) 1000 = [(4, 4); (5, 4); (5, 5); (4, 5)].
Proof.
  apply (follow_wall_circles_in_the_open room10 4 4 1000);
    try (vm_compute; reflexivity). lia.
Defined.

End WallFollowExtra.

(** ** A* finds a legal path exactly when there is one *)

Module HeapqExtra.
Import Heapq.

Section Members.
Context {A : Type} (lt : A -> A -> bool).

(** Moving the hole of a sift from [i] to [j], where [b] sits: no item is
    lost. *)
Lemma hole_moves (heap : list A) (i j : nat) (a b x : A) :
  (i < length heap)%nat -> i <> j -> heap !! j = Some b ->
  x ∈ <[i := a]> heap -> x ∈ <[j := a]> (<[i := b]> heap).
Proof.
  intros Hi Hij Hj Hx. apply list_elem_of_lookup in Hx. destruct Hx as [k Hk].
  assert (Hjlen : (j < length heap)%nat) by (eapply lookup_lt_Some; eassumption).
  apply list_elem_of_lookup.
  destruct (decide (k = i)) as [->|Hki].
  - rewrite list_lookup_insert_eq in Hk by assumption. injection Hk as <-.
    exists j. apply list_lookup_insert_eq. now rewrite length_insert.
  - rewrite list_lookup_insert_ne in Hk by congruence.
    destruct (decide (k = j)) as [->|Hkj].
    + assert (x = b) by congruence. subst x. exists i.
      rewrite list_lookup_insert_ne by congruence.
      now apply list_lookup_insert_eq.
    + exists k. now rewrite !list_lookup_insert_ne by congruence.
Qed.

Lemma siftdown_loop_keeps (x : A) (fuel : nat) :
  forall heap newitem startpos pos,
    (pos < length heap)%nat ->
    x ∈ <[pos := newitem]> heap ->
    x ∈ <[snd (siftdown_loop lt fuel heap newitem startpos pos) := newitem]>
          (fst (siftdown_loop lt fuel heap newitem startpos pos)).
Proof.
  induction fuel as [|fuel IH]; intros heap newitem startpos pos Hpos Hx;
    cbn [siftdown_loop]; [exact Hx|].
  destruct (Nat.ltb_spec startpos pos) as [Hlt|_]; [|exact Hx].
  destruct (heap !! ((pos - 1) / 2)%nat) as [par|] eqn:Hpar; [|exact Hx].
  destruct (lt newitem par); [|exact Hx].
  assert (Hparent : ((pos - 1) / 2 < pos)%nat).
  { apply Nat.Div0.div_lt_upper_bound. lia. }
  apply IH.
  - rewrite length_insert. lia.
  - apply hole_moves; try assumption. lia.
Qed.

Lemma _siftdown_keeps (x : A) (heap : list A) (startpos pos : nat) :
  x ∈ heap -> x ∈ _siftdown lt heap startpos pos.
Proof.
  intros Hx. unfold _siftdown.
  destruct (heap !! pos) as [newitem|] eqn:Hnew; [|exact Hx].
  pose proof (siftdown_loop_keeps x pos heap newitem startpos pos) as H.
  destruct (siftdown_loop lt pos heap newitem startpos pos) as [heap' pos'].
  apply H.
  - eapply lookup_lt_Some; eassumption.
  - now rewrite list_insert_id.
Qed.

Lemma siftup_loop_keeps (x : A) (newitem : A) (fuel : nat) :
  forall heap endpos pos,
    (pos < length heap)%nat ->
    x ∈ <[pos := newitem]> heap ->
    x ∈ <[snd (siftup_loop lt fuel heap endpos pos) := newitem]>
          (fst (siftup_loop lt fuel heap endpos pos)) /\
    (snd (siftup_loop lt fuel heap endpos pos)
     < length (fst (siftup_loop lt fuel heap endpos pos)))%nat.
Proof.
  induction fuel as [|fuel IH]; intros heap endpos pos Hpos Hx;
    cbn [siftup_loop]; [split; assumption|].
  destruct (2 * pos + 1 <? endpos)%nat; [|split; assumption].
  match goal with
  | |- context [heap !! ?c] =>
      lazymatch c with
      | (if _ then _ else _) =>
          assert (Hc : (pos < c)%nat) by (repeat case_match; lia);
          remember c as childpos eqn:Hdef; clear Hdef
      end
  end.
  destruct (heap !! childpos) as [child|] eqn:Hchild; [|split; assumption].
  apply IH.
  - rewrite length_insert. eapply lookup_lt_Some; eassumption.
  - apply hole_moves; try assumption. lia.
Qed.

Lemma _siftup_keeps (x : A) (heap : list A) (pos : nat) :
  x ∈ heap -> x ∈ _siftup lt heap pos.
Proof.
  intros Hx. unfold _siftup.
  destruct (heap !! pos) as [newitem|] eqn:Hnew; [|exact Hx].
  pose proof (siftup_loop_keeps x newitem (length heap) heap (length heap) pos) as H.
  destruct (siftup_loop lt (length heap) heap (length heap) pos) as [heap' pos'].
  destruct H as [H Hlen].
  - eapply lookup_lt_Some; eassumption.
  - now rewrite list_insert_id.
  - now apply _siftdown_keeps.
Qed.

Lemma heappush_keeps (x item : A) (heap : list A) :
  x ∈ heap \/ x = item -> x ∈ heappush lt heap item.
Proof.
  intros Hx. unfold heappush. apply _siftdown_keeps.
  apply elem_of_app. destruct Hx as [Hx| ->]; [now left|right; now left].
Qed.

Lemma heappop_keeps (x item : A) (heap heap' : list A) :
  heappop lt heap = Some (item, heap') -> x ∈ heap -> x = item \/ x ∈ heap'.
Proof.
  induction heap as [|lastelt heap _] using rev_ind; [discriminate|].
  rewrite (HeapqFacts.heappop_snoc lt). destruct heap as [|returnitem rest].
  - intros [= <- <-] Hx. apply list_elem_of_singleton in Hx. now left.
  - intros [= <- <-] Hx.
    apply elem_of_app in Hx. destruct Hx as [Hx|Hx].
    + apply elem_of_cons in Hx. destruct Hx as [->|Hx]; [now left|].
      right. apply _siftup_keeps. cbn. now right.
    + apply list_elem_of_singleton in Hx. subst x.
      right. apply _siftup_keeps. cbn. now left.
Qed.

End Members.
End HeapqExtra.

Module NeighborsExtra.
Import Numpy ListFacts PathPlanner PathPlannerFacts Examples.

Lemma in_get_neighbors_iff environment x y diagonal q :
  In q (get_neighbors environment x y diagonal) <->
  traversable environment q = true /\
  ((exists d, In d [(0, 1); (1, 0); (0, -1); (-1, 0)] /\
              q = (x + fst d, y + snd d))
   \/
   (diagonal = true /\
    exists d, In d [(1, 1); (1, -1); (-1, 1); (-1, -1)] /\
              q = (x + fst d, y + snd d) /\
              is_valid_position environment (x + fst d) y = true /\
              is_valid_position environment x (y + snd d) = true)).
Proof.
  split.
  - intros Hq. pose proof (in_get_neighbors _ _ _ _ _ Hq) as [Hv [Hc|Hd]].
    + split; [exact Hv|now left].
    + split; [exact Hv|]. destruct diagonal; [right; tauto|].
      left. unfold get_neighbors in Hq.
      erewrite fold_left_ext in Hq.
      * apply (in_fold_left_append_if
                 (fun d => is_valid_position environment (x + fst d) (y + snd d))
                 (fun d => (x + fst d, y + snd d))) in Hq.
        destruct Hq as [[]|(d & Hin & _ & ->)]. now exists d.
      * intros acc [dx dy]. reflexivity.
  - intros [Hv Hq]. unfold get_neighbors.
    set (cardinal := fold_left _ [(0, 1); (1, 0); (0, -1); (-1, 0)] []).
    assert (Hcard : (exists d, In d [(0, 1); (1, 0); (0, -1); (-1, 0)] /\
                               q = (x + fst d, y + snd d)) -> In q cardinal).
    { intros (d & Hd & ->). subst cardinal. erewrite fold_left_ext.
      - apply (in_fold_left_append_if
                 (fun d => is_valid_position environment (x + fst d) (y + snd d))
                 (fun d => (x + fst d, y + snd d))).
        right. exists d. split; [exact Hd|]. split; [exact Hv|reflexivity].
      - intros acc [dx dy]. reflexivity. }
    destruct diagonal.
    + erewrite fold_left_ext.
      * apply (in_fold_left_append_if
                 (fun d => is_valid_position environment (x + fst d) (y + snd d)
                           && (is_valid_position environment (x + fst d) y
                               && is_valid_position environment x (y + snd d)))
                 (fun d => (x + fst d, y + snd d))).
        destruct Hq as [Hq|(_ & d & Hd & -> & Hv1 & Hv2)]; [left; now apply Hcard|].
        right. exists d. split; [exact Hd|]. split; [|reflexivity].
        unfold traversable in Hv. cbn [fst snd] in Hv. now rewrite Hv, Hv1, Hv2.
      * intros acc [dx dy]. cbn [fst snd].
        destruct (is_valid_position environment (x + dx) (y + dy)); reflexivity.
    + destruct Hq as [Hq|(Hfalse & _)]; [now apply Hcard|discriminate].
Qed.

(** A traversable cell next to [q] along an axis is among the neighbours. *)
Lemma adjacent_neighbor environment p q diagonal :
  adjacent p q -> traversable environment q = true ->
  In q (get_neighbors environment (fst p) (snd p) diagonal).
Proof.
  intros Hadj Hv. apply in_get_neighbors_iff. split; [exact Hv|]. left.
  destruct p as [px py], q as [qx qy]. unfold adjacent in Hadj. cbn [fst snd] in *.
  exists (qx - px, qy - py). cbn [fst snd]. split; [|f_equal; lia].
  assert (Hcases : (qx - px, qy - py) = (0, 1) \/ (qx - px, qy - py) = (1, 0) \/
                   (qx - px, qy - py) = (0, -1) \/ (qx - px, qy - py) = (-1, 0)).
  { assert (H : (qx - px = 0 /\ qy - py = 1) \/ (qx - px = 1 /\ qy - py = 0) \/
                (qx - px = 0 /\ qy - py = -1) \/ (qx - px = -1 /\ qy - py = 0))
      by lia.
    destruct H as [[-> ->]|[[-> ->]|[[-> ->]|[-> ->]]]]; tauto. }
  cbn. destruct Hcases as [<-|[<-|[<-|<-]]]; tauto.
Qed.

(** X18: Moves can be taken back: from a traversable cell, every neighbour has
    that cell among its own neighbours, diagonal moves included. *)
Theorem get_neighbors_symmetric (environment : ndarray Z) (x y : Z)
        (diagonal : bool) (q : Cell) :
  is_valid_position environment x y = true ->
  In q (get_neighbors environment x y diagonal) ->
  In (x, y) (get_neighbors environment (fst q) (snd q) diagonal).
Proof.
  intros Hp Hq. apply in_get_neighbors_iff in Hq.
  destruct Hq as [Hv [(d & Hd & ->)|(Hdiag & d & Hd & -> & Hv1 & Hv2)]];
    apply in_get_neighbors_iff; (split; [exact Hp|]); cbn [fst snd].
  - left. exists (- fst d, - snd d). cbn [fst snd]. split; [|f_equal; lia].
    cbn in Hd. destruct Hd as [<-|[<-|[<-|[<-|[]]]]]; cbn; tauto.
  - right. split; [exact Hdiag|]. exists (- fst d, - snd d). cbn [fst snd].
    split; [|split; [f_equal; lia|]].
    + cbn in Hd. destruct Hd as [<-|[<-|[<-|[<-|[]]]]]; cbn; tauto.
    + replace (x + fst d + - fst d) with x by lia.
      replace (y + snd d + - snd d) with y by lia. tauto.
Qed.

Lemma get_neighbors_symmetric_witness :
  In (1, 1) (get_neighbors room4 (fst (2, 2)) (snd (2, 2)) true).
Proof.
  apply (get_neighbors_symmetric room4 1 1 true (2, 2)).
  - vm_compute. reflexivity.
  - vm_compute. tauto.
Defined.

End NeighborsExtra.

Module AStarExtra.
Import Python Numpy ListFacts NumpyFacts PathPlanner PathPlannerFacts Heapq
       HeapqFacts HeapqExtra AStarPlanner AStarFacts NeighborsExtra Examples.

Lemma head_rev {A} (l : list A) : head (rev l) = last l.
Proof.
  induction l as [|a l IH]; [reflexivity|]. cbn [rev].
  destruct l as [|b l]; [reflexivity|].
  change (last (a :: b :: l)) with (last (b :: l)). rewrite <- IH.
  destruct (rev (b :: l)) eqn:Hr; [|reflexivity].
  apply (f_equal (@length A)) in Hr. rewrite length_rev in Hr. discriminate.
Qed.

Lemma last_rev {A} (l : list A) : last (rev l) = head l.
Proof. rewrite <- (rev_involutive l) at 2. now rewrite head_rev. Qed.

Lemma legal_steps_snoc environment diagonal (l : list Cell) (c : Cell) :
  legal_steps environment diagonal l ->
  (forall p, last l = Some p ->
             In c (get_neighbors environment (fst p) (snd p) diagonal)) ->
  legal_steps environment diagonal (l ++ [c]).
Proof.
  induction l as [|a [|b l] IH]; intros Hl Hlast.
  - exact I.
  - cbn. split; [|exact I]. now apply Hlast.
  - destruct Hl as [Hab Hl]. split; [exact Hab|]. apply IH; [exact Hl|].
    intros p Hp. apply Hlast. exact Hp.
Qed.

Lemma neighbor_ne environment x y diagonal q :
  In q (get_neighbors environment x y diagonal) -> q <> (x, y).
Proof.
  intros Hq. apply in_get_neighbors in Hq.
  destruct Hq as [_ [(d & Hd & ->)|(d & Hd & -> & _)]]; cbn in Hd;
    repeat (destruct Hd as [<-|Hd]; [cbn; intros [= ? ?]; lia|]); destruct Hd.
Qed.

(** *** Following the parents back *)

Section Reconstruct.
Context (environment : ndarray Z) (start : Cell) (diagonal : bool) (s : Search).
Hypothesis Htree : tree environment start diagonal s.

Lemma reconstruct_sound (fuel : nat) :
  forall (c : Cell) (acc path : list Cell),
    c ∈ dom (node_map s) ->
    reconstruct fuel (node_map s) (Some c) acc = Returns path ->
    exists chain,
      path = acc ++ chain /\ head chain = Some c /\ last chain = Some start /\
      legal_steps environment diagonal (rev chain) /\
      Forall (fun p => p ∈ dom (node_map s)) chain.
Proof.
  induction fuel as [|fuel IH]; intros c acc path Hc Hrun; [discriminate|].
  cbn [reconstruct] in Hrun.
  apply elem_of_dom in Hc. destruct Hc as [n Hn]. rewrite Hn in Hrun.
  cbn [mbind option_bind] in Hrun.
  destruct (decide (c = start)) as [->|Hne].
  - destruct (tree_start _ _ _ _ Htree) as (n0 & Hn0 & _ & Hp0).
    assert (n = n0) by congruence. subst n0. rewrite Hp0 in Hrun.
    rewrite reconstruct_end in Hrun. injection Hrun as <-.
    exists [start]. repeat split; try reflexivity.
    constructor; [|constructor]. apply elem_of_dom. eauto.
  - destruct (tree_parent _ _ _ _ Htree c n Hn Hne) as (q & Hq & Hqdom & Hmove & _).
    rewrite Hq in Hrun.
    destruct (IH q (acc ++ [c]) path Hqdom Hrun)
      as (chain & -> & Hhead & Hlast & Hsteps & Hall).
    exists (c :: chain). split; [now rewrite <- app_assoc|].
    split; [reflexivity|]. split.
    { destruct chain; [discriminate|exact Hlast]. }
    split.
    { cbn [rev]. apply legal_steps_snoc; [exact Hsteps|].
      intros p Hp. rewrite last_rev, Hhead in Hp. injection Hp as <-. exact Hmove. }
    constructor; [apply elem_of_dom; eauto|exact Hall].
Qed.

Lemma reconstruct_returns (fuel : nat) :
  forall (c : Cell) (acc : list Cell),
    map_Forall (fun _ n => 0 <= g_cost n) (node_map s) ->
    c ∈ dom (node_map s) ->
    g_of (node_map s) c < Z.of_nat fuel ->
    exists path, reconstruct fuel (node_map s) (Some c) acc = Returns path.
Proof.
  induction fuel as [|fuel IH]; intros c acc Hg Hc Hfuel.
  - pose proof (g_of_nonneg (node_map s) c Hg). lia.
  - cbn [reconstruct].
    apply elem_of_dom in Hc. destruct Hc as [n Hn]. rewrite Hn.
    cbn [mbind option_bind].
    destruct (decide (c = start)) as [->|Hne].
    + destruct (tree_start _ _ _ _ Htree) as (n0 & Hn0 & _ & Hp0).
      assert (n = n0) by congruence. subst n0. rewrite Hp0.
      rewrite reconstruct_end. eauto.
    + destruct (tree_parent _ _ _ _ Htree c n Hn Hne) as (q & Hq & Hqdom & _ & Hlt).
      rewrite Hq. apply IH; [exact Hg|exact Hqdom|].
      unfold g_of in Hfuel at 1. rewrite Hn in Hfuel. lia.
Qed.

End Reconstruct.

(** *** One neighbour, all neighbours, one pass *)

Lemma visit_closed goal current (s : Search) nb :
  closed_set (visit goal current s nb) = closed_set s.
Proof.
  unfold visit. destruct (decide (nb ∈ closed_set s)) as [_|_]; [reflexivity|].
  destruct (node_map s !! nb) as [node|]; [|reflexivity].
  destruct (_ <? _); reflexivity.
Qed.

Lemma visit_tree environment start goal diagonal current (s : Search) nb pending :
  invariant environment start s ->
  tree environment start diagonal s ->
  frontier environment diagonal current (nb :: pending) s ->
  current ∈ dom (node_map s) ->
  In nb (get_neighbors environment (fst current) (snd current) diagonal) ->
  tree environment start diagonal (visit goal current s nb) /\
  frontier environment diagonal current pending (visit goal current s nb).
Proof.
  intros Hinv Htree Hfr Hcur Hnb.
  assert (Hne : nb <> current).
  { destruct current as [cx cy]. exact (neighbor_ne _ _ _ _ _ Hnb). }
  assert (Hstay : nb ∈ dom (node_map s) ->
                  tree environment start diagonal s /\
                  frontier environment diagonal current pending s).
  { intros Hdom. split; [exact Htree|]. destruct Hfr as [Hc Hn Ho].
    constructor; [exact Hc| |exact Ho].
    intros c nb' Hcl Hin. destruct (Hn c nb' Hcl Hin) as [H|[-> [<-|H]]]; auto. }
  unfold visit.
  destruct (decide (nb ∈ closed_set s)) as [Hcl|Hopen].
  { apply Hstay. now apply (fr_closed _ _ _ _ _ Hfr). }
  set (g' := g_of (node_map s) current + _).
  assert (Hg' : g_of (node_map s) current < g').
  { subst g'.
    pose proof (move_cost_pos ((fst nb =? fst current) || (snd nb =? snd current))).
    lia. }
  pose proof (g_of_nonneg (node_map s) current (inv_g _ _ _ Hinv)) as Hcur0.
  destruct (tree_start _ _ _ _ Htree) as (n0 & Hn0 & Hg0 & Hp0).
  assert (Hgof : forall v q, q <> nb ->
            g_of (<[nb := v]> (node_map s)) q = g_of (node_map s) q).
  { intros v q Hq. unfold g_of. now rewrite lookup_insert_ne by congruence. }
  destruct (node_map s !! nb) as [n|] eqn:Hlook.
  - destruct (Z.ltb_spec g' (g_cost n)) as [Hlt|_];
      [|apply Hstay; apply elem_of_dom; eauto].
    assert (Hnbstart : nb <> start) by (intros ->; assert (n = n0) by congruence; subst; lia).
    assert (Hdom : forall v, dom (<[nb := v]> (node_map s)) = dom (node_map s))
      by (intros v; apply dom_insert_lookup_L; eauto).
    split.
    + constructor; cbn [node_map].
      * exists n0. now rewrite lookup_insert_ne by congruence.
      * intros p np Hp Hpstart. rewrite Hdom.
        destruct (decide (p = nb)) as [->|Hpnb].
        -- rewrite lookup_insert_eq in Hp. injection Hp as <-. cbn [parent g_cost].
           exists current. split; [reflexivity|]. split; [exact Hcur|].
           split; [exact Hnb|]. now rewrite Hgof by congruence.
        -- rewrite lookup_insert_ne in Hp by congruence.
           destruct (tree_parent _ _ _ _ Htree p np Hp Hpstart)
             as (q & Hq & Hqdom & Hmove & Hqlt).
           exists q. split; [exact Hq|]. split; [exact Hqdom|]. split; [exact Hmove|].
           destruct (decide (q = nb)) as [->|Hqnb].
           ++ unfold g_of at 1. rewrite lookup_insert_eq. cbn [g_cost].
              unfold g_of in Hqlt. rewrite Hlook in Hqlt. lia.
           ++ now rewrite Hgof.
    + destruct Hfr as [Hc Hn Ho]. constructor; cbn [node_map closed_set open_set].
      * intros c Hcl. rewrite Hdom. now apply Hc.
      * intros c nb' Hcl Hin. rewrite Hdom.
        destruct (Hn c nb' Hcl Hin) as [H|[-> [<-|H]]]; auto.
        left. apply elem_of_dom. eauto.
      * intros p Hp Hpo. rewrite Hdom in Hp. apply heappush_keeps. left. now apply Ho.
  - split.
    + constructor; cbn [node_map].
      * exists n0. rewrite lookup_insert_ne; [tauto|]. intros <-. congruence.
      * intros p np Hp Hpstart. rewrite dom_insert_L.
        destruct (decide (p = nb)) as [->|Hpnb].
        -- rewrite lookup_insert_eq in Hp. injection Hp as <-. cbn [parent g_cost].
           exists current. split; [reflexivity|]. split; [set_solver|].
           split; [exact Hnb|]. now rewrite Hgof by congruence.
        -- rewrite lookup_insert_ne in Hp by congruence.
           destruct (tree_parent _ _ _ _ Htree p np Hp Hpstart)
             as (q & Hq & Hqdom & Hmove & Hqlt).
           exists q. split; [exact Hq|]. split; [set_solver|]. split; [exact Hmove|].
           rewrite Hgof; [exact Hqlt|]. intros ->.
           apply elem_of_dom in Hqdom. destruct Hqdom as [? ?]. congruence.
    + destruct Hfr as [Hc Hn Ho]. constructor; cbn [node_map closed_set open_set].
      * intros c Hcl. rewrite dom_insert_L. specialize (Hc c Hcl). set_solver.
      * intros c nb' Hcl Hin. rewrite dom_insert_L.
        destruct (Hn c nb' Hcl Hin) as [H|[-> [<-|H]]]; auto; left; set_solver.
      * intros p Hp Hpo. rewrite dom_insert_L in Hp. apply heappush_keeps.
        apply elem_of_union in Hp. destruct Hp as [Hp|Hp].
        -- right. now apply elem_of_singleton in Hp.
        -- left. now apply Ho.
Qed.

Lemma visit_all_tree environment start goal diagonal current :
  forall (nbs : list Cell) (s : Search),
    invariant environment start s ->
    tree environment start diagonal s ->
    frontier environment diagonal current nbs s ->
    current ∈ dom (node_map s) ->
    (forall nb, In nb nbs ->
                In nb (get_neighbors environment (fst current) (snd current) diagonal)) ->
    tree environment start diagonal (fold_left (visit goal current) nbs s) /\
    frontier environment diagonal current [] (fold_left (visit goal current) nbs s) /\
    closed_set (fold_left (visit goal current) nbs s) = closed_set s.
Proof.
  induction nbs as [|nb nbs IH]; intros s Hinv Htree Hfr Hcur Hnbs; cbn [fold_left].
  - tauto.
  - destruct (visit_step environment start goal diagonal current s nb Hinv Hcur)
      as (Hinv' & Hdom & _); [apply Hnbs; now left|].
    destruct (visit_tree environment start goal diagonal current s nb nbs
                Hinv Htree Hfr Hcur) as [Htree' Hfr']; [apply Hnbs; now left|].
    destruct (IH (visit goal current s nb) Hinv' Htree' Hfr') as (Ht & Hf & Hc).
    + set_solver.
    + intros nb' Hnb'. apply Hnbs. now right.
    + split; [exact Ht|]. split; [exact Hf|]. now rewrite Hc, visit_closed.
Qed.

Lemma pass_ready environment start goal diagonal (s : Search) current open_set' :
  ready environment start goal diagonal s ->
  heappop (node_lt (node_map s)) (open_set s) = Some (current, open_set') ->
  current <> goal ->
  ready environment start goal diagonal
        (fold_left (visit goal current)
                   (get_neighbors environment (fst current) (snd current) diagonal)
                   (mk_search open_set' ({[current]} ∪ closed_set s) (node_map s))).
Proof.
  intros (Hinv & Htree & Hfr & Hgoal) Hpop Hne.
  destruct (pass_step environment start goal diagonal s current open_set' Hinv Hpop)
    as (_ & Hinv' & _). cbv zeta in Hinv'.
  destruct (heappop_Some (node_lt (node_map s))
              (fun p => p ∈ dom (node_map s)) _ _ _ Hpop) as [_ Hitems].
  destruct (Hitems (inv_open _ _ _ Hinv)) as [Hcur Hopen'].
  set (s1 := mk_search open_set' ({[current]} ∪ closed_set s) (node_map s)) in *.
  assert (Hinv1 : invariant environment start s1).
  { constructor; cbn [open_set node_map s1].
    - exact Hopen'.
    - apply (inv_connected _ _ _ Hinv).
    - apply (inv_cells _ _ _ Hinv).
    - apply (inv_g _ _ _ Hinv). }
  assert (Htree1 : tree environment start diagonal s1).
  { destruct Htree as [Hs Hp]. constructor; cbn [node_map s1]; assumption. }
  assert (Hfr1 : frontier environment diagonal current
                   (get_neighbors environment (fst current) (snd current) diagonal) s1).
  { destruct Hfr as [Hc Hn Ho]. constructor; cbn [node_map closed_set open_set s1].
    - intros c Hcl. apply elem_of_union in Hcl. destruct Hcl as [Hcl|Hcl].
      + apply elem_of_singleton in Hcl. now subst c.
      + now apply Hc.
    - intros c nb Hcl Hin. apply elem_of_union in Hcl. destruct Hcl as [Hcl|Hcl].
      + apply elem_of_singleton in Hcl. subst c. right. tauto.
      + destruct (Hn c nb Hcl Hin) as [H|[_ []]]. now left.
    - intros p Hp Hpo.
      assert (Hpc : p <> current) by set_solver.
      assert (Hpcl : p ∉ closed_set s) by set_solver.
      destruct (heappop_keeps (node_lt (node_map s)) p current (open_set s) open_set'
                  Hpop (Ho p Hp Hpcl)) as [->|H]; [contradiction|exact H]. }
  destruct (visit_all_tree environment start goal diagonal current
              (get_neighbors environment (fst current) (snd current) diagonal)
              s1 Hinv1 Htree1 Hfr1 Hcur ltac:(auto)) as (Ht & Hf & Hc).
  split; [exact Hinv'|]. split; [exact Ht|]. split.
  - destruct Hf as [Hfc Hfn Hfo]. constructor; [exact Hfc| |exact Hfo].
    intros c nb Hcl Hin. destruct (Hfn c nb Hcl Hin) as [H|[_ []]]. now left.
  - rewrite Hc. cbn [closed_set s1]. set_solver.
Qed.

(** *** The search loop *)

Lemma initial_ready environment start goal diagonal :
  traversable environment start = true ->
  ready environment start goal diagonal
    (mk_search (heappush (node_lt {[start := mk_node start 0 (heuristic start goal) None]})
                         [] start)
               ∅ {[start := mk_node start 0 (heuristic start goal) None]}).
Proof.
  intros Hv. split; [now apply initial_invariant|]. rewrite heappush_first.
  split; [|split].
  - constructor; cbn [node_map].
    + eexists. rewrite lookup_singleton_eq. repeat split.
    + intros p n Hp Hne. rewrite lookup_singleton_ne in Hp by congruence.
      discriminate.
  - constructor; cbn [node_map closed_set open_set]; set_solver.
  - cbn. set_solver.
Qed.

(** A path that the loop returns is a legal path from start to goal. *)
Lemma search_sound environment start goal diagonal (fuel : nat) :
  forall (s : Search) (path : list Cell),
    ready environment start goal diagonal s ->
    search fuel environment goal diagonal s = Returns (Some path) ->
    head path = Some start /\ last path = Some goal /\
    Forall (fun c => traversable environment c = true) path /\
    legal_steps environment diagonal path.
Proof.
  induction fuel as [|fuel IH]; intros s path Hready Hrun; [discriminate|].
  cbn [search] in Hrun.
  destruct (heappop (node_lt (node_map s)) (open_set s))
    as [[current open_set']|] eqn:Hpop; [|discriminate].
  destruct (decide (current = goal)) as [->|Hne].
  - destruct Hready as (Hinv & Htree & _ & _).
    destruct (heappop_Some (node_lt (node_map s))
                (fun p => p ∈ dom (node_map s)) _ _ _ Hpop) as [_ Hitems].
    destruct (Hitems (inv_open _ _ _ Hinv)) as [Hgoal _].
    destruct (reconstruct fuel (node_map s) (Some goal) []) as [l| |] eqn:Hrec;
      try discriminate.
    injection Hrun as <-.
    destruct (reconstruct_sound environment start diagonal s Htree fuel goal [] l
                Hgoal Hrec) as (chain & -> & Hhead & Hlast & Hsteps & Hall).
    cbn [app]. rewrite head_rev, last_rev.
    split; [exact Hlast|]. split; [exact Hhead|]. split; [|exact Hsteps].
    apply List.Forall_forall. intros c Hc. apply in_rev in Hc.
    apply (proj1 (List.Forall_forall _ _) Hall) in Hc.
    apply (inv_cells _ _ _ Hinv) in Hc.
    apply elem_of_list_to_set, list_elem_of_In in Hc.
    now apply in_traversable_cells.
  - eapply IH; [|exact Hrun]. now apply pass_ready.
Qed.

(** When the goal can be reached, the loop does not give up. *)
Lemma search_complete environment start goal diagonal (fuel : nat) :
  connected environment start goal ->
  forall s : Search,
    ready environment start goal diagonal s ->
    search fuel environment goal diagonal s <> Returns None.
Proof.
  intros Hconn. induction fuel as [|fuel IH]; intros s Hready; [discriminate|].
  cbn [search].
  destruct (heappop (node_lt (node_map s)) (open_set s))
    as [[current open_set']|] eqn:Hpop.
  - destruct (decide (current = goal)) as [->|Hne].
    + destruct (reconstruct fuel (node_map s) (Some goal) []); discriminate.
    + apply IH. now apply pass_ready.
  - exfalso. apply heappop_None in Hpop.
    destruct Hready as (Hinv & Htree & Hfr & Hgoal).
    assert (Hall : forall p, p ∈ dom (node_map s) -> p ∈ closed_set s).
    { intros p Hp. destruct (decide (p ∈ closed_set s)) as [H|H]; [exact H|].
      pose proof (fr_open _ _ _ _ _ Hfr p Hp H) as Hin. rewrite Hpop in Hin.
      inversion Hin. }
    apply Hgoal. clear Hgoal IH.
    enough (Hreach : forall c, connected environment start c -> c ∈ closed_set s)
      by now apply Hreach.
    intros c Hc. induction Hc as [|p q _ IHp Hadj Hq].
    + apply Hall. destruct (tree_start _ _ _ _ Htree) as (n0 & Hn0 & _).
      apply elem_of_dom. eauto.
    + apply Hall.
      destruct (fr_neighbors _ _ _ _ _ Hfr p q IHp) as [H|[_ []]]; [|exact H].
      now apply adjacent_neighbor.
Qed.

(** The loop returns, given enough fuel. *)
Lemma search_returns environment start goal diagonal :
  forall (a b : nat) (s : Search),
    ready environment start goal diagonal s ->
    unexplored environment s = a -> work s = b ->
    exists fuel0, forall fuel, (fuel0 <= fuel)%nat ->
      exists r, search fuel environment goal diagonal s = Returns r.
Proof.
  induction a as [a IHa] using lt_wf_ind.
  induction b as [b IHb] using lt_wf_ind.
  intros s Hready Ha Hb.
  destruct (heappop (node_lt (node_map s)) (open_set s))
    as [[current open_set']|] eqn:Hpop.
  - destruct (decide (current = goal)) as [->|Hne].
    + destruct Hready as (Hinv & Htree & _ & _).
      destruct (heappop_Some (node_lt (node_map s))
                  (fun p => p ∈ dom (node_map s)) _ _ _ Hpop) as [_ Hitems].
      destruct (Hitems (inv_open _ _ _ Hinv)) as [Hgoal _].
      exists (S (S (Z.to_nat (g_of (node_map s) goal)))). intros fuel Hfuel.
      destruct fuel as [|fuel]; [lia|].
      rewrite (search_at_goal _ _ _ _ _ open_set') by exact Hpop.
      destruct (reconstruct_returns environment start diagonal s Htree fuel goal []
                  (inv_g _ _ _ Hinv) Hgoal) as [path Hpath]; [lia|].
      rewrite Hpath. eauto.
    + pose proof (pass_ready environment start goal diagonal s current open_set'
                    Hready Hpop Hne) as Hready'.
      destruct (pass_step environment start goal diagonal s current open_set'
                  (proj1 Hready) Hpop) as (_ & _ & Hprogress).
      cbv zeta in Hprogress.
      match type of Hready' with
      | ready _ _ _ _ ?s' =>
          assert (Hnext : exists fuel0, forall fuel, (fuel0 <= fuel)%nat ->
                     exists r, search fuel environment goal diagonal s' = Returns r)
      end.
      { destruct Hprogress as [Hlt|[Heq Hlt]].
        - eapply (IHa _ ltac:(rewrite <- Ha; exact Hlt)); [exact Hready'|reflexivity..].
        - eapply (IHb _ ltac:(rewrite <- Hb; exact Hlt)); [exact Hready'| |reflexivity].
          now rewrite Heq. }
      destruct Hnext as [fuel0 Hfuel0]. exists (S fuel0). intros fuel Hfuel.
      destruct fuel as [|fuel]; [lia|]. cbn [search]. rewrite Hpop.
      destruct (decide (current = goal)); [contradiction|]. apply Hfuel0. lia.
  - exists 1%nat. intros fuel Hfuel. destruct fuel as [|fuel]; [lia|].
    cbn [search]. rewrite Hpop. eauto.
Qed.

(** X19: A path that [find_path] returns leads from the start to the goal: it
    begins at the start, ends at the goal, visits traversable cells only, and
    each of its steps is a move that [get_neighbors] offers from the cell
    before (a diagonal step only past two traversable flanking cells). *)
Theorem find_path_is_legal (environment : ndarray Z) (start goal : Cell)
        (diagonal : bool) (fuel : nat) (path : list Cell) :
  find_path fuel environment start goal diagonal = Returns (Some path) ->
  head path = Some start /\ last path = Some goal /\
  Forall (fun c => traversable environment c = true) path /\
  legal_steps environment diagonal path.
Proof.
  intros Hrun.
  destruct (traversable environment start) eqn:Hs;
    [destruct (traversable environment goal) eqn:Hg|].
  - rewrite find_path_guard in Hrun by assumption.
    eapply search_sound; [|exact Hrun]. now apply initial_ready.
  - unfold find_path in Hrun. unfold traversable in Hg. rewrite Hg in Hrun.
    rewrite orb_true_r in Hrun. discriminate.
  - unfold find_path in Hrun. unfold traversable in Hs. rewrite Hs in Hrun.
    discriminate.
Qed.

Lemma find_path_is_legal_witness :
  head [(1, 1); (2, 2)] = Some (1, 1) /\ last [(1, 1); (2, 2)] = Some (2, 2) /\
  Forall (fun c => traversable room4 c = true) [(1, 1); (2, 2)] /\
  legal_steps room4 true [(1, 1); (2, 2)].
Proof.
  apply (find_path_is_legal room4 (1, 1) (2, 2) true 10). vm_compute. reflexivity.
Defined.

(** X20: From a traversable start, [find_path] finds a path to every cell that a
    sequence of traversable steps along the axes connects to the start: with
    enough fuel it returns, and what it returns is a path. *)
Theorem find_path_finds_connected (environment : ndarray Z) (start goal : Cell)
        (diagonal : bool) :
  traversable environment start = true ->
  connected environment start goal ->
  exists fuel0, forall fuel, (fuel0 <= fuel)%nat ->
    exists path, find_path fuel environment start goal diagonal
                 = Returns (Some path).
Proof.
  intros Hs Hconn.
  assert (Hg : traversable environment goal = true)
    by (destruct Hconn; assumption).
  pose proof (initial_ready environment start goal diagonal Hs) as Hready.
  destruct (search_returns environment start goal diagonal _ _ _ Hready
              eq_refl eq_refl) as [fuel0 Hfuel0].
  exists fuel0. intros fuel Hfuel. rewrite find_path_guard by assumption.
  destruct (Hfuel0 fuel Hfuel) as [[path|] Hr]; [eauto|].
  exfalso. eapply search_complete; eassumption.
Qed.

Lemma find_path_finds_connected_witness :
  exists fuel0, forall fuel, (fuel0 <= fuel)%nat ->
    exists path, find_path fuel room4 (1, 1) (2, 2) true = Returns (Some path).
Proof.
  apply (find_path_finds_connected room4 (1, 1) (2, 2) true).
  - vm_compute. reflexivity.
  - apply (connected_step room4 (1, 1) (2, 1)).
    + apply (connected_step room4 (1, 1) (1, 1)).
      * constructor.
      * vm_compute. reflexivity.
      * vm_compute. reflexivity.
    + vm_compute. reflexivity.
    + vm_compute. reflexivity.
Defined.

(** X28: The path returned need not be the cheapest: on the 5 x 3 map
    [detour_room], from (0, 1) to (4, 2) with diagonal moves, [find_path]
    returns seven steps along the axes, of cost 7.0, while a legal path with
    one diagonal step costs 6.414.  The Manhattan heuristic overestimates
    diagonal moves. *)
Theorem find_path_not_always_cheapest :
  exists path other : list Cell,
    find_path 40 detour_room (0, 1) (4, 2) true = Returns (Some path) /\
    head other = head path /\ last other = last path /\
    Forall (fun c => traversable detour_room c = true) other /\
    legal_steps detour_room true other /\
    path_cost other < path_cost path.
Proof.
  exists [(0, 1); (0, 2); (1, 2); (2, 2); (2, 1); (3, 1); (4, 1); (4, 2)],
         [(0, 1); (0, 0); (1, 0); (2, 0); (3, 1); (4, 1); (4, 2)].
  split; [vm_compute; reflexivity|].
  split; [reflexivity|]. split; [reflexivity|]. split.
  - repeat constructor.
  - split; [|vm_compute; reflexivity].
    vm_compute. tauto.
Qed.

End AStarExtra.

(** ** The occupancy grid and the motion model *)

Module BresenhamExtra.
Import Python Numpy OccupancyGrid Bresenham Examples.

Section Line.
Variables x0 y0 x1 y1 : Z.

Local Abbreviation dx := (Bresenham.dx x0 x1).
Local Abbreviation dy := (Bresenham.dy y0 y1).
Local Abbreviation sx := (Bresenham.sx x0 x1).
Local Abbreviation sy := (Bresenham.sy y0 y1).
Local Abbreviation err_at := (Bresenham.err_at x0 y0 x1 y1).
Local Abbreviation passes_left := (Bresenham.passes_left x0 y0 x1 y1).
Local Abbreviation on_line := (Bresenham.on_line x0 y0 x1 y1).

Lemma at_end_iff (a b : Z) :
  0 <= a <= dx -> 0 <= b <= dy ->
  ((x0 + sx * a =? x1) && (y0 + sy * b =? y1) = true <-> a = dx /\ b = dy).
Proof.
  intros Ha Hb. rewrite andb_true_iff, !Z.eqb_eq. unfold sx, sy, dx, dy in *.
  destruct (Z.ltb_spec x0 x1); destruct (Z.ltb_spec y0 y1); lia.
Qed.

Lemma passes_left_zero (a b : Z) :
  on_line a b -> (passes_left a b = 0 <-> a = dx /\ b = dy).
Proof.
  intros (Ha & Hb & Hband). unfold passes_left.
  destruct (Z.leb_spec dy dx) as [Hle|Hgt]; split; intros Hz; try lia.
  - split; [lia|]. assert (a = dx) by lia. subst a.
    destruct Hband as [[? ?]|[[? ?]|[? ?]]]; nia.
  - split; [|lia]. assert (b = dy) by lia. subst b.
    destruct Hband as [[? ?]|[[? ?]|[? ?]]]; nia.
Qed.

Lemma bresenham_loop_spec (fuel : nat) :
  forall (a b : Z) (cells : list Cell),
    on_line a b ->
    passes_left a b < Z.of_nat fuel ->
    exists tail,
      bresenham_loop fuel x1 y1 dx dy sx sy (x0 + sx * a) (y0 + sy * b)
                     (err_at a b) cells
      = Returns (cells ++ (x0 + sx * a, y0 + sy * b) :: tail) /\
      Z.of_nat (length tail) = passes_left a b /\
      last ((x0 + sx * a, y0 + sy * b) :: tail) = Some (x1, y1) /\
      king_steps ((x0 + sx * a, y0 + sy * b) :: tail).
Proof.
  induction fuel as [|fuel IH]; intros a b cells Hline Hfuel.
  - destruct Hline as (Ha & Hb & _). unfold passes_left in Hfuel.
    destruct (dy <=? dx); lia.
  - cbn [bresenham_loop].
    pose proof Hline as (Ha & Hb & Hband).
    destruct ((x0 + sx * a =? x1) && (y0 + sy * b =? y1)) eqn:Hend.
    + apply at_end_iff in Hend; [|assumption..]. destruct Hend as [-> ->].
      exists []. split; [reflexivity|]. split.
      * symmetry. apply passes_left_zero; [exact Hline|tauto].
      * split; [|exact I]. cbn. f_equal. unfold sx, sy, dx, dy.
        destruct (Z.ltb_spec x0 x1); destruct (Z.ltb_spec y0 y1); f_equal; lia.
    + assert (Hnot : ~ (a = dx /\ b = dy)).
      { intros H. apply at_end_iff in H; [congruence|assumption..]. }
      assert (Hleft : 0 < passes_left a b).
      { pose proof (passes_left_zero a b Hline) as Hz.
        unfold passes_left in *. destruct (dy <=? dx); lia. }
      set (stepx := 2 * err_at a b >? - dy).
      set (stepy := 2 * err_at a b <? dx).
      set (a' := if stepx then a + 1 else a).
      set (b' := if stepy then b + 1 else b).
      assert (Hline' : on_line a' b' /\ passes_left a' b' = passes_left a b - 1 /\
                       (a' = a \/ a' = a + 1) /\ (b' = b \/ b' = b + 1) /\
                       (a', b') <> (a, b)).
      { assert (H1 : a < dx -> 0 <= dy * (dx - a - 1))
          by (intros; apply Z.mul_nonneg_nonneg; lia).
        assert (H2 : b < dy -> 0 <= dx * (dy - b - 1))
          by (intros; apply Z.mul_nonneg_nonneg; lia).
        clear IH Hline Hfuel. subst a' b' stepx stepy.
        unfold on_line, passes_left, err_at in *.
        revert Hleft.
        destruct (Z.gtb_spec (2 * (dx - dy + b * dx - a * dy)) (- dy));
          destruct (Z.ltb_spec (2 * (dx - dy + b * dx - a * dy)) dx);
          destruct (Z.leb_spec dy dx); intros Hleft;
          destruct (Z_lt_dec a dx) as [Hadx|Hadx];
          destruct (Z_lt_dec b dy) as [Hbdy|Hbdy];
          try specialize (H1 Hadx); try specialize (H2 Hbdy);
          try (assert (a = dx) by lia; subst a);
          try (assert (b = dy) by lia; subst b);
          try (exfalso; destruct Hband as [[? ?]|[[? ?]|[? ?]]]; lia);
          (split; [|split; [|split; [|split]]]);
          try lia; try (intros Heq; injection Heq; intros; lia);
          destruct Hband as [[? ?]|[[? ?]|[? ?]]]; lia. }
      destruct Hline' as (Hline' & Hpass & Hxa & Hyb & Hmoved).
      assert (Hstate :
        (let '(err, x) := if stepx then (err_at a b - dy, x0 + sx * a + sx)
                          else (err_at a b, x0 + sx * a) in
         let '(err, y) := if stepy then (err + dx, y0 + sy * b + sy)
                          else (err, y0 + sy * b) in
         bresenham_loop fuel x1 y1 dx dy sx sy x y err
                        (cells ++ [(x0 + sx * a, y0 + sy * b)]))
        = bresenham_loop fuel x1 y1 dx dy sx sy (x0 + sx * a') (y0 + sy * b')
                         (err_at a' b') (cells ++ [(x0 + sx * a, y0 + sy * b)])).
      { subst a' b'. unfold err_at. destruct stepx; destruct stepy; cbv iota beta;
          f_equal; lia. }
      fold stepx. fold stepy. rewrite Hstate.
      destruct (IH a' b' (cells ++ [(x0 + sx * a, y0 + sy * b)]) Hline')
        as (tail & Hrun & Hlen & Hlast & Hking); [lia|].
      exists ((x0 + sx * a', y0 + sy * b') :: tail).
      split; [rewrite Hrun, <- app_assoc; reflexivity|].
      split; [cbn [length]; lia|]. split; [exact Hlast|].
      split; [|exact Hking]. cbn [fst snd].
      assert (Hs : (sx = 1 \/ sx = -1) /\ (sy = 1 \/ sy = -1)).
      { unfold sx, sy. destruct (x0 <? x1); destruct (y0 <? y1); lia. }
      assert (Hab : a' <> a \/ b' <> b).
      { destruct (Z.eq_dec a' a) as [->|]; [|now left].
        destruct (Z.eq_dec b' b) as [->|]; [|now right]. now contradiction Hmoved. }
      lia.
Qed.

End Line.

Lemma bresenham_line_aux (x0 y0 x1 y1 : Z) (fuel : nat) :
  Z.max (Z.abs (x1 - x0)) (Z.abs (y1 - y0)) < Z.of_nat fuel ->
  exists cells,
    bresenham_line fuel x0 y0 x1 y1 = Returns cells /\
    head cells = Some (x0, y0) /\
    last cells = Some (x1, y1) /\
    Z.of_nat (length cells) = Z.max (Z.abs (x1 - x0)) (Z.abs (y1 - y0)) + 1 /\
    king_steps cells.
Proof.
  intros Hfuel.
  assert (Hstart : on_line x0 y0 x1 y1 0 0).
  { unfold on_line, dx, dy. lia. }
  assert (Hleft : passes_left x0 y0 x1 y1 0 0
                  = Z.max (Z.abs (x1 - x0)) (Z.abs (y1 - y0))).
  { unfold passes_left, dx, dy.
    destruct (Z.leb_spec (Z.abs (y1 - y0)) (Z.abs (x1 - x0))); lia. }
  destruct (bresenham_loop_spec x0 y0 x1 y1 fuel 0 0 [] Hstart) as
    (tail & Hrun & Hlen & Hlast & Hking); [lia|].
  replace (x0 + sx x0 x1 * 0) with x0 in * by lia.
  replace (y0 + sy y0 y1 * 0) with y0 in * by lia.
  exists ((x0, y0) :: tail). split.
  - unfold bresenham_line. cbv zeta.
    replace (Z.abs (x1 - x0) - Z.abs (y1 - y0)) with (err_at x0 y0 x1 y1 0 0)
      by (unfold err_at, dx, dy; lia).
    exact Hrun.
  - split; [reflexivity|]. split; [exact Hlast|]. split; [|exact Hking].
    change (length ((x0, y0) :: tail)) with (S (length tail)). lia.
Qed.

(** X21: The ray from [(x0, y0)] to [(x1, y1)] is traced in as many passes as the
    longer of the two extents, plus one: it begins at the first point, ends
    at the second, and moves from cell to cell by a king's move. *)
Theorem bresenham_line_spec (x0 y0 x1 y1 : Z) (fuel : nat) :
  Z.max (Z.abs (x1 - x0)) (Z.abs (y1 - y0)) < Z.of_nat fuel ->
  exists cells,
    bresenham_line fuel x0 y0 x1 y1 = Returns cells /\
    head cells = Some (x0, y0) /\
    last cells = Some (x1, y1) /\
    Z.of_nat (length cells) = Z.max (Z.abs (x1 - x0)) (Z.abs (y1 - y0)) + 1 /\
    king_steps cells.
Proof. apply bresenham_line_aux. Qed.

Lemma bresenham_line_spec_witness :
  exists cells,
    bresenham_line 4 0 0 3 1 = Returns cells /\
    head cells = Some (0, 0) /\ last cells = Some (3, 1).
Proof.
  destruct (bresenham_line_spec 0 0 3 1 4) as (cells & H1 & H2 & H3 & _).
  - vm_compute. reflexivity.
  - exists cells. tauto.
Defined.

End BresenhamExtra.

Module OccupancyExtra.
Import Python Numpy NumpyFacts OccupancyGrid BresenhamExtra Examples.
Local Open Scope R_scope.

Lemma log_odds_occupied_pos : 0 < ln (0.7 / 0.3).
Proof. rewrite <- ln_1. apply ln_increasing; lra. Qed.

Lemma log_odds_free_neg : ln (0.3 / 0.7) < 0.
Proof. rewrite <- ln_1. apply ln_increasing; lra. Qed.

Lemma mapped_bounded w h res g : mapped w h res g -> bounded w h g.
Proof.
  induction 1 as [|g x y is_occupied _ IH].
  - constructor; cbn; try reflexivity; intros; lra.
  - destruct IH as [Hw Hh Ho Hf Hmax Hmin Hgrid Hun]. unfold update_cell.
    destruct (negb (in_range x (width g) && in_range y (height g)));
      [constructor; assumption|].
    pose proof log_odds_occupied_pos. pose proof log_odds_free_neg.
    constructor; cbn; try assumption.
    + intros x' y'. destruct ((y' =? y)%Z && (x' =? x)%Z); [|apply Hgrid].
      rewrite Ho, Hf, Hmax, Hmin. specialize (Hgrid x y).
      destruct is_occupied; [unfold Rmin|unfold Rmax];
        destruct (Rle_dec _ _); lra.
    + intros x' y'. destruct ((y' =? y)%Z && (x' =? x)%Z); [discriminate|apply Hun].
Qed.

Lemma get_probability_lt_1 g x y : get_probability g x y < 1.
Proof.
  unfold get_probability.
  destruct (negb (in_range x (width g) && in_range y (height g))); [lra|].
  destruct (negb (at2 (observed g) y x)); [lra|]. cbv zeta.
  pose proof (exp_pos (at2 (grid g) y x)) as Hexp.
  assert (Heq : exp (at2 (grid g) y x) / (1 + exp (at2 (grid g) y x))
                = 1 - / (1 + exp (at2 (grid g) y x))) by (field; lra).
  rewrite Heq.
  pose proof (Rinv_0_lt_compat (1 + exp (at2 (grid g) y x)) ltac:(lra)). lra.
Qed.

(** X22: In every grid of a run the log-odds of every cell lie between the two
    clamps, -3.5 and 3.5, a cell that was never observed has log-odds 0, and
    the occupancy probability of every position, on the map or off it, lies
    strictly between 0 and 1. *)
Theorem occupancy_stays_bounded (w h : Z) (res : R) (g : OccupancyGrid) :
  mapped w h res g ->
  width g = w /\ height g = h /\
  forall x y,
    -3.5 <= at2 (grid g) y x <= 3.5 /\
    (at2 (observed g) y x = false -> at2 (grid g) y x = 0) /\
    0 < get_probability g x y < 1.
Proof.
  intros Hg. destruct (mapped_bounded w h res g Hg) as [Hw Hh _ _ _ _ Hgrid Hun].
  split; [exact Hw|]. split; [exact Hh|]. intros x y.
  split; [apply Hgrid|]. split; [apply Hun|].
  split; [apply ParticleFilterFacts.get_probability_pos|apply get_probability_lt_1].
Qed.

Lemma occupancy_stays_bounded_witness :
  -3.5 <= at2 (grid grid5) 1 1 <= 3.5.
Proof.
  destruct (occupancy_stays_bounded 5 5 (5 / 100) grid5) as (_ & _ & H).
  - apply mapped_update. apply mapped_init.
  - apply (H 1%Z 1%Z).
Defined.

Lemma log_odds_occupied_small : ln (0.7 / 0.3) < 3.5.
Proof.
  rewrite <- (ln_exp 3.5). apply ln_increasing; [lra|].
  pose proof (exp_ineq1 3.5 ltac:(lra)). lra.
Qed.

Lemma log_odds_opposite : ln (0.3 / 0.7) = - ln (0.7 / 0.3).
Proof.
  replace (0.3 / 0.7) with (/ (0.7 / 0.3)) by (field; lra).
  apply ln_Rinv. lra.
Qed.

Lemma update_cell_in_bounds (g : OccupancyGrid) (x y : Z) (is_occupied : bool) :
  (0 <= x < width g)%Z -> (0 <= y < height g)%Z ->
  update_cell g x y is_occupied
  = mk_grid (width g) (height g) (resolution g)
            (set2 (grid g) y x
                  (if is_occupied
                   then Rmin (at2 (grid g) y x + log_odds_occupied g) (log_odds_max g)
                   else Rmax (at2 (grid g) y x + log_odds_free g) (log_odds_min g)))
            (set2 (observed g) y x true)
            (log_odds_occupied g) (log_odds_free g) (log_odds_max g) (log_odds_min g).
Proof.
  intros Hx Hy. unfold update_cell.
  replace (in_range x (width g)) with true by (symmetry; now apply in_range_iff).
  replace (in_range y (height g)) with true by (symmetry; now apply in_range_iff).
  reflexivity.
Qed.

Lemma probability_of_observed (g : OccupancyGrid) (x y : Z) :
  (0 <= x < width g)%Z -> (0 <= y < height g)%Z ->
  at2 (observed g) y x = true ->
  get_probability g x y = exp (at2 (grid g) y x) / (1 + exp (at2 (grid g) y x)).
Proof.
  intros Hx Hy Hobs. unfold get_probability.
  replace (in_range x (width g)) with true by (symmetry; now apply in_range_iff).
  replace (in_range y (height g)) with true by (symmetry; now apply in_range_iff).
  now rewrite Hobs.
Qed.

(** X23: On a new grid every cell has probability 0.5; one observation of a cell
    as occupied makes it 0.7 and one as free 0.3; an observation as occupied
    followed by one as free brings it back to 0.5, the value of a cell that
    was never observed. *)
Theorem observation_probabilities (w h : Z) (res : R) (x y : Z) :
  (0 <= x < w)%Z -> (0 <= y < h)%Z ->
  let g := init w h res in
  get_probability g x y = 0.5 /\
  get_probability (update_cell g x y true) x y = 0.7 /\
  get_probability (update_cell g x y false) x y = 0.3 /\
  get_probability (update_cell (update_cell g x y true) x y false) x y = 0.5.
Proof.
  intros Hx Hy g.
  pose proof log_odds_occupied_pos as Hpos.
  pose proof log_odds_occupied_small as Hsmall.
  pose proof log_odds_opposite as Hopp.
  assert (Hocc : at2 (grid (update_cell g x y true)) y x = ln (0.7 / 0.3)).
  { rewrite update_cell_in_bounds by assumption. subst g. cbn.
    rewrite !Z.eqb_refl. cbn. unfold Rmin. destruct (Rle_dec _ _); lra. }
  assert (Hfree : at2 (grid (update_cell g x y false)) y x = ln (0.3 / 0.7)).
  { rewrite update_cell_in_bounds by assumption. subst g. cbn.
    rewrite !Z.eqb_refl. cbn. unfold Rmax. destruct (Rle_dec _ _); lra. }
  assert (Hobs : forall g' b, width g' = w -> height g' = h ->
                              at2 (observed (update_cell g' x y b)) y x = true).
  { intros g' b Hw Hh. rewrite update_cell_in_bounds by congruence. cbn.
    now rewrite !Z.eqb_refl. }
  assert (Hdim : forall g' b, width (update_cell g' x y b) = width g' /\
                              height (update_cell g' x y b) = height g').
  { intros g' b. unfold update_cell. destruct (negb _); split; reflexivity. }
  split; [|split; [|split]].
  - unfold get_probability. subst g. cbn. destruct (negb _); reflexivity.
  - rewrite probability_of_observed.
    + rewrite Hocc, exp_ln by lra. lra.
    + now rewrite (proj1 (Hdim g true)).
    + now rewrite (proj2 (Hdim g true)).
    + now apply Hobs.
  - rewrite probability_of_observed.
    + rewrite Hfree, exp_ln by lra. lra.
    + now rewrite (proj1 (Hdim g false)).
    + now rewrite (proj2 (Hdim g false)).
    + now apply Hobs.
  - rewrite probability_of_observed.
    + rewrite update_cell_in_bounds.
      * cbn [grid at2 set2 log_odds_free log_odds_min]. rewrite !Z.eqb_refl.
        cbn [andb]. rewrite Hocc.
        replace (log_odds_free (update_cell g x y true)) with (ln (0.3 / 0.7)).
        2:{ rewrite update_cell_in_bounds by assumption. reflexivity. }
        replace (log_odds_min (update_cell g x y true)) with (-3.5).
        2:{ rewrite update_cell_in_bounds by assumption. reflexivity. }
        rewrite Hopp. replace (ln (0.7 / 0.3) + - ln (0.7 / 0.3)) with 0 by lra.
        unfold Rmax. destruct (Rle_dec 0 (-3.5)); [lra|].
        rewrite exp_0. lra.
      * now rewrite (proj1 (Hdim g true)).
      * now rewrite (proj2 (Hdim g true)).
    + now rewrite (proj1 (Hdim _ false)), (proj1 (Hdim g true)).
    + now rewrite (proj2 (Hdim _ false)), (proj2 (Hdim g true)).
    + apply Hobs; [apply (proj1 (Hdim g true))|apply (proj2 (Hdim g true))].
Qed.

Lemma observation_probabilities_witness :
  get_probability (update_cell (init 5 5 (5 / 100)) 1 1 true) 1 1 = 0.7.
Proof.
  apply (observation_probabilities 5 5 (5 / 100) 1 1); lia.
Defined.

(** *** Scans *)

Lemma update_cell_keeps_observed (g : OccupancyGrid) (x y x' y' : Z) (b : bool) :
  at2 (observed g) y' x' = true ->
  at2 (observed (update_cell g x y b)) y' x' = true.
Proof.
  intros Hobs. unfold update_cell. destruct (negb _); [exact Hobs|]. cbn.
  destruct ((y' =? y)%Z && (x' =? x)%Z); [reflexivity|exact Hobs].
Qed.

Lemma update_cell_observes (w h : Z) (res : R) (g : OccupancyGrid) (x y : Z)
      (b : bool) :
  mapped w h res g -> (0 <= x < w)%Z -> (0 <= y < h)%Z ->
  at2 (observed (update_cell g x y b)) y x = true.
Proof.
  intros Hg Hx Hy. destruct (mapped_bounded w h res g Hg) as [Hw Hh _ _ _ _ _ _].
  rewrite update_cell_in_bounds by congruence. cbn. now rewrite !Z.eqb_refl.
Qed.

(** Marking the cells of a ray as free. *)
Lemma mark_free (w h : Z) (res : R) (ray : list Cell) :
  forall g : OccupancyGrid,
    mapped w h res g ->
    let g' := fold_left (fun self '(x, y) => update_cell self x y false) ray g in
    mapped w h res g' /\
    (forall x y, at2 (observed g) y x = true -> at2 (observed g') y x = true) /\
    (forall x y, In (x, y) ray -> (0 <= x < w)%Z -> (0 <= y < h)%Z ->
                 at2 (observed g') y x = true).
Proof.
  induction ray as [|[cx cy] ray IH]; intros g Hg; cbn [fold_left].
  - split; [exact Hg|]. split; [auto|]. intros x y [].
  - destruct (IH (update_cell g cx cy false)) as (Hm & Hkeep & Hnew).
    { now apply mapped_update. }
    split; [exact Hm|]. split.
    + intros x y Hobs. apply Hkeep. now apply update_cell_keeps_observed.
    + intros x y [[= -> ->]|Hin] Hx Hy.
      * apply Hkeep. now apply (update_cell_observes w h res).
      * now apply Hnew.
Qed.

Lemma scan_point_spec (w h : Z) (res : R) (g : OccupancyGrid) (robot_x robot_y : Z)
      (point : Cell) (fuel : nat) :
  mapped w h res g ->
  (Z.max (Z.abs (fst point - robot_x)) (Z.abs (snd point - robot_y))
   < Z.of_nat fuel)%Z ->
  exists g',
    scan_point fuel g robot_x robot_y point = Returns g' /\
    mapped w h res g' /\
    (forall x y, at2 (observed g) y x = true -> at2 (observed g') y x = true) /\
    ((0 <= fst point < w)%Z -> (0 <= snd point < h)%Z ->
     at2 (observed g') (snd point) (fst point) = true) /\
    ((0 <= robot_x < w)%Z -> (0 <= robot_y < h)%Z ->
     at2 (observed g') robot_y robot_x = true).
Proof.
  intros Hg Hfuel. destruct point as [px py]. cbn [fst snd] in *.
  unfold scan_point.
  destruct (bresenham_line_aux robot_x robot_y px py fuel Hfuel)
    as (ray & -> & Hhead & Hlast & _ & _).
  destruct (mark_free w h res (removelast ray) g Hg) as (Hm & Hkeep & Hnew).
  cbv zeta in Hm, Hkeep, Hnew.
  eexists. split; [reflexivity|].
  split; [now apply mapped_update|]. split.
  - intros x y Hobs. apply update_cell_keeps_observed. now apply Hkeep.
  - split.
    + intros Hx Hy. now apply (update_cell_observes w h res).
    + intros Hx Hy. destruct ray as [|c [|c' ray]]; [discriminate| |].
      * cbn in Hhead, Hlast. assert ((px, py) = (robot_x, robot_y)) by congruence.
        injection H as -> ->. now apply (update_cell_observes w h res).
      * apply update_cell_keeps_observed. apply Hnew; [|assumption..].
        cbn in Hhead. injection Hhead as ->. cbn. now left.
Qed.

Lemma update_from_scan_aux (w h : Z) (res : R) (robot_x robot_y : Z) (fuel : nat)
      (scan_points : list Cell) :
  forall g : OccupancyGrid,
    mapped w h res g ->
    Forall (fun p => (Z.max (Z.abs (fst p - robot_x)) (Z.abs (snd p - robot_y))
                      < Z.of_nat fuel)%Z) scan_points ->
    exists g',
      update_from_scan fuel g robot_x robot_y scan_points = Returns g' /\
      mapped w h res g' /\
      (forall x y, at2 (observed g) y x = true -> at2 (observed g') y x = true) /\
      (forall p, In p scan_points -> (0 <= fst p < w)%Z -> (0 <= snd p < h)%Z ->
                 at2 (observed g') (snd p) (fst p) = true) /\
      (scan_points <> [] -> (0 <= robot_x < w)%Z -> (0 <= robot_y < h)%Z ->
       at2 (observed g') robot_y robot_x = true).
Proof.
  induction scan_points as [|p rest IH]; intros g Hg Hfuel; cbn [update_from_scan].
  - exists g. split; [reflexivity|]. split; [exact Hg|]. split; [auto|].
    split; [intros p []|]. intros Hne. contradiction.
  - inversion Hfuel as [|? ? Hp Hrest]; subst.
    destruct (scan_point_spec w h res g robot_x robot_y p fuel Hg Hp)
      as (g1 & -> & Hg1 & Hkeep1 & Hpoint & Hrobot).
    destruct (IH g1 Hg1 Hrest) as (g' & Hrun & Hg' & Hkeep & Hpoints & _).
    exists g'. split; [exact Hrun|]. split; [exact Hg'|]. split; [auto|]. split.
    + intros q [<-|Hin] Hx Hy; [apply Hkeep; now apply Hpoint|now apply Hpoints].
    + intros _ Hx Hy. apply Hkeep. now apply Hrobot.
Qed.

(** X24: With fuel for its longest ray, [update_from_scan] returns a grid of the
    run in which every observed cell is still observed, every scan point on
    the map is observed and, when there is a scan point at all, so is the
    robot's cell if it is on the map; nothing is raised for points or a robot
    off the map. *)
Theorem update_from_scan_observes (w h : Z) (res : R) (g : OccupancyGrid)
        (robot_x robot_y : Z) (scan_points : list Cell) (fuel : nat) :
  mapped w h res g ->
  Forall (fun p => (Z.max (Z.abs (fst p - robot_x)) (Z.abs (snd p - robot_y))
                    < Z.of_nat fuel)%Z) scan_points ->
  exists g',
    update_from_scan fuel g robot_x robot_y scan_points = Returns g' /\
    mapped w h res g' /\
    (forall x y, at2 (observed g) y x = true -> at2 (observed g') y x = true) /\
    (forall p, In p scan_points -> (0 <= fst p < w)%Z -> (0 <= snd p < h)%Z ->
               at2 (observed g') (snd p) (fst p) = true) /\
    (scan_points <> [] -> (0 <= robot_x < w)%Z -> (0 <= robot_y < h)%Z ->
     at2 (observed g') robot_y robot_x = true).
Proof. intros Hg Hfuel. now apply update_from_scan_aux. Qed.

Lemma update_from_scan_observes_witness :
  exists g',
    update_from_scan 4 (init 5 5 (5 / 100)) 0 0 [(3, 1)%Z] = Returns g' /\
    at2 (observed g') 1 3 = true.
Proof.
  destruct (update_from_scan_observes 5 5 (5 / 100) (init 5 5 (5 / 100)) 0 0
              [(3, 1)%Z] 4) as (g' & Hrun & _ & _ & Hpoints & _).
  - apply mapped_init.
  - constructor; [vm_compute; reflexivity|constructor].
  - exists g'. split; [exact Hrun|].
    apply (Hpoints (3, 1)%Z); [now left|cbn; lia|cbn; lia].
Defined.

End OccupancyExtra.

Module ParticleExtra.
Import Python Numpy Random ParticleFilter ParticleFilterFacts Examples.
Local Open Scope R_scope.







Lemma sum_uniform (l : list Particle) (c : R) :
  Forall (fun p => weight p = c) l -> sum_weights l = INR (length l) * c.
Proof.
  induction 1 as [|p l Hp _ IH].
  - unfold sum_weights. cbn. lra.
  - rewrite sum_weights_cons, IH, Hp.
    change (length (p :: l)) with (S (length l)). rewrite S_INR. lra.
Qed.

(** X26: In a run of a filter of [n >= 1] particles, [resample] returns, given
    enough fuel, and leaves every particle with the weight [1 / n], so that
    the weights sum to 1 whatever they were before. *)
Theorem resample_resets_weights (n : Z) (pf : ParticleFilter) (g : RandomState) :
  (0 < n)%Z -> in_run n pf ->
  exists fuel pf',
    fst (resample fuel pf g) = Returns pf' /\
    Forall (fun p => weight p = 1 / IZR n) (particles pf') /\
    sum_weights (particles pf') = 1.
Proof.
  intros Hn Hrun.
  pose proof (in_run_well_formed n pf Hn Hrun) as Hwf.
  destruct (resample_returns n pf g Hn Hwf) as (fuel & pf' & Hret).
  exists fuel, pf'. split; [exact Hret|].
  destruct Hwf as (Hnum & _ & _).
  destruct (resample_inv fuel pf pf' g Hret) as (_ & Hlen & Hw).
  rewrite Hnum in Hlen, Hw. split; [exact Hw|].
  rewrite (sum_uniform _ _ Hw), Hlen, INR_IZR_INZ, Z2Nat.id by lia.
  field. apply not_0_IZR. lia.
Qed.

Lemma resample_resets_weights_witness :
  exists fuel pf',
    fst (resample fuel filter2 constant_generator) = Returns pf' /\
    sum_weights (particles pf') = 1.
Proof.
  destruct (resample_resets_weights 2 filter2 constant_generator)
    as (fuel & pf' & Hret & _ & Hsum).
  - lia.
  - apply run_init.
  - exists fuel, pf'. split; assumption.
Defined.

End ParticleExtra.

(** ** How far the spiral reaches *)

Module SpiralExtra.
Import Numpy PathPlanner PathPlannerFacts SpiralCoveragePlanner SpiralFacts Examples.

(** Within [max_radius * max_radius] passes the spiral gets no further than
    half of [max_radius + 1] from the start on either axis. *)
Lemma on_spiral_reach start j s max_radius :
  on_spiral start j s -> 0 <= j <= max_radius * max_radius -> 0 <= max_radius ->
  2 * Z.abs (x s - fst start) <= max_radius + 1 /\
  2 * Z.abs (y s - snd start) <= max_radius + 1.
Proof.
  intros (m & t & Hm & Ht & Hst & HtL & Hcases) Hj HR. cbv zeta in Hcases.
  destruct Hcases as [H|[H|[H|H]]];
    destruct H as (Hc & HL & Hdx & Hdy & HX & HY & Hjm);
    rewrite HX, HY.
  - assert (2 * m <= max_radius) by nia. split; lia.
  - assert (2 * m + 1 <= max_radius) by nia. split; lia.
  - assert (2 * m + 1 <= max_radius) by nia. split; lia.
  - assert (2 * m + 2 <= max_radius) by nia. split; lia.
Qed.

(** X27: For a radius that is not negative, the spiral path begins at the start,
    has at most [max_radius * max_radius + 1] entries, lists only traversable
    cells after the first, and reaches no further than half of
    [max_radius + 1] from the start along either axis: traversable cells
    beyond that are left out. *)
Theorem spiral_reach (environment : ndarray Z) (start : Cell)
        (max_radius : option Z) :
  let R := effective_radius environment max_radius in
  let p := generate_spiral_path environment start max_radius in
  0 <= R ->
  head p = Some start /\
  Z.of_nat (length p) <= R * R + 1 /\
  Forall (fun c => traversable environment c = true) (tail p) /\
  forall c, In c p ->
            2 * Z.abs (fst c - fst start) <= R + 1 /\
            2 * Z.abs (snd c - snd start) <= R + 1.
Proof.
  cbv zeta. intros HR.
  destruct (spiral_pattern_and_termination environment start max_radius)
    as (Hpath & _ & _ & _ & _ & _ & Hstop).
  cbv zeta in Hpath, Hstop. destruct (Hstop HR) as (_ & Hn & _).
  rewrite Hpath, Hn.
  set (R := effective_radius environment max_radius) in *.
  destruct (trace_is_spiral environment start (Z.to_nat (R * R))) as [Htrace _].
  rewrite <- Htrace.
  split; [reflexivity|]. split; [|split].
  - cbn [length].
    pose proof (List.filter_length_le (traversable environment)
                  (trace environment (Z.to_nat (R * R)) (initial start))) as Hle.
    unfold trace in Hle at 2. rewrite length_map, length_seq in Hle. nia.
  - cbn [tail]. apply List.Forall_forall. intros c Hc.
    apply filter_In in Hc. apply Hc.
  - intros c [<-|Hc].
    + rewrite !Z.sub_diag. cbn. lia.
    + apply filter_In in Hc. destruct Hc as [Hc _]. unfold trace in Hc.
      apply in_map_iff in Hc. destruct Hc as (i & <- & Hi). apply in_seq in Hi.
      cbn [fst snd].
      apply (on_spiral_reach start (Z.of_nat i)); [apply on_spiral_passes| |exact HR].
      nia.
Qed.

Lemma spiral_reach_witness :
  head (generate_spiral_path room10 (1, 1) None) = Some (1, 1) /\
  2 * Z.abs (fst (3, 4) - 1) <= 10 + 1 /\ 2 * Z.abs (snd (3, 4) - 1) <= 10 + 1.
Proof.
  destruct (spiral_reach room10 (1, 1) None) as (Hhead & _ & _ & H).
  - vm_compute. discriminate.
  - split; [exact Hhead|]. apply (H (3, 4)). vm_compute. tauto.
Defined.

End SpiralExtra.

(** ** The robot starts on a valid position *)

Module SimulatorExtra.
Import Python Numpy NumpyFacts Random Environment EnvironmentGenerator
       GeneratorExtra SimulationController Examples.




End SimulatorExtra.

(** ** The random walk is a walk *)

Module RandomWalkExtra.
Import Python Numpy Random PathPlanner PathPlannerFacts EnvironmentGenerator
       GeneratorExtra AStarPlanner AStarExtra RandomCoveragePlanner Examples.
Local Open Scope R_scope.

Lemma choice_spec {A} (seq : list A) (g : RandomState) :
  fair g -> seq <> [] ->
  exists a, fst (choice seq g) = Some a /\ In a seq /\
            samples (snd (choice seq g)) = samples g.
Proof.
  intros Hfair Hne. unfold choice.
  cbv beta iota zeta delta [bind randint draw ret]. cbn [fst snd samples].
  destruct (getitem_in_range seq
              (floor (IZR (Z.of_nat (length seq)) * samples g (cursor g))))
    as (a & Hget & Hin).
  - apply randint_range; [|apply Hfair]. destruct seq; [contradiction|cbn; lia].
  - exists a. tauto.
Qed.

Lemma legal_steps_traversable environment diagonal (p : Cell) (l : list Cell) :
  legal_steps environment diagonal (p :: l) ->
  Forall (fun c => traversable environment c = true) l.
Proof.
  revert p. induction l as [|q l IH]; intros p Hsteps; [constructor|].
  destruct Hsteps as [Hq Hrest]. constructor; [|now apply (IH q)].
  apply in_get_neighbors in Hq. tauto.
Qed.

Lemma body_spec environment start total target (k : nat) (s : Locals)
      (g : RandomState) :
  fair g -> walking environment start k s ->
  exists s' stop,
    fst (body environment total target s g) = Returns (s', stop) /\
    walking environment start (S k) s' /\
    samples (snd (body environment total target s g)) = samples g.
Proof.
  intros Hfair [Hhead Hlast Hsteps Hlen]. unfold body.
  destruct (get_neighbors environment (x s) (y s) false) as [|nb nbs] eqn:Hnb.
  { exists s, true. cbn. split; [reflexivity|]. split; [|reflexivity].
    constructor; try assumption. lia. }
  set (neighbors := nb :: nbs) in *.
  assert (Hpick : forall (m : M (option Cell)),
            (exists a, fst (m g) = Some a /\ In a neighbors /\
                       samples (snd (m g)) = samples g) ->
            exists s' stop,
              fst (bind m (fun next =>
                     match next with
                     | None => ret (Raises IndexError)
                     | Some next_pos =>
                         ret (Returns
                                (mk_locals (path s ++ [next_pos]) (fst next_pos)
                                           (snd next_pos) ({[next_pos]} ∪ covered s),
                                 coverage_reached ({[next_pos]} ∪ covered s)
                                                  total target))
                     end) g) = Returns (s', stop) /\
              walking environment start (S k) s' /\
              samples (snd (bind m (fun next =>
                     match next with
                     | None => ret (Raises IndexError)
                     | Some next_pos =>
                         ret (Returns
                                (mk_locals (path s ++ [next_pos]) (fst next_pos)
                                           (snd next_pos) ({[next_pos]} ∪ covered s),
                                 coverage_reached ({[next_pos]} ∪ covered s)
                                                  total target))
                     end) g)) = samples g).
  { intros m (a & Ha & Hin & Hsame). unfold bind.
    destruct (m g) as [next g']. cbn [fst snd] in Ha, Hsame. subst next.
    eexists _, _. cbn [fst snd ret]. unfold ret. cbn [fst snd].
    split; [reflexivity|]. split; [|exact Hsame].
    constructor; cbn [path x y].
    - destruct (path s); [discriminate|exact Hhead].
    - rewrite last_snoc. now destruct a.
    - apply legal_steps_snoc; [exact Hsteps|].
      intros p Hp. rewrite Hlast in Hp. injection Hp as <-. cbn [fst snd].
      subst neighbors. rewrite <- Hnb in Hin. exact Hin.
    - rewrite length_app. cbn. lia. }
  apply Hpick.
  destruct (List.filter _ neighbors) as [|u us] eqn:Hun.
  - apply choice_spec; [exact Hfair|discriminate].
  - cbv beta iota zeta delta [bind random draw].
    set (g1 := mk_random (samples g) (S (cursor g))).
    assert (Hfair1 : fair g1) by exact Hfair.
    destruct (Rlt_dec (samples g (cursor g)) 0.7).
    + destruct (choice_spec (u :: us) g1 Hfair1) as (a & Ha & Hin & Hsame);
        [discriminate|].
      exists a. split; [exact Ha|]. split; [|exact Hsame].
      rewrite <- Hun in Hin. apply filter_In in Hin. tauto.
    + destruct (choice_spec neighbors g1 Hfair1) as (a & Ha & Hin & Hsame);
        [discriminate|].
      exists a. tauto.
Qed.

Lemma loop_walks environment start total target (n : nat) :
  forall (k : nat) (s : Locals) (g : RandomState),
    fair g -> walking environment start k s ->
    exists s', fst (loop environment total target n s g) = Returns s' /\
               walking environment start (k + n) s'.
Proof.
  induction n as [|n IH]; intros k s g Hfair Hs.
  - exists s. cbn. split; [reflexivity|]. now rewrite Nat.add_0_r.
  - cbn [loop]. unfold bind at 1.
    destruct (body_spec environment start total target k s g Hfair Hs)
      as (s' & stop & Hrun & Hs' & Hsame).
    destruct (body environment total target s g) as [r g'].
    cbn [fst snd] in Hrun, Hsame. subst r.
    destruct stop.
    + exists s'. cbn. split; [reflexivity|].
      destruct Hs'. constructor; try assumption. lia.
    + destruct (IH (S k) s' g') as (s'' & Hrun' & Hs''); [|exact Hs'|].
      { intros i. rewrite Hsame. apply Hfair. }
      exists s''. split; [exact Hrun'|].
      replace (k + S n)%nat with (S k + n)%nat by lia. exact Hs''.
Qed.

(** X30: With raw samples in [0, 1), the random walk returns a path and raises
    nothing: the path begins at the start, each of its steps is a move along
    an axis that [get_neighbors] offers from the cell before, every cell
    after the first is traversable, and it has at most [max_steps + 1]
    entries. *)
Theorem generate_random_path_is_walk (environment : ndarray Z) (start : Cell)
        (target_coverage : R) (max_steps : Z) (g : RandomState) :
  (forall k, 0 <= samples g k < 1) ->
  exists path,
    fst (generate_random_path environment start target_coverage max_steps g)
    = Returns path /\
    head path = Some start /\
    legal_steps environment false path /\
    Forall (fun c => traversable environment c = true) (tail path) /\
    (Z.of_nat (length path) <= Z.max 0 max_steps + 1)%Z.
Proof.
  intros Hfair. unfold generate_random_path, bind.
  destruct (loop_walks environment start (total_free_cells environment)
              target_coverage (Z.to_nat max_steps) 0 (initial start) g Hfair)
    as (s & Hrun & [Hhead Hlast Hsteps Hlen]).
  { constructor; cbn; try reflexivity; try lia; try exact I. now destruct start. }
  destruct (loop _ _ _ _ _ g) as [r g']. cbn [fst] in Hrun. subst r.
  exists (RandomCoveragePlanner.path s). cbn [fst ret]. unfold ret. cbn [fst].
  split; [reflexivity|]. split; [exact Hhead|]. split; [exact Hsteps|]. split.
  - destruct (RandomCoveragePlanner.path s) as [|p l]; [discriminate|].
    cbn [tail]. now apply (legal_steps_traversable environment false p).
  - lia.
Qed.

Lemma generate_random_path_is_walk_witness :
  exists path,
    fst (generate_random_path room10 (1, 1)%Z 0.95 100 constant_generator)
    = Returns path /\
    head path = Some (1, 1)%Z.
Proof.
  destruct (generate_random_path_is_walk room10 (1, 1)%Z 0.95 100 constant_generator)
    as (path & Hrun & Hhead & _).
  - intros k. cbn. lra.
  - exists path. split; assumption.
Defined.

End RandomWalkExtra.

